(** * Star-rating pipeline: calibration (baseline.py) and re-application (current.py)

    A shallow embedding of [StarRatingCalculator] and [restandardize_var].

    Numbers.  The program computes on IEEE doubles held in pandas / numpy
    columns.  They are modelled here as exact extended reals with a
    not-a-number element ([float]): rounding is idealised away, while the
    propagation of NaN and of the two infinities through arithmetic and
    comparisons is kept, because the missing-data rules of the program
    are written in terms of it.  A division of a non-zero finite number by
    zero gives the infinity of the dividend's sign (zero is unsigned here).

    Exceptions.  numpy and pandas calls that raise are modelled in the
    [result] error monad. *)

From Stdlib Require Import Reals.Reals Reals.Zfloor Psatz List ZArith Bool Lia.
From Stdlib Require Import Sorting.Sorted Sorting.Permutation.
From Stdlib Require Strings.String.
Import ListNotations.

Open Scope R_scope.

(** ** Exceptions raised by the library calls the program makes *)

Inductive exn : Type :=
| ValueError          (* numpy: bad shapes, empty reductions *)
| KeyError            (* pandas: label not found by .loc *)
| IndexError          (* numpy: index out of bounds *)
| IntCastingNaNError. (* pandas: astype(int) on NaN or inf *)

Inductive result (A : Type) : Type :=
| Ok (a : A)
| Raise (e : exn).
Arguments Ok {A} a.
Arguments Raise {A} e.

Definition bind {A B} (m : result A) (k : A -> result B) : result B :=
  match m with
  | Ok a => k a
  | Raise e => Raise e
  end.

Notation "x <- m ;; k" := (bind m (fun x => k))
  (at level 61, m at next level, right associativity).

Fixpoint mapM {A B} (f : A -> result B) (l : list A) : result (list B) :=
  match l with
  | [] => Ok []
  | a :: l' => b <- f a ;; bs <- mapM f l' ;; Ok (b :: bs)
  end.

(** ** Column values *)

Inductive float : Type :=
| Fin (x : R)
| PInf
| NInf
| NaN.

Definition Rltb (x y : R) : bool := if Rlt_dec x y then true else false.
Definition Rleb (x y : R) : bool := if Rle_dec x y then true else false.
Definition Reqb (x y : R) : bool := if Req_dec_T x y then true else false.

Definition isna (a : float) : bool :=
  match a with NaN => true | _ => false end.

Definition notna (a : float) : bool := negb (isna a).

Definition fopp (a : float) : float :=
  match a with
  | Fin x => Fin (- x)
  | PInf => NInf
  | NInf => PInf
  | NaN => NaN
  end.

Definition fadd (a b : float) : float :=
  match a, b with
  | NaN, _ | _, NaN => NaN
  | Fin x, Fin y => Fin (x + y)
  | PInf, NInf | NInf, PInf => NaN
  | PInf, _ | _, PInf => PInf
  | NInf, _ | _, NInf => NInf
  end.

Definition fsub (a b : float) : float := fadd a (fopp b).

(** The infinity carrying the sign of [x]; [inf * 0] is NaN. *)
Definition inf_signed (x : R) : float :=
  if Rltb 0 x then PInf else if Rltb x 0 then NInf else NaN.

Definition fmul (a b : float) : float :=
  match a, b with
  | NaN, _ | _, NaN => NaN
  | Fin x, Fin y => Fin (x * y)
  | Fin x, PInf | PInf, Fin x => inf_signed x
  | Fin x, NInf | NInf, Fin x => inf_signed (- x)
  | PInf, PInf | NInf, NInf => PInf
  | PInf, NInf | NInf, PInf => NInf
  end.

Definition fdiv (a b : float) : float :=
  match a, b with
  | NaN, _ | _, NaN => NaN
  | Fin x, Fin y => if Reqb y 0 then inf_signed x else Fin (x / y)
  | Fin _, (PInf | NInf) => Fin 0
  | PInf, Fin y => if Rltb y 0 then NInf else PInf
  | NInf, Fin y => if Rltb y 0 then PInf else NInf
  | (PInf | NInf), (PInf | NInf) => NaN
  end.

(** Comparisons: every comparison with NaN is false. *)
Definition fltb (a b : float) : bool :=
  match a, b with
  | NaN, _ | _, NaN => false
  | Fin x, Fin y => Rltb x y
  | _, NInf => false
  | NInf, _ => true
  | PInf, _ => false
  | _, PInf => true
  end.

Definition fleb (a b : float) : bool :=
  match a, b with
  | NaN, _ | _, NaN => false
  | Fin x, Fin y => Rleb x y
  | NInf, _ => true
  | _, PInf => true
  | _, NInf => false
  | PInf, _ => false
  end.

Definition fgtb (a b : float) : bool := fltb b a.
Definition fgeb (a b : float) : bool := fleb b a.

Definition is_finite (a : float) : bool :=
  match a with Fin _ => true | _ => false end.

(** [np.where(c, x, y)], elementwise on one row. *)
Definition np_where {A} (c : bool) (x y : A) : A := if c then x else y.

(** Sum of a column, left to right as numpy and pandas accumulate. *)
Definition fsum (l : list float) : float := fold_left fadd l (Fin 0).

(** A Python integer as a column value. *)
Definition of_nat (n : nat) : float := Fin (INR n).
Definition of_Z (n : Z) : float := Fin (IZR n).

(** ** numpy's [select]

    Columns are given as expressions over the rows of the frame.  [np.select]
    first checks that the list of conditions and the list of choices have
    the same length and raises [ValueError] otherwise (also on an empty
    list of conditions); then, row by row, the first condition that holds
    picks its choice, and the default is used when none holds. *)

Fixpoint select_row {Row V} (condlist : list (Row -> bool))
    (choicelist : list (Row -> V)) (default : Row -> V) (r : Row) : V :=
  match condlist, choicelist with
  | c :: cs, x :: xs => if c r then x r else select_row cs xs default r
  | _, _ => default r
  end.

Definition np_select {Row V} (df : list Row) (condlist : list (Row -> bool))
    (choicelist : list (Row -> V)) (default : Row -> V) : result (list V) :=
  if negb (length condlist =? length choicelist)%nat then Raise ValueError
  else if (length condlist =? 0)%nat then Raise ValueError
  else Ok (map (select_row condlist choicelist default) df).

(** ** CompositeScorer: [calculate_final_score] *)

Module Composite.

Record row : Type := mkRow {
  factor1 : float;
  factor2 : float;
  factor3 : float;
  factor4 : float;
  pdflag : Z
}.

Definition scale (c : R) (a : float) : float := fmul (Fin c) a.

(** The two weighted sums of lines 147 and 148. *)
Definition weighted_pd (r : row) : float :=
  fadd (fadd (scale (2/5) (factor1 r)) (scale (1/5) (factor3 r)))
       (scale (2/5) (factor4 r)).

Definition weighted_all (r : row) : float :=
  fadd (fadd (fadd (scale (2/7) (factor1 r)) (scale (2/7) (factor2 r)))
             (scale (1/7) (factor3 r)))
       (scale (2/7) (factor4 r)).

Definition conditions : list (row -> bool) :=
  [ (fun r => isna (factor1 r));
    (fun r => isna (factor3 r));
    (fun r => isna (factor4 r));
    (fun r => (pdflag r =? 0)%Z && isna (factor2 r)) ].

Definition computed (r : row) : float :=
  np_where (pdflag r =? 1)%Z (weighted_pd r) (weighted_all r).

Definition choices : list (row -> float) :=
  [ (fun _ => NaN); (fun _ => NaN); (fun _ => NaN); (fun _ => NaN); computed ].

(** [choices[-1]] *)
Definition last_choice : row -> float := last choices (fun _ => NaN).

Definition calculate_final_score (df : list row) : result (list float) :=
  np_select df conditions choices last_choice.

End Composite.

(** ** Sorting, order statistics and reductions on columns *)

Definition feqb (a b : float) : bool :=
  match a, b with
  | Fin x, Fin y => Reqb x y
  | PInf, PInf | NInf, NInf => true
  | _, _ => false
  end.

Fixpoint insert_sorted (x : float) (l : list float) : list float :=
  match l with
  | [] => [x]
  | y :: l' => if fleb x y then x :: l else y :: insert_sorted x l'
  end.

Definition np_sort (l : list float) : list float :=
  fold_right insert_sorted [] l.

(** [Series.dropna()] *)
Definition dropna (l : list float) : list float := filter notna l.

(** Linear interpolation between two order statistics. *)
Definition lerp (a b : float) (g : R) : float :=
  fadd a (fmul (fsub b a) (Fin g)).

(** [np.percentile(a, q)] with the default linear method, for an integer
    percentage [q]: the virtual index [(n-1) * q / 100] is split into its
    floor and its fractional part, and the two neighbouring order statistics
    are interpolated.  An empty array has no last element to inspect and
    raises [IndexError]. *)
Definition np_percentile1 (a : list float) (q : Z) : result float :=
  match a with
  | [] => Raise IndexError
  | _ :: _ =>
      let s := np_sort a in
      let k := (q * (Z.of_nat (length a) - 1))%Z in
      let lo := Z.to_nat (k / 100) in
      let hi := Nat.min (S lo) (length a - 1) in
      let g := IZR (k mod 100) / 100 in
      Ok (lerp (nth lo s NaN) (nth hi s NaN) g)
  end.

Definition np_percentile (a : list float) (qs : list Z) : result (list float) :=
  mapM (np_percentile1 a) qs.

(** ** StarRankAssigner: [assign_star_ranks] *)

Module StarRank.

Definition choices : list float := [NaN; Fin 1; Fin 2; Fin 3; Fin 4; Fin 5].

Definition conditions (q1 q2 q3 q4 : float) : list (float -> bool) :=
  [ isna;
    (fun s => fleb s q1);
    (fun s => fleb s q2);
    (fun s => fleb s q3);
    (fun s => fleb s q4) ].

(** The frame is represented by its [final_score] column; the result is the
    [starrank] column. *)
Definition assign_star_ranks (final_score : list float) : result (list float) :=
  quintiles <- np_percentile (dropna final_score) [10; 30; 70; 90; 100]%Z ;;
  match quintiles with
  | [q1; q2; q3; q4; q5] =>
      np_select final_score (conditions q1 q2 q3 q4)
        (map (fun c => fun _ : float => c) (tl choices))
        (fun _ => last choices NaN)
  | _ => Raise ValueError
  end.

End StarRank.

(** ** CutoffCalculator: [calculate_cutoffs] *)

Module Cutoff.

Record row : Type := mkRow {
  starrank : float;
  final_score : float
}.

(** [min] and [max] of a group as pandas aggregates them: missing values are
    skipped, and a group with no value left aggregates to NaN. *)
Definition fmin2 (a b : float) : float := if fltb b a then b else a.
Definition fmax2 (a b : float) : float := if fltb a b then b else a.

Definition agg (f : float -> float -> float) (l : list float) : float :=
  match dropna l with
  | [] => NaN
  | x :: l' => fold_left f l' x
  end.

(** Keys of [groupby]: the distinct non-missing values, in increasing order. *)
Fixpoint uniq (l : list float) : list float :=
  match l with
  | [] => []
  | x :: l' =>
      match l' with
      | [] => [x]
      | y :: _ => if feqb x y then uniq l' else x :: uniq l'
      end
  end.

Definition group_keys (df : list row) : list float :=
  uniq (np_sort (dropna (map starrank df))).

Definition group_scores (df : list row) (k : float) : list float :=
  map final_score (filter (fun r => feqb (starrank r) k) df).

(** One line of [cutoffs]: (starrank, min, max). *)
Definition groupby_min_max (df : list row) : list (float * float * float) :=
  map (fun k => (k, agg fmin2 (group_scores df k), agg fmax2 (group_scores df k)))
      (group_keys df).

(** [cutoffs.loc[i, 'min']] and [cutoffs.loc[i, 'max']] after [reset_index]. *)
Definition loc_min (cutoffs : list (float * float * float)) (i : nat) : result float :=
  match nth_error cutoffs i with
  | Some (_, mn, _) => Ok mn
  | None => Raise KeyError
  end.

Definition loc_max (cutoffs : list (float * float * float)) (i : nat) : result float :=
  match nth_error cutoffs i with
  | Some (_, _, mx) => Ok mx
  | None => Raise KeyError
  end.

Definition boundary (cutoffs : list (float * float * float)) (i : nat) : result float :=
  mx <- loc_max cutoffs i ;;
  mn <- loc_min cutoffs (S i) ;;
  Ok (fdiv (fadd mx mn) (Fin 2)).

Record cutoff_cols : Type := mkCutoffs {
  star_1_cutoff : float;
  star_2_cutoff : float;
  star_3_cutoff : float;
  star_4_cutoff : float
}.

Definition calculate_cutoffs (df : list row) : result cutoff_cols :=
  let cutoffs := groupby_min_max df in
  c1 <- boundary cutoffs 0 ;;
  c2 <- boundary cutoffs 1 ;;
  c3 <- boundary cutoffs 2 ;;
  c4 <- boundary cutoffs 3 ;;
  Ok (mkCutoffs c1 c2 c3 c4).

End Cutoff.

(** ** Moments of a column *)

(** The square root as numpy computes it on the extended line. *)
Definition fsqrt (a : float) : float :=
  match a with
  | Fin x => if Rltb x 0 then NaN else Fin (sqrt x)
  | PInf => PInf
  | NInf | NaN => NaN
  end.

Definition fsquare (a : float) : float := fmul a a.

(** Sum of squared deviations from [m]. *)
Definition sum_sq_dev (l : list float) (m : float) : float :=
  fsum (map (fun x => fsquare (fsub x m)) l).

(** numpy's [ndarray.mean()] and [ndarray.std()] (population formula,
    [ddof = 0]); a NaN entry makes both NaN, an empty array gives [0/0]. *)
Definition np_mean (l : list float) : float :=
  fdiv (fsum l) (of_nat (length l)).

Definition np_std (l : list float) : float :=
  fsqrt (fdiv (sum_sq_dev l (np_mean l)) (of_nat (length l))).

(** pandas' [Series.mean()] and [Series.std()] (sample formula, [ddof = 1]):
    missing values are skipped first; fewer than two values left have no
    sample deviation. *)
Definition pd_mean (l : list float) : float := np_mean (dropna l).

Definition pd_std (l : list float) : float :=
  let v := dropna l in
  if (length v <=? 1)%nat then NaN
  else fsqrt (fdiv (sum_sq_dev v (np_mean v)) (of_nat (length v - 1))).

(** numpy's [ndarray.max()] and [ndarray.min()]: NaN propagates, an empty
    array raises [ValueError]. *)
Definition np_max2 (a b : float) : float :=
  if isna a then a else if isna b then b else if fltb a b then b else a.

Definition np_min2 (a b : float) : float :=
  if isna a then a else if isna b then b else if fltb b a then b else a.

Definition np_max (l : list float) : result float :=
  match l with
  | [] => Raise ValueError
  | x :: l' => Ok (fold_left np_max2 l' x)
  end.

Definition np_min (l : list float) : result float :=
  match l with
  | [] => Raise ValueError
  | x :: l' => Ok (fold_left np_min2 l' x)
  end.

(** ** DomainScoreAggregator: [calculate_domain_scores] *)

Module Domain.

Record row : Type := mkRow {
  n_var1_f : float;
  n_var2_f : float;
  n_var3_f : float;
  n_var4_f : float;
  w_star_var5_f : float;
  w_star_var6_f : float;
  w_star_var7_f : float;
  w_star_var8_f : float;
  n_var9_f : float;
  w_star_var10_f : float
}.

(** [isna().astype(int)]: the missing indicator [m_<var>]. *)
Definition m_ (a : float) : Z := if isna a then 1%Z else 0%Z.

(** [df[cols].sum(axis=1)] over indicator columns. *)
Definition sum_axis1 (l : list Z) : Z := fold_left Z.add l 0%Z.

(** [df[cols].mean(axis=1)]: pandas skips the missing entries of the row. *)
Definition mean_axis1 (l : list float) : float := pd_mean l.

Definition domain_score (k : Z) (cols : list float) : float :=
  np_where (sum_axis1 (map m_ cols) =? k)%Z NaN (mean_axis1 cols).

Definition cols1 (r : row) := [n_var1_f r; n_var2_f r; n_var3_f r; n_var4_f r].
Definition cols2 (r : row) := [w_star_var5_f r; w_star_var6_f r].
Definition cols3 (r : row) := [w_star_var7_f r; w_star_var8_f r].
Definition cols4 (r : row) := [n_var9_f r; w_star_var10_f r].

Definition factor1 (r : row) : float := domain_score 4 (cols1 r).
Definition factor2 (r : row) : float := domain_score 2 (cols2 r).
Definition factor3 (r : row) : float := domain_score 2 (cols3 r).
Definition factor4 (r : row) : float := domain_score 2 (cols4 r).

(** The four new columns, row by row. *)
Definition calculate_domain_scores (df : list row)
  : list (float * float * float * float) :=
  map (fun r => (factor1 r, factor2 r, factor3 r, factor4 r)) df.

End Domain.

(** ** PercentileProbitTransformer: [calculate_percentiles] *)

Module Percentile.

(** [Series.rank(method='average')]: the mean of the positions the value and
    its ties take in sorted order; a missing value keeps a missing rank. *)
Definition count (p : float -> bool) (l : list float) : nat :=
  length (filter p l).

Definition rank_average (col : list float) (x : float) : float :=
  if isna x then NaN
  else Fin (INR (count (fun y => fltb y x) col)
            + (INR (count (fun y => feqb y x) col) + 1) / 2).

(** [astype(int)]: truncation toward zero; NaN and infinities raise. *)
Definition astype_int (a : float) : result Z :=
  match a with
  | Fin x => Ok (if Rleb 0 x then Zfloor x else Zceil x)
  | _ => Raise IntCastingNaNError
  end.

(** [(ranked + 1) / 200 * 100] *)
Definition to_percentile (ranked : Z) : float :=
  fmul (fdiv (of_Z (ranked + 1)) (Fin 200)) (Fin 100).

Section Probit.

(** The quantile function of the standard normal law on the open unit
    interval, as scipy provides it. *)
Variable Phi_inv : R -> R.

(** [norm.ppf]: finite inside (0,1), infinite at the two ends, NaN outside. *)
Definition norm_ppf (a : float) : float :=
  match a with
  | Fin p =>
      if Rltb 0 p && Rltb p 1 then Fin (Phi_inv p)
      else if Reqb p 0 then NInf
      else if Reqb p 1 then PInf
      else NaN
  | _ => NaN
  end.

(** One ratio variable: the columns [p_<var>] and [n_<var>].  On a frame
    without rows [percentiles.apply] has nothing to infer the shape of its
    result from and raises [ValueError]. *)
Definition calculate_percentiles (col : list float)
  : result (list (float * float)) :=
  ranked <- mapM (fun x => astype_int (fsub (rank_average col x) (Fin 1))) col ;;
  let percentiles := map to_percentile ranked in
  match percentiles with
  | [] => Raise ValueError
  | _ :: _ =>
      let probit := map (fun x => norm_ppf (fdiv x (Fin 100))) percentiles in
      Ok (combine percentiles probit)
  end.

End Probit.

End Percentile.

(** ** WinsorizationCalibrator: [winsorize] *)

Module Winsor.

Definition threshold : float := Fin (258 / 100).
Definition step : float := Fin (1 / 1000).

(** The variables the loop reads and writes.  [w_var], [mean_t] and [std_t]
    are assigned in every iteration before they are read. *)
Record state : Type := mkState {
  i : nat;
  t : list float;
  upl : float;
  lol : float;
  w_var : list float;
  mean_t : float;
  std_t : float
}.

(** Line 66: clip one entry to the current limits. *)
Definition clip (u l : float) (x : float) : float :=
  np_where (fgtb x u) u (np_where (fltb x l) l x).

(** Lines 77 to 84, after the extrema are known. *)
Definition converged (max_w min_w : float) : bool :=
  fleb max_w threshold && fgeb min_w (fopp threshold).

Definition adjust_upl (max_w u : float) : float :=
  if fgtb max_w threshold then fsub u step else u.

Definition adjust_lol (min_w l : float) : float :=
  if fltb min_w (fopp threshold) then fadd l step else l.

(** One iteration of the loop body; the boolean tells whether it ended in
    [break]. *)
Definition body (k : nat) (s : state) : result (bool * state) :=
  let t' := map (clip (upl s) (lol s)) (t s) in
  let mean_t' := np_mean t' in
  let std_t' := np_std t' in
  let w_var' := map (fun x => fdiv (fsub x mean_t') std_t') t' in
  max_w <- np_max w_var' ;;
  min_w <- np_min w_var' ;;
  if converged max_w min_w then
    Ok (true, mkState k t' (upl s) (lol s) w_var' mean_t' std_t')
  else
    Ok (false, mkState k t' (adjust_upl max_w (upl s)) (adjust_lol min_w (lol s))
                 w_var' mean_t' std_t').

(** [for i in range(...)] over the listed values of [i]. *)
Fixpoint for_range (ks : list nat) (s : state) : result state :=
  match ks with
  | [] => Ok s
  | k :: rest =>
      r <- body k s ;;
      if fst r then Ok (snd r) else for_range rest (snd r)
  end.

Definition iterations : nat := Z.to_nat 10000.

(** The state on entry to the loop (lines 55 to 61). *)
Definition init (col : list float) : state :=
  let mean_val := pd_mean col in
  let std_val := pd_std col in
  let z := map (fun x => fdiv (fsub x mean_val) std_val) col in
  mkState 0 z threshold (fopp threshold) [] NaN NaN.

Definition run (col : list float) : result state :=
  for_range (seq 1 iterations) (init col).

(** What the method stores for the variable (lines 87 to 91). *)
Record stored : Type := mkStored {
  w_ : list float;
  var_mean_t : float;
  var_std_t : float;
  upl_ : float;
  lol_ : float
}.

Definition winsorize (col : list float) : result stored :=
  s <- run col ;;
  Ok (mkStored (w_var s) (mean_t s) (std_t s) (upl s) (lol s)).

End Winsor.

(** ** CurrentPeriodApplier: [restandardize_var] *)

Module Current.

Record row : Type := mkRow {
  provfs : Z;
  var : float
}.

Record out_row : Type := mkOut {
  o_provfs : Z;
  zc : float;
  tc : float;
  flagtc : Z;
  wc : float
}.

(** Lines 35 to 37: the flag starts at 0, becomes 1 below the lower limit
    for a non-missing value, and is then overwritten by 2 above the upper
    limit. *)
Definition flag_of (tc0 upl_var lol_var : float) : Z :=
  let f0 := 0%Z in
  let f1 := if notna tc0 && fltb tc0 lol_var then 1%Z else f0 in
  if fgtb tc0 upl_var then 2%Z else f1.

(** Lines 40 and 41. *)
Definition truncate (flag : Z) (tc0 upl_var lol_var : float) : float :=
  let tc1 := if (flag =? 1)%Z then lol_var else tc0 in
  if (flag =? 2)%Z then upl_var else tc1.

Definition restandardize_row
    (mean_var std_var upl_var lol_var var_mean_t var_std_t : float)
    (r : row) : out_row :=
  let zc := fdiv (fsub (var r) mean_var) std_var in
  let flag := flag_of zc upl_var lol_var in
  let tc := truncate flag zc upl_var lol_var in
  mkOut (provfs r) zc tc flag (fdiv (fsub tc var_mean_t) var_std_t).

(** [sort_values('provfs')]: a stable sort on the facility identifier. *)
Fixpoint insert_by_provfs (r : out_row) (l : list out_row) : list out_row :=
  match l with
  | [] => [r]
  | r' :: l' =>
      if (o_provfs r <=? o_provfs r')%Z then r :: l
      else r' :: insert_by_provfs r l'
  end.

Definition sort_values_provfs (l : list out_row) : list out_row :=
  fold_right insert_by_provfs [] l.

Definition restandardize_var (df_current : list row)
    (mean_var std_var upl_var lol_var var_mean_t var_std_t : float)
  : list out_row :=
  sort_values_provfs
    (map (restandardize_row mean_var std_var upl_var lol_var var_mean_t var_std_t)
         df_current).

End Current.

(** ** Notions used to state the properties *)

(** A measure value: a real number or missing. *)
Definition finite_or_missing (a : float) : Prop :=
  a = NaN \/ exists x, a = Fin x.

(** The real numbers present in a list of values. *)
Fixpoint present (l : list float) : list R :=
  match l with
  | [] => []
  | Fin x :: l' => x :: present l'
  | _ :: l' => present l'
  end.

Definition Rsum (l : list R) : R := fold_right Rplus 0 l.

Definition all_missing (l : list float) : Prop := Forall (fun a => a = NaN) l.

(** The rule of the specification for one domain score: [score] is missing
    when every constituent in [cols] is missing and is otherwise the mean of
    the constituents present: their sum over their number, the missing ones
    left out of both.  When the constituents are finite or missing the score
    is missing exactly when all of them are. *)
Definition missing_aware_mean (cols : list float) (score : float) : Prop :=
  (all_missing cols -> score = NaN) /\
  (~ all_missing cols ->
     score = fdiv (fsum (dropna cols)) (of_nat (length (dropna cols)))) /\
  (Forall finite_or_missing cols -> (isna score = true <-> all_missing cols)).

(** A population of 200 facilities: 199 share the lowest value of a ratio
    measure and one lies above them. *)
Definition population_200 : list float := repeat (Fin 0) 199 ++ [Fin 1].

(** The five star ranks as column values. *)
Definition star_values : list float := [Fin 1; Fin 2; Fin 3; Fin 4; Fin 5].

(** Every row carries one of the five ranks or a missing rank. *)
Definition valid_ranks (df : list Cutoff.row) : Prop :=
  forall r, In r df ->
    Cutoff.starrank r = NaN \/ In (Cutoff.starrank r) star_values.

(** Some row carries rank [k]. *)
Definition rank_present (df : list Cutoff.row) (k : float) : Prop :=
  exists r, In r df /\ Cutoff.starrank r = k.

(** Smallest and largest composite score among the rows of rank [k]. *)
Definition rank_min (df : list Cutoff.row) (k : float) : float :=
  Cutoff.agg Cutoff.fmin2 (Cutoff.group_scores df k).

Definition rank_max (df : list Cutoff.row) (k : float) : float :=
  Cutoff.agg Cutoff.fmax2 (Cutoff.group_scores df k).

(** The average of two scores. *)
Definition midpoint (a b : float) : float := fdiv (fadd a b) (Fin 2).

Definition fle (a b : float) : Prop := fleb a b = true.
Definition flt (a b : float) : Prop := fltb a b = true.

(** The scenario of the specification: two facilities per star rank, at the
    lowest and the highest composite score of the rank. *)
Definition scenario : list Cutoff.row :=
  [ Cutoff.mkRow (Fin 1) (Fin 10); Cutoff.mkRow (Fin 1) (Fin 20);
    Cutoff.mkRow (Fin 2) (Fin 21); Cutoff.mkRow (Fin 2) (Fin 30);
    Cutoff.mkRow (Fin 3) (Fin 31); Cutoff.mkRow (Fin 3) (Fin 70);
    Cutoff.mkRow (Fin 4) (Fin 71); Cutoff.mkRow (Fin 4) (Fin 90);
    Cutoff.mkRow (Fin 5) (Fin 91); Cutoff.mkRow (Fin 5) (Fin 100) ].

(** The same frame without its five-star facilities. *)
Definition scenario_without_5 : list Cutoff.row := firstn 8 scenario.

(** The convergence bound on a rescaled series: its maximum is at most the
    threshold and its minimum at least minus the threshold. *)
Definition within_bounds (w : list float) : Prop :=
  exists mx mn,
    np_max w = Ok mx /\ np_min w = Ok mn /\
    fle mx Winsor.threshold /\ fle (fopp Winsor.threshold) mn.

(** The working series of a loop state is the initial z-score series [z0]
    clipped once to limits that enclose the current ones. *)
Definition clipped_from (z0 : list float) (s : Winsor.state) : Prop :=
  exists U L,
    Winsor.t s = map (Winsor.clip U L) z0 /\
    fle (Winsor.upl s) U /\ fle L (Winsor.lol s).

(** The state holds the single clip of [z0] to its own limits, and the
    rescaled series of that clip. *)
Definition single_clip (z0 : list float) (s : Winsor.state) : Prop :=
  Winsor.t s = map (Winsor.clip (Winsor.upl s) (Winsor.lol s)) z0 /\
  Winsor.w_var s =
    map (fun x => fdiv (fsub x (Winsor.mean_t s)) (Winsor.std_t s)) (Winsor.t s).

(** ** A population with one low outlier, one high outlier and ties between *)

(** One value, [n] copies of a second, and a third. *)
Definition tri {A} (a : A) (n : nat) (b c : A) : list A :=
  a :: repeat b n ++ [c].

(** Mean and population variance of such a list of reals. *)
Definition tri_mean (a : R) (n : nat) (b c : R) : R :=
  (a + INR n * b + c) / (INR n + 2).

Definition tri_var (a : R) (n : nat) (b c : R) : R :=
  let m := tri_mean a n b c in
  ((a - m) * (a - m) + INR n * ((b - m) * (b - m)) + (c - m) * (c - m))
  / (INR n + 2).

(** The clip of line 66 on reals. *)
Definition clipR (u l x : R) : R :=
  if Rltb u x then u else if Rltb x l then l else x.

(** Raw values of 19 facilities: 17 tied at -65, one far below and one far
    above.  Their mean is 0 and their sample standard deviation is 113723. *)
Definition two_tailed : list float :=
  tri (Fin (-340616)) 17 (Fin (-65)) (Fin 341721).

(** The same population with its facility identifiers 1 to 19. *)
Definition two_tailed_rows : list Current.row :=
  Current.mkRow 1 (Fin (-340616))
  :: map (fun k => Current.mkRow (Z.of_nat k) (Fin (-65))) (seq 2 17)
  ++ [Current.mkRow 19 (Fin 341721)].

(** ** A population with one outlier above a spread bulk *)

(** Raw values of 11 facilities: one at -14, nine tied at 0 and one at 25.
    Their mean is 1 and their sample standard deviation is 9, so the
    z-scores are -5/3, -1/9 and 8/3: only the top facility lies beyond the
    threshold. *)
Definition one_tailed : list float :=
  tri (Fin (-14)) 9 (Fin 0) (Fin 25).

(** The same population with its facility identifiers 1 to 11. *)
Definition one_tailed_rows : list Current.row :=
  Current.mkRow 1 (Fin (-14))
  :: map (fun k => Current.mkRow (Z.of_nat k) (Fin 0)) (seq 2 9)
  ++ [Current.mkRow 11 (Fin 25)].

(** The loop state while the upper limit alone closes in: the top entry
    lies on or beyond the upper limit [u], the others are untouched. *)
Definition upper_closing (u : R) (s : Winsor.state) : Prop :=
  exists c,
    Winsor.t s = tri (Fin (-5/3)) 9 (Fin (-1/9)) (Fin c) /\
    Winsor.upl s = Fin u /\ Winsor.lol s = Fin (-(258/100)) /\ u <= c.

(** Facility and score, side by side. *)
Definition current_scores (out : list Current.out_row) : list (Z * float) :=
  map (fun o => (Current.o_provfs o, Current.wc o)) out.

Definition baseline_scores (rows : list Current.row) (r : Winsor.stored)
  : list (Z * float) :=
  combine (map Current.provfs rows) (Winsor.w_ r).

(** The z-scores of [two_tailed]. *)
Definition low_z : R := -340616 / 113723.
Definition bulk_z : R := -65 / 113723.
Definition high_z : R := 341721 / 113723.

(** The loop state while both limits close in symmetrically on the ties:
    the limits are [u] and [-u] and the two outliers lie on or beyond them. *)
Definition closing_in (u : R) (s : Winsor.state) : Prop :=
  exists a c ul ll,
    Winsor.t s = tri (Fin a) 17 (Fin bulk_z) (Fin c) /\
    Winsor.upl s = Fin ul /\ Winsor.lol s = Fin ll /\
    ul = u /\ ll = - u /\ a <= - u /\ u <= c.

(** A loop state by its series and limits. *)
Definition shape (s : Winsor.state) (a b c u l : R) : Prop :=
  Winsor.t s = tri (Fin a) 17 (Fin b) (Fin c) /\
  Winsor.upl s = Fin u /\ Winsor.lol s = Fin l.

(** The state once every entry equals [y], under the crossed limits. *)
Definition flat (k : nat) (y : R) : Winsor.state :=
  Winsor.mkState k (tri (Fin y) 17 (Fin y) (Fin y)) (Fin (-2/1000)) (Fin 0)
    (tri NaN 17 NaN NaN) (Fin y) (Fin 0).

(** Four facilities, the last without a raw value. *)
Definition with_missing : list float := [Fin 0; Fin 3; Fin 6; NaN].


(** Output rows in increasing order of the facility identifier. *)
Definition by_provfs (a b : Current.out_row) : Prop :=
  (Current.o_provfs a <= Current.o_provfs b)%Z.

(** The rank [assign_star_ranks] gives to one score once the four quantiles
    are known. *)
Definition rank_of (q1 q2 q3 q4 s : float) : float :=
  if isna s then Fin 1
  else if fleb s q1 then Fin 2
  else if fleb s q2 then Fin 3
  else if fleb s q3 then Fin 4
  else Fin 5.

(** The frame [calculate_cutoffs] reads after [assign_star_ranks] has added
    the [starrank] column to the scored frame. *)
Definition ranked_frame (starrank final_score : list float) : list Cutoff.row :=
  map (fun p => Cutoff.mkRow (fst p) (snd p)) (combine starrank final_score).

(** ** Adjusted measures: [calculate_adjusted_measures] (current.py)

    [adj_factor_df] is taken to carry the facility identifier and the five
    adjustment factors; of [fivestar_current_df] the function keeps the
    identifier, the year label and the five current measures. *)

Module Adjust.

Record factor_row : Type := mkFactor {
  f_provfs : Z;
  factor_var1 : float;
  factor_var2 : float;
  factor_var3 : float;
  factor_var4 : float;
  factor_var5 : float
}.

Record current_row : Type := mkCurrent {
  c_provfs : Z;
  yr : String.string;
  star_var1_f_current : float;
  star_var2_f_current : float;
  star_var3_f_current : float;
  star_var4_f_current : float;
  star_var5_f_current : float
}.

(** A row of [merged_df]: the columns of the two inputs and the ten new
    columns. *)
Record merged_row : Type := mkMerged {
  left : factor_row;
  right : current_row;
  adj_var1_f : float;
  adj_var2_f : float;
  adj_var3_f : float;
  adj_var4_f : float;
  adj_var5_f : float;
  raw_var1_f : float;
  raw_var2_f : float;
  raw_var3_f : float;
  raw_var4_f : float;
  raw_var5_f : float
}.

Definition provfs (m : merged_row) : Z := f_provfs (left m).

(** [pd.merge(..., on='provfs', how='inner')]: every pair of a left and a
    right row with the same key, in the order of the left rows. *)
Definition merge_inner (adj_factor_df : list factor_row)
    (fivestar_current_df : list current_row)
  : list (factor_row * current_row) :=
  flat_map
    (fun a => map (fun c => (a, c))
                  (filter (fun c => (c_provfs c =? f_provfs a)%Z)
                          fivestar_current_df))
    adj_factor_df.

(** The ten assignments of lines 95 to 106 on one merged row. *)
Definition adjusted (p : factor_row * current_row) : merged_row :=
  let a := fst p in
  let c := snd p in
  let adj1 := fmul (star_var1_f_current c) (factor_var1 a) in
  let adj2 := fmul (star_var2_f_current c) (factor_var2 a) in
  let adj3 := fmul (star_var3_f_current c) (factor_var3 a) in
  let adj4 := fmul (star_var4_f_current c) (factor_var4 a) in
  let adj5 := fmul (star_var5_f_current c) (factor_var5 a) in
  mkMerged a c adj1 adj2 adj3 adj4 adj5 adj1 adj2 adj3 adj4 adj5.

(** [sort_values('provfs')], as an insertion sort.  pandas does not fix the
    order of rows with equal keys; nothing below depends on it. *)
Fixpoint insert_by_provfs (m : merged_row) (l : list merged_row)
  : list merged_row :=
  match l with
  | [] => [m]
  | m' :: l' =>
      if (provfs m <=? provfs m')%Z then m :: l
      else m' :: insert_by_provfs m l'
  end.

Definition sort_values_provfs (l : list merged_row) : list merged_row :=
  fold_right insert_by_provfs [] l.

Definition calculate_adjusted_measures (adj_factor_df : list factor_row)
    (fivestar_current_df : list current_row) : list merged_row :=
  sort_values_provfs (map adjusted (merge_inner adj_factor_df fivestar_current_df)).

End Adjust.

(** Merged rows in increasing order of the facility identifier. *)
Definition merged_by_provfs (a b : Adjust.merged_row) : Prop :=
  (Adjust.provfs a <= Adjust.provfs b)%Z.

(** ** Frames with named columns

    The frame a [StarRatingCalculator] works on: its number of rows, the
    numeric columns by name in column order, the integer flag [pdflag] and
    the label [yr] when the frame has them.  Every column of a well-formed
    frame has [nrows] entries. *)

Module Frame.

Import Strings.String.

Record t : Type := mk {
  nrows : nat;
  columns : list (String.string * list float);
  pdflag : option (list Z);
  yr : option (list String.string)
}.

Fixpoint lookup (name : String.string) (cols : list (String.string * list float))
  : option (list float) :=
  match cols with
  | [] => None
  | (n, c) :: cols' => if String.eqb n name then Some c else lookup name cols'
  end.

(** [df[name]]: an absent label raises [KeyError]. *)
Definition getitem (df : t) (name : String.string) : result (list float) :=
  match lookup name (columns df) with
  | Some c => Ok c
  | None => Raise KeyError
  end.

Definition get_pdflag (df : t) : result (list Z) :=
  match pdflag df with
  | Some c => Ok c
  | None => Raise KeyError
  end.

Fixpoint assign (name : String.string) (c : list float)
    (cols : list (String.string * list float)) : list (String.string * list float) :=
  match cols with
  | [] => [(name, c)]
  | (n, c') :: cols' =>
      if String.eqb n name then (n, c) :: cols' else (n, c') :: assign name c cols'
  end.

(** [df[name] = c]: an existing column is replaced in place, a new one is
    appended. *)
Definition setitem (df : t) (name : String.string) (c : list float) : t :=
  mk (nrows df) (assign name c (columns df)) (pdflag df) (yr df).

(** [df[name] = v] for a scalar [v]. *)
Definition setitem_scalar (df : t) (name : String.string) (v : float) : t :=
  setitem df name (repeat v (nrows df)).

(** [df['yr'] = label]: the column [yr] now holds the label in every row; a
    numeric column of that name is replaced by it. *)
Definition set_yr (df : t) (label : String.string) : t :=
  mk (nrows df)
     (filter (fun p => negb (String.eqb (fst p) "yr")) (columns df))
     (pdflag df) (Some (repeat label (nrows df))).

(** Entry [i] of a column. *)
Definition at_ (c : list float) (i : nat) : float := nth i c NaN.

Definition wf (df : t) : Prop :=
  forall name c, lookup name (columns df) = Some c -> List.length c = nrows df.

End Frame.

Fixpoint foldM {A B} (f : B -> A -> result B) (l : list A) (b : B) : result B :=
  match l with
  | [] => Ok b
  | a :: l' => b' <- f b a ;; foldM f l' b'
  end.

(** ** [StarRatingCalculator] on a frame *)

Module Calculator.

Import Strings.String.

(** [df[name] = g(df[name])] *)
Definition update (df : Frame.t) (name : String.string) (g : float -> float)
  : result Frame.t :=
  c <- Frame.getitem df name ;;
  Ok (Frame.setitem df name (map g c)).

(** The measures [preprocess_measures] realigns. *)
Definition realigned_vars : list String.string :=
  [ "star_var3_f"; "star_var4_f"; "star_var6_f"; "star_var7_f";
    "star_var8_f"; "star_var9_f" ]%string.

Definition preprocess_measures (df : Frame.t) : result Frame.t :=
  df <- update df "star_var3_f"%string (fun x => fsub (Fin 100) x) ;;
  df <- update df "star_var4_f"%string (fun x => fsub (Fin 100) x) ;;
  df <- update df "star_var6_f"%string (fun x => fmul (Fin (-1)) x) ;;
  df <- update df "star_var7_f"%string (fun x => fmul (Fin (-1)) x) ;;
  df <- update df "star_var8_f"%string (fun x => fmul (Fin (-1)) x) ;;
  df <- update df "star_var9_f"%string (fun x => fmul (Fin (-1)) x) ;;
  Ok (Frame.set_yr df "baseline"%string).

Section Probit.

Variable Phi_inv : R -> R.

(** Lines 47 to 49: the two new columns of one ratio variable. *)
Definition add_percentiles (df : Frame.t)
    (vo : String.string * list (float * float)) : Frame.t :=
  Frame.setitem
    (Frame.setitem df (String.append "p_" (fst vo)) (map fst (snd vo)))
    (String.append "n_" (fst vo)) (map snd (snd vo)).

Definition calculate_percentiles (df : Frame.t) (ratio_vars : list String.string)
  : result Frame.t :=
  cols <- mapM (Frame.getitem df) ratio_vars ;;
  outs <- mapM (Percentile.calculate_percentiles Phi_inv) cols ;;
  Ok (fold_left add_percentiles (combine ratio_vars outs) df).

Definition winsorize (df : Frame.t) (var : String.string) : result Frame.t :=
  col <- Frame.getitem df var ;;
  r <- Winsor.winsorize col ;;
  let df := Frame.setitem df (String.append "w_" var) (Winsor.w_ r) in
  let df := Frame.setitem_scalar df (String.append var "_mean_t") (Winsor.var_mean_t r) in
  let df := Frame.setitem_scalar df (String.append var "_std_t") (Winsor.var_std_t r) in
  let df := Frame.setitem_scalar df (String.append "upl_" var) (Winsor.upl_ r) in
  let df := Frame.setitem_scalar df (String.append "lol_" var) (Winsor.lol_ r) in
  Ok df.

(** Lines 98 to 102: the missing indicator of one variable. *)
Definition add_indicator (df : Frame.t) (var : String.string) : result Frame.t :=
  c <- Frame.getitem df var ;;
  Ok (Frame.setitem df (String.append "m_" var)
        (map (fun x => of_Z (Domain.m_ x)) c)).

Definition indicator_vars : list String.string :=
  [ "n_var1_f"; "n_var2_f"; "n_var3_f"; "n_var4_f";
    "w_star_var5_f"; "w_star_var6_f"; "w_star_var7_f"; "w_star_var8_f";
    "n_var9_f"; "w_star_var10_f" ]%string.

(** After the two loops every variable is known to be present, and the four
    assignments write to names other than the ten variables, so the columns
    are read once, before the first assignment. *)
Definition calculate_domain_scores (df : Frame.t) : result Frame.t :=
  df <- foldM add_indicator indicator_vars df ;;
  c1 <- Frame.getitem df "n_var1_f"%string ;;
  c2 <- Frame.getitem df "n_var2_f"%string ;;
  c3 <- Frame.getitem df "n_var3_f"%string ;;
  c4 <- Frame.getitem df "n_var4_f"%string ;;
  c5 <- Frame.getitem df "w_star_var5_f"%string ;;
  c6 <- Frame.getitem df "w_star_var6_f"%string ;;
  c7 <- Frame.getitem df "w_star_var7_f"%string ;;
  c8 <- Frame.getitem df "w_star_var8_f"%string ;;
  c9 <- Frame.getitem df "n_var9_f"%string ;;
  c10 <- Frame.getitem df "w_star_var10_f"%string ;;
  let rows :=
    map (fun i => Domain.mkRow (Frame.at_ c1 i) (Frame.at_ c2 i) (Frame.at_ c3 i)
                    (Frame.at_ c4 i) (Frame.at_ c5 i) (Frame.at_ c6 i)
                    (Frame.at_ c7 i) (Frame.at_ c8 i) (Frame.at_ c9 i)
                    (Frame.at_ c10 i))
        (seq 0 (Frame.nrows df)) in
  let df := Frame.setitem df "factor1"%string (map Domain.factor1 rows) in
  let df := Frame.setitem df "factor2"%string (map Domain.factor2 rows) in
  let df := Frame.setitem df "factor3"%string (map Domain.factor3 rows) in
  let df := Frame.setitem df "factor4"%string (map Domain.factor4 rows) in
  Ok df.

Definition calculate_final_score (df : Frame.t) : result Frame.t :=
  f1 <- Frame.getitem df "factor1"%string ;;
  f3 <- Frame.getitem df "factor3"%string ;;
  f4 <- Frame.getitem df "factor4"%string ;;
  pd <- Frame.get_pdflag df ;;
  f2 <- Frame.getitem df "factor2"%string ;;
  let rows :=
    map (fun i => Composite.mkRow (Frame.at_ f1 i) (Frame.at_ f2 i)
                    (Frame.at_ f3 i) (Frame.at_ f4 i) (nth i pd 0%Z))
        (seq 0 (Frame.nrows df)) in
  final_score <- Composite.calculate_final_score rows ;;
  Ok (Frame.setitem df "final_score"%string final_score).

Definition assign_star_ranks (df : Frame.t) : result Frame.t :=
  final_score <- Frame.getitem df "final_score"%string ;;
  starrank <- StarRank.assign_star_ranks final_score ;;
  Ok (Frame.setitem df "starrank"%string starrank).

Definition calculate_cutoffs (df : Frame.t) : result Frame.t :=
  starrank <- Frame.getitem df "starrank"%string ;;
  final_score <- Frame.getitem df "final_score"%string ;;
  c <- Cutoff.calculate_cutoffs (ranked_frame starrank final_score) ;;
  let df := Frame.setitem_scalar df "star_1_cutoff"%string (Cutoff.star_1_cutoff c) in
  let df := Frame.setitem_scalar df "star_2_cutoff"%string (Cutoff.star_2_cutoff c) in
  let df := Frame.setitem_scalar df "star_3_cutoff"%string (Cutoff.star_3_cutoff c) in
  let df := Frame.setitem_scalar df "star_4_cutoff"%string (Cutoff.star_4_cutoff c) in
  Ok df.

Definition ratio_vars : list String.string :=
  [ "star_var6_f"; "star_var7_f"; "star_var8_f"; "star_var9_f";
    "star_var10_f" ]%string.

Definition percentage_vars : list String.string :=
  [ "star_var1_f"; "star_var2_f"; "star_var3_f"; "star_var4_f";
    "star_var5_f" ]%string.

(** The columns [calculate_percentiles] and [winsorize] add for these
    variables, and all the columns the steps before the domain scores
    assign to. *)
Definition percentile_cols : list String.string :=
  flat_map (fun v => [String.append "p_" v; String.append "n_" v]) ratio_vars.

Definition winsor_cols : list String.string :=
  flat_map (fun v => [String.append "w_" v;
                      String.append v "_mean_t"; String.append v "_std_t";
                      String.append "upl_" v; String.append "lol_" v])
           percentage_vars.

Definition written_vars : list String.string :=
  realigned_vars ++ percentile_cols ++ winsor_cols.

(** All the columns these steps assign to: the numeric ones and the label
    [yr]. *)
Definition assigned_vars : list String.string :=
  "yr"%string :: written_vars.

(** A frame that holds the ten measures and nothing else, every measure
    with the same values. *)
Definition measures_only (col : list float) : Frame.t :=
  Frame.mk (List.length col)
           (map (fun v => (v, col)) (ratio_vars ++ percentage_vars))
           None None.

(** Lines 190 to 195 of [process]: the steps before the domain scores. *)
Definition transform_measures (df : Frame.t) : result Frame.t :=
  df <- preprocess_measures df ;;
  df <- calculate_percentiles df ratio_vars ;;
  foldM winsorize percentage_vars df.

Definition process (df : Frame.t) : result Frame.t :=
  df <- transform_measures df ;;
  df <- calculate_domain_scores df ;;
  df <- calculate_final_score df ;;
  df <- assign_star_ranks df ;;
  calculate_cutoffs df.

End Probit.

End Calculator.

(** [d'] has the rows and the flag of [d], and reads like [d] outside the
    names of [l]. *)
Definition same_outside (l : list String.string) (d d' : Frame.t) : Prop :=
  Frame.nrows d' = Frame.nrows d /\ Frame.pdflag d' = Frame.pdflag d /\
  forall v, ~ In v l -> Frame.getitem d' v = Frame.getitem d v.
(** * Properties *)

(** ** Deciding comparisons of reals *)

Lemma Rltb_true x y : x < y -> Rltb x y = true.
Proof. intros H; unfold Rltb; destruct (Rlt_dec x y); [reflexivity | contradiction]. Qed.

Lemma Rltb_false x y : ~ x < y -> Rltb x y = false.
Proof. intros H; unfold Rltb; destruct (Rlt_dec x y); [contradiction | reflexivity]. Qed.

Lemma Rleb_true x y : x <= y -> Rleb x y = true.
Proof. intros H; unfold Rleb; destruct (Rle_dec x y); [reflexivity | contradiction]. Qed.

Lemma Rleb_false x y : ~ x <= y -> Rleb x y = false.
Proof. intros H; unfold Rleb; destruct (Rle_dec x y); [contradiction | reflexivity]. Qed.

Lemma Reqb_true x y : x = y -> Reqb x y = true.
Proof. intros H; unfold Reqb; destruct (Req_dec_T x y); [reflexivity | contradiction]. Qed.

Lemma Reqb_false x y : x <> y -> Reqb x y = false.
Proof. intros H; unfold Reqb; destruct (Req_dec_T x y); [contradiction | reflexivity]. Qed.

Lemma Rltb_spec x y : reflect (x < y) (Rltb x y).
Proof. unfold Rltb; destruct (Rlt_dec x y); constructor; assumption. Qed.

Lemma Rleb_spec x y : reflect (x <= y) (Rleb x y).
Proof. unfold Rleb; destruct (Rle_dec x y); constructor; assumption. Qed.

Lemma Reqb_spec x y : reflect (x = y) (Reqb x y).
Proof. unfold Reqb; destruct (Req_dec_T x y); constructor; assumption. Qed.

(** Settle the comparisons between closed real expressions in the goal. *)
Ltac Rcmp :=
  repeat match goal with
  | |- context [Rltb ?a ?b] =>
      first [ rewrite (Rltb_true a b) by lra | rewrite (Rltb_false a b) by lra ]
  | |- context [Rleb ?a ?b] =>
      first [ rewrite (Rleb_true a b) by lra | rewrite (Rleb_false a b) by lra ]
  | |- context [Reqb ?a ?b] =>
      first [ rewrite (Reqb_true a b) by lra | rewrite (Reqb_false a b) by lra ]
  end.

Lemma fdiv_Fin (x y : R) : y <> 0 -> fdiv (Fin x) (Fin y) = Fin (x / y).
Proof. intros H. cbn. now rewrite Reqb_false. Qed.

Lemma fsub_Fin (x y : R) : fsub (Fin x) (Fin y) = Fin (x - y).
Proof. reflexivity. Qed.

(** ** CompositeScorer *)

(** The row-level selection that [calculate_final_score] hands to
    [np.select]: the four conditions are paired with the first four choices
    and the fifth choice is the default. *)
Lemma composite_select_row (r : Composite.row) :
  select_row Composite.conditions Composite.choices Composite.last_choice r =
  if isna (Composite.factor1 r) || isna (Composite.factor3 r)
     || isna (Composite.factor4 r)
     || ((Composite.pdflag r =? 0)%Z && isna (Composite.factor2 r))
  then NaN
  else if (Composite.pdflag r =? 1)%Z then Composite.weighted_pd r
  else Composite.weighted_all r.
Proof.
  cbn. unfold Composite.computed, np_where.
  destruct (isna (Composite.factor1 r)); cbn; [reflexivity|].
  destruct (isna (Composite.factor3 r)); cbn; [reflexivity|].
  destruct (isna (Composite.factor4 r)); cbn; [reflexivity|].
  destruct ((Composite.pdflag r =? 0)%Z && isna (Composite.factor2 r)); reflexivity.
Qed.

(** C2. [calculate_final_score] passes four conditions and five choices to
    [np.select], whose length check rejects them: for every frame the call
    raises [ValueError] and no composite score is produced. *)
Theorem calculate_final_score_raises (df : list Composite.row) :
  Composite.calculate_final_score df = Raise ValueError.
Proof. reflexivity. Qed.

(** ** StarRankAssigner *)

(** What [np.select] computes for one row once the quantiles are known: the
    five conditions are paired with the choices 1 to 5. *)
Lemma star_rank_select_row (q1 q2 q3 q4 s : float) :
  select_row (StarRank.conditions q1 q2 q3 q4)
    (map (fun c => fun _ : float => c) (tl StarRank.choices))
    (fun _ => last StarRank.choices NaN) s =
  if isna s then Fin 1
  else if fleb s q1 then Fin 2
  else if fleb s q2 then Fin 3
  else if fleb s q3 then Fin 4
  else Fin 5.
Proof.
  cbn. destruct (isna s); [reflexivity|].
  destruct (fleb s q1); [reflexivity|].
  destruct (fleb s q2); [reflexivity|].
  destruct (fleb s q3); [reflexivity|].
  destruct (fleb s q4); reflexivity.
Qed.

(** The ranks of a whole frame, given its quantiles: a missing score gets
    rank 1 and every scored facility one rank more than its bucket (5 at
    most). *)
Lemma assign_star_ranks_rows (final_score : list float) (q1 q2 q3 q4 q5 : float) :
  np_percentile (dropna final_score) [10; 30; 70; 90; 100]%Z
    = Ok [q1; q2; q3; q4; q5] ->
  StarRank.assign_star_ranks final_score =
  Ok (map (fun s => if isna s then Fin 1
                    else if fleb s q1 then Fin 2
                    else if fleb s q2 then Fin 3
                    else if fleb s q3 then Fin 4
                    else Fin 5) final_score).
Proof.
  intros H. unfold StarRank.assign_star_ranks. rewrite H. cbn [bind].
  unfold np_select. cbn [length Nat.eqb negb StarRank.conditions
                         StarRank.choices tl map].
  f_equal. apply map_ext. intros s. apply star_rank_select_row.
Qed.

(** C1. On the frame whose composite scores are [5] and a missing value,
    every quantile is 5; the facility scoring 5 (at the 10th-percentile value)
    is given rank 2 and the facility without a score is given rank 1. *)
Theorem assign_star_ranks_shifted :
  StarRank.assign_star_ranks [Fin 5; NaN] = Ok [Fin 2; Fin 1].
Proof.
  unfold StarRank.assign_star_ranks. cbn.
  unfold lerp. cbn. Rcmp. reflexivity.
Qed.

(** ** Sums and means of columns *)

Lemma fsum_acc_Fin (xs : list R) (a : R) :
  fold_left fadd (map Fin xs) (Fin a) = Fin (a + Rsum xs).
Proof.
  revert a; induction xs as [|x xs IH]; intros a; cbn.
  - f_equal; lra.
  - rewrite IH. f_equal. unfold Rsum; cbn. lra.
Qed.

Lemma fsum_Fin (xs : list R) : fsum (map Fin xs) = Fin (Rsum xs).
Proof. unfold fsum. rewrite fsum_acc_Fin. f_equal; lra. Qed.

Lemma dropna_finite_or_missing (l : list float) :
  Forall finite_or_missing l -> dropna l = map Fin (present l).
Proof.
  unfold dropna.
  induction 1 as [|a l [->|[x ->]] _ IH]; cbn; [reflexivity|exact IH|].
  now rewrite IH.
Qed.

Lemma present_nil_all_missing (l : list float) :
  Forall finite_or_missing l -> present l = [] -> all_missing l.
Proof.
  induction 1 as [|a l [->|[x ->]] _ IH]; cbn; intros E.
  - constructor.
  - constructor; [reflexivity | exact (IH E)].
  - discriminate.
Qed.

Lemma INR_S_neq_0 (n : nat) : INR (S n) <> 0.
Proof. apply not_0_INR; discriminate. Qed.

Lemma np_mean_Fin (xs : list R) :
  xs <> [] -> np_mean (map Fin xs) = Fin (Rsum xs / INR (length xs)).
Proof.
  intros Hne. unfold np_mean, of_nat. rewrite fsum_Fin, length_map. cbn.
  destruct xs as [|x xs]; [congruence|].
  rewrite Reqb_false by apply INR_S_neq_0. reflexivity.
Qed.

(** ** DomainScoreAggregator *)

Lemma sum_axis1_acc (l : list float) (a : Z) :
  fold_left Z.add (map Domain.m_ l) a = (a + Z.of_nat (length (filter isna l)))%Z.
Proof.
  revert a; induction l as [|x l IH]; intros a; cbn; [lia|].
  rewrite IH. unfold Domain.m_. destruct (isna x); cbn [length]; lia.
Qed.

Lemma filter_isna_all (l : list float) :
  length (filter isna l) = length l -> all_missing l.
Proof.
  induction l as [|a l IH]; cbn; intros E; [constructor|].
  pose proof (filter_length_le isna l) as Hle.
  destruct a; cbn in E; try lia.
  constructor; [reflexivity | apply IH; lia].
Qed.

Lemma all_missing_filter (l : list float) :
  all_missing l -> length (filter isna l) = length l.
Proof. induction 1 as [|a l -> _ IH]; cbn; [reflexivity | now rewrite IH]. Qed.

Lemma all_missing_dec (l : list float) : {all_missing l} + {~ all_missing l}.
Proof.
  apply Forall_dec. intros [x| | |]; (now left) || (right; discriminate).
Qed.

Lemma domain_score_rule (cols : list float) :
  missing_aware_mean cols (Domain.domain_score (Z.of_nat (length cols)) cols).
Proof.
  assert (Hall : all_missing cols ->
                 Domain.domain_score (Z.of_nat (length cols)) cols = NaN).
  { intros H. unfold Domain.domain_score, Domain.sum_axis1, np_where.
    rewrite sum_axis1_acc, Z.add_0_l.
    rewrite (all_missing_filter _ H), Z.eqb_refl. reflexivity. }
  assert (Hsome : ~ all_missing cols ->
                  Domain.domain_score (Z.of_nat (length cols)) cols =
                  np_mean (dropna cols)).
  { intros H. unfold Domain.domain_score, Domain.sum_axis1, np_where.
    rewrite sum_axis1_acc, Z.add_0_l.
    destruct (Z.eqb_spec (Z.of_nat (length (filter isna cols)))
                         (Z.of_nat (length cols))) as [E|_];
      [|reflexivity].
    exfalso. apply H, filter_isna_all. lia. }
  assert (Hfin : Forall finite_or_missing cols -> ~ all_missing cols ->
                 Domain.domain_score (Z.of_nat (length cols)) cols =
                 Fin (Rsum (present cols) / INR (length (present cols)))).
  { intros Hfm H. rewrite (Hsome H), (dropna_finite_or_missing _ Hfm).
    apply np_mean_Fin. intros E. apply H. now apply present_nil_all_missing. }
  split; [exact Hall|]. split; [exact Hsome|].
  intros Hfm. split.
  - intros Hna. destruct (all_missing_dec cols) as [Y|N]; [exact Y|].
    rewrite (Hfin Hfm N) in Hna. discriminate.
  - intros H. now rewrite (Hall H).
Qed.

(** C8 (as amended). [calculate_domain_scores] gives every facility of the
    frame its four domain scores, and each of them follows the rule
    [missing_aware_mean] on the constituents of its domain: missing when all
    constituents are missing, otherwise the mean of the constituents
    present; for finite constituents the score is missing exactly when all
    of them are. *)
Theorem domain_scores_missing_aware (df : list Domain.row) (i : nat)
    (r : Domain.row) :
  nth_error df i = Some r ->
  length (Domain.calculate_domain_scores df) = length df /\
  exists f1 f2 f3 f4,
    nth_error (Domain.calculate_domain_scores df) i = Some (f1, f2, f3, f4) /\
    missing_aware_mean (Domain.cols1 r) f1 /\
    missing_aware_mean (Domain.cols2 r) f2 /\
    missing_aware_mean (Domain.cols3 r) f3 /\
    missing_aware_mean (Domain.cols4 r) f4.
Proof.
  intros Hi. unfold Domain.calculate_domain_scores.
  split; [apply length_map|].
  exists (Domain.factor1 r), (Domain.factor2 r), (Domain.factor3 r),
    (Domain.factor4 r).
  split; [rewrite nth_error_map, Hi; reflexivity|].
  split; [exact (domain_score_rule (Domain.cols1 r))|].
  split; [exact (domain_score_rule (Domain.cols2 r))|].
  split; [exact (domain_score_rule (Domain.cols3 r))|].
  exact (domain_score_rule (Domain.cols4 r)).
Qed.

Lemma domain_scores_missing_aware_witness :
  let r := Domain.mkRow (Fin 1) NaN (Fin 3) NaN NaN NaN NaN PInf NaN (Fin 2) in
  let df := [Domain.mkRow NaN NaN NaN NaN NaN NaN NaN NaN NaN NaN; r] in
  length (Domain.calculate_domain_scores df) = length df /\
  exists f1 f2 f3 f4,
    nth_error (Domain.calculate_domain_scores df) 1 = Some (f1, f2, f3, f4) /\
    missing_aware_mean (Domain.cols1 r) f1 /\
    missing_aware_mean (Domain.cols2 r) f2 /\
    missing_aware_mean (Domain.cols3 r) f3 /\
    missing_aware_mean (Domain.cols4 r) f4.
Proof.
  intros r df. apply (domain_scores_missing_aware df 1 r). reflexivity.
Defined.

(** C8, the claim as stated fails: a facility whose two constituents of
    domain 2 are plus infinity and minus infinity has no missing
    constituent, yet their mean, and so the domain score, is missing. *)
Lemma domain_score_opposite_infinities :
  let r := Domain.mkRow (Fin 0) (Fin 0) (Fin 0) (Fin 0) PInf NInf
             (Fin 0) (Fin 0) (Fin 0) (Fin 0) in
  (forall x, In x (Domain.cols2 r) -> isna x = false) /\
  ~ all_missing (Domain.cols2 r) /\
  exists f1 f3 f4,
    Domain.calculate_domain_scores [r] = [(f1, NaN, f3, f4)].
Proof.
  intros r. split; [|split].
  - intros x [<-|[<-|[]]]; reflexivity.
  - intros H. inversion H as [|? ? E _]. discriminate.
  - exists (Domain.factor1 r), (Domain.factor3 r), (Domain.factor4 r).
    unfold Domain.calculate_domain_scores. cbn [map].
    assert (E : Domain.factor2 r = NaN) by reflexivity.
    now rewrite E.
Qed.

(** ** CurrentPeriodApplier *)

Lemma insert_by_provfs_In (o x : Current.out_row) (l : list Current.out_row) :
  In o (Current.insert_by_provfs x l) <-> o = x \/ In o l.
Proof.
  induction l as [|y l IH]; cbn.
  - intuition congruence.
  - destruct (Current.o_provfs x <=? Current.o_provfs y)%Z; cbn.
    + intuition congruence.
    + rewrite IH. intuition congruence.
Qed.

Lemma sort_values_provfs_In (o : Current.out_row) (l : list Current.out_row) :
  In o (Current.sort_values_provfs l) <-> In o l.
Proof.
  induction l as [|x l IH]; cbn; [tauto|].
  rewrite insert_by_provfs_In, IH. intuition congruence.
Qed.

Lemma restandardize_row_missing
    (mean_var std_var upl_var lol_var var_mean_t var_std_t : float)
    (r : Current.row) :
  Current.var r = NaN ->
  Current.restandardize_row mean_var std_var upl_var lol_var var_mean_t var_std_t r
  = Current.mkOut (Current.provfs r) NaN NaN 0 NaN.
Proof.
  intros E. unfold Current.restandardize_row. rewrite E. cbn.
  unfold Current.flag_of, fgtb. cbn.
  replace (fltb upl_var NaN) with false by (destruct upl_var; reflexivity).
  reflexivity.
Qed.

(** C10. A row whose raw value is missing comes out of [restandardize_var]
    with a missing z-score, a missing truncated value, truncation flag 0 and
    a missing re-standardized score, whatever the frozen parameters are. *)
Theorem restandardize_var_missing_row
    (df_current : list Current.row)
    (mean_var std_var upl_var lol_var var_mean_t var_std_t : float)
    (r : Current.row) :
  In r df_current ->
  Current.var r = NaN ->
  In (Current.mkOut (Current.provfs r) NaN NaN 0 NaN)
     (Current.restandardize_var df_current
        mean_var std_var upl_var lol_var var_mean_t var_std_t).
Proof.
  intros Hin E. unfold Current.restandardize_var.
  apply sort_values_provfs_In.
  rewrite <- (restandardize_row_missing mean_var std_var upl_var lol_var
                var_mean_t var_std_t r E).
  now apply in_map.
Qed.

Lemma restandardize_var_missing_row_witness :
  In (Current.mkOut 7 NaN NaN 0 NaN)
     (Current.restandardize_var
        [Current.mkRow 9 (Fin 4); Current.mkRow 7 NaN]
        (Fin 3) (Fin 2) (Fin (258/100)) (Fin (-258/100)) (Fin 0) (Fin 1)).
Proof.
  apply (restandardize_var_missing_row
           [Current.mkRow 9 (Fin 4); Current.mkRow 7 NaN]
           (Fin 3) (Fin 2) (Fin (258/100)) (Fin (-258/100)) (Fin 0) (Fin 1)
           (Current.mkRow 7 NaN)).
  - right; left; reflexivity.
  - reflexivity.
Defined.

(** ** PercentileProbitTransformer *)

Lemma mapM_app {A B} (f : A -> result B) (l1 l2 : list A) (r1 r2 : list B) :
  mapM f l1 = Ok r1 -> mapM f l2 = Ok r2 -> mapM f (l1 ++ l2) = Ok (r1 ++ r2).
Proof.
  revert r1; induction l1 as [|a l1 IH]; intros r1 H1 H2; cbn in *.
  - inversion H1; subst. exact H2.
  - destruct (f a) as [b|e]; cbn in *; [|discriminate].
    destruct (mapM f l1) as [bs|e]; cbn in *; [|discriminate].
    inversion H1; subst. rewrite (IH bs eq_refl H2). reflexivity.
Qed.

Lemma mapM_repeat {A B} (f : A -> result B) (a : A) (b : B) (n : nat) :
  f a = Ok b -> mapM f (repeat a n) = Ok (repeat b n).
Proof.
  intros H. induction n as [|n IH]; cbn; [reflexivity|].
  rewrite H; cbn. rewrite IH; reflexivity.
Qed.

Lemma map_repeat' {A B} (f : A -> B) (a : A) (n : nat) :
  map f (repeat a n) = repeat (f a) n.
Proof. induction n as [|n IH]; cbn; [reflexivity | now rewrite IH]. Qed.

Lemma combine_repeat_snoc {A B} (a a' : A) (b b' : B) (n : nat) :
  combine (repeat a n ++ [a']) (repeat b n ++ [b']) = repeat (a, b) n ++ [(a', b')].
Proof. induction n as [|n IH]; cbn; [reflexivity | now rewrite IH]. Qed.

Lemma count_app (p : float -> bool) (l1 l2 : list float) :
  Percentile.count p (l1 ++ l2) = (Percentile.count p l1 + Percentile.count p l2)%nat.
Proof. unfold Percentile.count. now rewrite filter_app, length_app. Qed.

Lemma count_repeat (p : float -> bool) (a : float) (n : nat) :
  Percentile.count p (repeat a n) = if p a then n else 0%nat.
Proof.
  unfold Percentile.count.
  induction n as [|n IH]; cbn; [now destruct (p a)|].
  destruct (p a); cbn; [now rewrite IH | exact IH].
Qed.

Lemma ranked_low : 
  Percentile.astype_int
    (fsub (Percentile.rank_average population_200 (Fin 0)) (Fin 1)) = Ok 99%Z.
Proof.
  unfold Percentile.rank_average, population_200. cbn [isna].
  rewrite !count_app, !count_repeat.
  unfold Percentile.count. cbn [filter fltb feqb]. Rcmp.
  cbn [length Nat.add]. rewrite ?Nat.add_0_r.
  rewrite !INR_IZR_INZ.
  repeat match goal with
  | |- context [Z.of_nat ?n] =>
      let z := eval vm_compute in (Z.of_nat n) in change (Z.of_nat n) with z
  end.
  cbn [fsub fopp fadd Percentile.astype_int].
  rewrite Rleb_true by lra. f_equal. apply Zfloor_eq. lra.
Qed.

Lemma ranked_top :
  Percentile.astype_int
    (fsub (Percentile.rank_average population_200 (Fin 1)) (Fin 1)) = Ok 199%Z.
Proof.
  unfold Percentile.rank_average, population_200. cbn [isna].
  rewrite !count_app, !count_repeat.
  unfold Percentile.count. cbn [filter fltb feqb]. Rcmp.
  cbn [length Nat.add]. rewrite ?Nat.add_0_r.
  rewrite !INR_IZR_INZ.
  repeat match goal with
  | |- context [Z.of_nat ?n] =>
      let z := eval vm_compute in (Z.of_nat n) in change (Z.of_nat n) with z
  end.
  cbn [fsub fopp fadd Percentile.astype_int].
  rewrite Rleb_true by lra. f_equal. apply Zfloor_eq. lra.
Qed.

Lemma to_percentile_val (k : Z) :
  Percentile.to_percentile k = Fin (IZR (k + 1) / 200 * 100).
Proof.
  unfold Percentile.to_percentile, of_Z. cbn [fdiv fmul]. Rcmp. reflexivity.
Qed.

Lemma calculate_percentiles_ok (Phi_inv : R -> R) (col : list float)
    (ranked : list Z) :
  mapM (fun x => Percentile.astype_int
                   (fsub (Percentile.rank_average col x) (Fin 1))) col = Ok ranked ->
  ranked <> [] ->
  Percentile.calculate_percentiles Phi_inv col =
  Ok (combine (map Percentile.to_percentile ranked)
        (map (fun x => Percentile.norm_ppf Phi_inv (fdiv x (Fin 100)))
             (map Percentile.to_percentile ranked))).
Proof.
  intros H Hne. unfold Percentile.calculate_percentiles. rewrite H. cbn [bind].
  destruct ranked as [|k ranked]; [congruence | reflexivity].
Qed.

(** C6. In a population of 200 facilities the facility with the largest
    value has average rank 200 and rank index 199, so its percentile is
    exactly 100 and its probit score is plus infinity. *)
Theorem calculate_percentiles_reaches_100 (Phi_inv : R -> R) :
  Percentile.calculate_percentiles Phi_inv population_200 =
  Ok (repeat (Fin 50, Fin (Phi_inv (1/2))) 199 ++ [(Fin 100, PInf)]).
Proof.
  rewrite (calculate_percentiles_ok Phi_inv population_200
             (repeat 99%Z 199 ++ [199%Z])).
  - rewrite !map_app, !map_repeat'. cbn [map].
    rewrite combine_repeat_snoc. f_equal.
    assert (P50 : Percentile.to_percentile 99 = Fin 50).
    { rewrite to_percentile_val. change (99 + 1)%Z with 100%Z. f_equal. lra. }
    assert (P100 : Percentile.to_percentile 199 = Fin 100).
    { rewrite to_percentile_val. change (199 + 1)%Z with 200%Z. f_equal. lra. }
    rewrite P50, P100, !fdiv_Fin by lra. cbn [Percentile.norm_ppf].
    Rcmp. cbn [andb]. replace (50 / 100) with (1 / 2) by lra. reflexivity.
  - unfold population_200 at 2. apply mapM_app.
    + apply mapM_repeat, ranked_low.
    + cbn [mapM]. rewrite ranked_top. reflexivity.
  - intros E. apply app_eq_nil in E. destruct E as [_ E]. discriminate.
Qed.

(** ** Order on column values *)

Ltac Rreflect :=
  repeat match goal with
  | H : context [Rltb ?a ?b] |- _ => destruct (Rltb_spec a b)
  | H : context [Rleb ?a ?b] |- _ => destruct (Rleb_spec a b)
  | H : context [Reqb ?a ?b] |- _ => destruct (Reqb_spec a b)
  | |- context [Rltb ?a ?b] => destruct (Rltb_spec a b)
  | |- context [Rleb ?a ?b] => destruct (Rleb_spec a b)
  | |- context [Reqb ?a ?b] => destruct (Reqb_spec a b)
  end.

Ltac fcases :=
  unfold fle, flt, fgtb, fgeb, notna in *;
  cbn [fltb fleb feqb isna negb] in *;
  Rreflect;
  try reflexivity; try discriminate; try congruence; try (exfalso; lra);
  try (f_equal; lra).

Lemma fleb_total (a b : float) :
  notna a = true -> notna b = true -> fleb a b = false -> fltb b a = true.
Proof. destruct a, b; intros; fcases. Qed.

Lemma fle_trans (a b c : float) : fle a b -> fle b c -> fle a c.
Proof. destruct a, b, c; intros; fcases. Qed.

Lemma flt_fle (a b : float) : flt a b -> fle a b.
Proof. destruct a, b; intros; fcases. Qed.

Lemma flt_trans (a b c : float) : flt a b -> flt b c -> flt a c.
Proof. destruct a, b, c; intros; fcases. Qed.

Lemma flt_irrefl (a : float) : ~ flt a a.
Proof. destruct a; intros H; fcases. Qed.

Lemma flt_fle_trans (a b c : float) : flt a b -> fle b c -> flt a c.
Proof. destruct a, b, c; intros; fcases. Qed.

Lemma feqb_eq (a b : float) : feqb a b = true -> a = b.
Proof. destruct a, b; intros; fcases. Qed.

Lemma fle_neq_flt (a b : float) : fle a b -> feqb a b = false -> flt a b.
Proof. destruct a, b; intros; fcases. Qed.

(** ** Sorting and grouping *)

Lemma insert_sorted_In (y x : float) (l : list float) :
  In y (insert_sorted x l) <-> y = x \/ In y l.
Proof.
  induction l as [|z l IH]; cbn; [intuition congruence|].
  destruct (fleb x z); cbn; [intuition congruence|].
  rewrite IH. intuition congruence.
Qed.

Lemma np_sort_In (y : float) (l : list float) : In y (np_sort l) <-> In y l.
Proof.
  induction l as [|x l IH]; [cbn; tauto|].
  change (np_sort (x :: l)) with (insert_sorted x (np_sort l)).
  rewrite insert_sorted_In, IH. cbn. intuition congruence.
Qed.

Lemma insert_sorted_sorted (x : float) (l : list float) :
  notna x = true -> Forall (fun a => notna a = true) l ->
  StronglySorted fle l -> StronglySorted fle (insert_sorted x l).
Proof.
  intros Hx Hl Hs. induction Hs as [|z l Hs IH Hz]; cbn.
  - repeat constructor.
  - inversion Hl as [|? ? Hnz Hl']; subst.
    destruct (fleb x z) eqn:E.
    + constructor; [constructor; assumption|].
      constructor; [exact E|].
      eapply Forall_impl; [|exact Hz]. intros a Ha. eapply fle_trans; eassumption.
    + constructor; [apply IH; assumption|].
      apply Forall_forall. intros a Ha. rewrite insert_sorted_In in Ha.
      destruct Ha as [->|Ha].
      * apply flt_fle. apply fleb_total; assumption.
      * rewrite Forall_forall in Hz. now apply Hz.
Qed.

Lemma np_sort_sorted (l : list float) :
  Forall (fun a => notna a = true) l -> StronglySorted fle (np_sort l).
Proof.
  induction 1 as [|x l Hx Hl IH]; [constructor|].
  change (np_sort (x :: l)) with (insert_sorted x (np_sort l)).
  apply insert_sorted_sorted; [assumption| |assumption].
  apply Forall_forall. intros a Ha. rewrite np_sort_In in Ha.
  rewrite Forall_forall in Hl. now apply Hl.
Qed.

Lemma dropna_notna (l : list float) : Forall (fun a => notna a = true) (dropna l).
Proof.
  apply Forall_forall. intros a Ha. apply filter_In in Ha. tauto.
Qed.

Lemma uniq_In (y : float) (l : list float) :
  In y (Cutoff.uniq l) <-> In y l.
Proof.
  induction l as [|x l IH]; [tauto|].
  cbn [Cutoff.uniq]. destruct l as [|z l]; [tauto|].
  destruct (feqb x z) eqn:E.
  - rewrite IH. apply feqb_eq in E. subst. cbn. tauto.
  - cbn [In]. rewrite IH. cbn. tauto.
Qed.

Lemma uniq_sorted (l : list float) :
  StronglySorted fle l -> StronglySorted flt (Cutoff.uniq l).
Proof.
  induction 1 as [|x l Hs IH Hx]; [constructor|].
  cbn [Cutoff.uniq]. destruct l as [|z l]; [repeat constructor|].
  destruct (feqb x z) eqn:E; [exact IH|].
  constructor; [exact IH|].
  apply Forall_forall. intros a Ha. rewrite uniq_In in Ha.
  inversion Hx as [|? ? Hxz Hxl]; subst.
  assert (Hlt : flt x z) by (apply fle_neq_flt; assumption).
  destruct Ha as [<-|Ha]; [exact Hlt|].
  inversion Hs as [|? ? _ Hzl]; subst.
  rewrite Forall_forall in Hzl.
  eapply flt_fle_trans; [exact Hlt | exact (Hzl a Ha)].
Qed.

Lemma strict_sorted_ext (l1 l2 : list float) :
  StronglySorted flt l1 -> StronglySorted flt l2 ->
  (forall a, In a l1 <-> In a l2) -> l1 = l2.
Proof.
  intros H1; revert l2.
  induction H1 as [|x l1 H1 IH Hx]; intros l2 H2 Hin.
  - destruct l2 as [|y l2]; [reflexivity|].
    exfalso. apply (Hin y). now left.
  - destruct H2 as [|y l2 H2 Hy].
    + exfalso. apply (Hin x). now left.
    + rewrite Forall_forall in Hx, Hy.
      assert (Exy : x = y).
      { destruct (proj1 (Hin x) (or_introl eq_refl)) as [E|Hx2]; [now symmetry|].
        destruct (proj2 (Hin y) (or_introl eq_refl)) as [E|Hy1]; [exact E|].
        exfalso. apply (flt_irrefl x).
        eapply flt_trans; [apply Hx, Hy1 | apply Hy, Hx2]. }
      subst y. f_equal. apply IH; [exact H2|].
      intros a; split; intros Ha.
      * destruct (proj1 (Hin a) (or_intror Ha)) as [E|Ha2]; [|exact Ha2].
        subst a. exfalso. apply (flt_irrefl x). now apply Hx.
      * destruct (proj2 (Hin a) (or_intror Ha)) as [E|Ha1]; [|exact Ha1].
        subst a. exfalso. apply (flt_irrefl x). now apply Hy.
Qed.

Lemma strict_sorted_NoDup (l : list float) : StronglySorted flt l -> NoDup l.
Proof.
  induction 1 as [|x l Hs IH Hx]; constructor; [|exact IH].
  intros Hin. rewrite Forall_forall in Hx. exact (flt_irrefl x (Hx x Hin)).
Qed.

(** ** CutoffCalculator *)

Lemma group_keys_sorted (df : list Cutoff.row) :
  StronglySorted flt (Cutoff.group_keys df).
Proof. apply uniq_sorted, np_sort_sorted, dropna_notna. Qed.

Lemma group_keys_In (df : list Cutoff.row) (k : float) :
  In k (Cutoff.group_keys df) <-> notna k = true /\ rank_present df k.
Proof.
  unfold Cutoff.group_keys, rank_present, dropna.
  rewrite uniq_In, np_sort_In, filter_In, in_map_iff.
  split.
  - intros [[r [E Hr]] Hk]. split; [exact Hk|]. exists r. tauto.
  - intros [Hk [r [Hr E]]]. split; [|exact Hk]. exists r. tauto.
Qed.

Lemma star_values_sorted : StronglySorted flt star_values.
Proof.
  unfold star_values.
  repeat (constructor; [|repeat (constructor; [unfold flt; cbn [fltb]; Rcmp; reflexivity|])
                           ; try constructor]).
  constructor.
Qed.

Lemma star_values_notna (k : float) : In k star_values -> notna k = true.
Proof.
  intros H; cbn in H.
  destruct H as [<-|[<-|[<-|[<-|[<-|[]]]]]]; reflexivity.
Qed.

Lemma group_keys_star (df : list Cutoff.row) :
  valid_ranks df -> incl (Cutoff.group_keys df) star_values.
Proof.
  intros Hv k Hk. apply group_keys_In in Hk. destruct Hk as [Hna [r [Hr E]]].
  destruct (Hv r Hr) as [Hn|Hin]; [|now rewrite <- E].
  rewrite <- E, Hn in Hna. cbn in Hna. discriminate.
Qed.

Lemma group_keys_all_present (df : list Cutoff.row) :
  valid_ranks df ->
  (forall k, In k star_values -> rank_present df k) ->
  Cutoff.group_keys df = star_values.
Proof.
  intros Hv Hall.
  apply strict_sorted_ext;
    [apply group_keys_sorted | apply star_values_sorted |].
  intros a; split; [apply group_keys_star, Hv|].
  intros Ha. apply group_keys_In. split; [now apply star_values_notna | now apply Hall].
Qed.

Lemma group_keys_some_absent (df : list Cutoff.row) :
  valid_ranks df ->
  (exists k, In k star_values /\ ~ rank_present df k) ->
  (length (Cutoff.group_keys df) < 5)%nat.
Proof.
  intros Hv [k [Hk Habs]].
  destruct (Nat.lt_ge_cases (length (Cutoff.group_keys df)) 5) as [Hlt|Hge];
    [exact Hlt|].
  exfalso. apply Habs.
  assert (Hincl : incl star_values (Cutoff.group_keys df)).
  { apply NoDup_length_incl.
    - apply strict_sorted_NoDup, group_keys_sorted.
    - exact Hge.
    - now apply group_keys_star. }
  apply (group_keys_In df k). now apply Hincl.
Qed.

Lemma cutoffs_short (cs : list (float * float * float)) :
  (length cs < 5)%nat ->
  (c1 <- Cutoff.boundary cs 0 ;;
   c2 <- Cutoff.boundary cs 1 ;;
   c3 <- Cutoff.boundary cs 2 ;;
   c4 <- Cutoff.boundary cs 3 ;;
   Ok (Cutoff.mkCutoffs c1 c2 c3 c4)) = Raise KeyError.
Proof.
  intros H.
  destruct cs as [|[[k1 a1] b1] [|[[k2 a2] b2] [|[[k3 a3] b3] [|[[k4 a4] b4]
             [|[[k5 a5] b5] cs]]]]]; cbn in H; try lia; reflexivity.
Qed.

Lemma calculate_cutoffs_present (df : list Cutoff.row) :
  valid_ranks df ->
  (forall k, In k star_values -> rank_present df k) ->
  Cutoff.calculate_cutoffs df =
  Ok (Cutoff.mkCutoffs
        (midpoint (rank_max df (Fin 1)) (rank_min df (Fin 2)))
        (midpoint (rank_max df (Fin 2)) (rank_min df (Fin 3)))
        (midpoint (rank_max df (Fin 3)) (rank_min df (Fin 4)))
        (midpoint (rank_max df (Fin 4)) (rank_min df (Fin 5)))).
Proof.
  intros Hv Hall.
  unfold Cutoff.calculate_cutoffs, Cutoff.groupby_min_max.
  rewrite (group_keys_all_present df Hv Hall).
  reflexivity.
Qed.

Lemma calculate_cutoffs_absent (df : list Cutoff.row) :
  valid_ranks df ->
  (exists k, In k star_values /\ ~ rank_present df k) ->
  Cutoff.calculate_cutoffs df = Raise KeyError.
Proof.
  intros Hv Habs. unfold Cutoff.calculate_cutoffs.
  apply cutoffs_short. unfold Cutoff.groupby_min_max. rewrite length_map.
  now apply group_keys_some_absent.
Qed.

(** C7 (as amended). On a frame whose star ranks are among 1 to 5 or missing:
    when every rank has a facility, boundary k is the average of the largest
    composite score of rank k and the smallest composite score of rank k+1;
    when some rank has no facility, the positional lookup into the grouped
    table runs past its end and the computation stops with [KeyError]. *)
Theorem calculate_cutoffs_midpoints (df : list Cutoff.row) :
  valid_ranks df ->
  ((forall k, In k star_values -> rank_present df k) ->
   Cutoff.calculate_cutoffs df =
   Ok (Cutoff.mkCutoffs
         (midpoint (rank_max df (Fin 1)) (rank_min df (Fin 2)))
         (midpoint (rank_max df (Fin 2)) (rank_min df (Fin 3)))
         (midpoint (rank_max df (Fin 3)) (rank_min df (Fin 4)))
         (midpoint (rank_max df (Fin 4)) (rank_min df (Fin 5))))) /\
  ((exists k, In k star_values /\ ~ rank_present df k) ->
   Cutoff.calculate_cutoffs df = Raise KeyError).
Proof.
  intros Hv. split.
  - now apply calculate_cutoffs_present.
  - now apply calculate_cutoffs_absent.
Qed.

Lemma scenario_valid : valid_ranks scenario.
Proof.
  intros r Hr. right. cbn in Hr.
  repeat (destruct Hr as [<-|Hr]; [cbn; tauto|]). destruct Hr.
Qed.

Lemma scenario_all_present (k : float) :
  In k star_values -> rank_present scenario k.
Proof.
  intros Hk. cbn in Hk.
  destruct Hk as [<-|[<-|[<-|[<-|[<-|[]]]]]].
  - exists (Cutoff.mkRow (Fin 1) (Fin 10)). split; [cbn; tauto | reflexivity].
  - exists (Cutoff.mkRow (Fin 2) (Fin 21)). split; [cbn; tauto | reflexivity].
  - exists (Cutoff.mkRow (Fin 3) (Fin 31)). split; [cbn; tauto | reflexivity].
  - exists (Cutoff.mkRow (Fin 4) (Fin 71)). split; [cbn; tauto | reflexivity].
  - exists (Cutoff.mkRow (Fin 5) (Fin 91)). split; [cbn; tauto | reflexivity].
Qed.

(** Evaluate the aggregates of a concrete frame. *)
Ltac eval_groups :=
  unfold midpoint, rank_max, rank_min, Cutoff.group_scores, Cutoff.agg, dropna;
  cbn [scenario filter map Cutoff.starrank Cutoff.final_score feqb];
  Rcmp;
  cbn [filter map Cutoff.final_score notna isna negb fold_left];
  unfold Cutoff.fmax2, Cutoff.fmin2; cbn [fltb]; Rcmp;
  cbn [fadd]; rewrite ?fdiv_Fin by lra.

Lemma calculate_cutoffs_midpoints_witness :
  Cutoff.calculate_cutoffs scenario =
  Ok (Cutoff.mkCutoffs (Fin (205/10)) (Fin (305/10)) (Fin (705/10)) (Fin (905/10))).
Proof.
  rewrite (proj1 (calculate_cutoffs_midpoints scenario scenario_valid)
             scenario_all_present).
  eval_groups.
  do 2 f_equal; f_equal; lra.
Defined.

Lemma scenario_without_5_valid : valid_ranks scenario_without_5.
Proof.
  intros r Hr. right. cbn in Hr.
  repeat (destruct Hr as [<-|Hr]; [cbn; tauto|]). destruct Hr.
Qed.

Lemma scenario_without_5_absent : ~ rank_present scenario_without_5 (Fin 5).
Proof.
  intros [r [Hr E]]. cbn in Hr.
  repeat (destruct Hr as [<-|Hr]; [cbn in E; injection E; lra|]). destruct Hr.
Qed.

(** C7, the claim as stated fails: with no five-star facility the grouped
    table has four lines and [cutoffs.loc[4, 'min']] is looked up past its
    end; the failure is the [KeyError] of that lookup. *)
Lemma calculate_cutoffs_empty_rank_keyerror :
  ~ rank_present scenario_without_5 (Fin 5) /\
  Cutoff.calculate_cutoffs scenario_without_5 = Raise KeyError.
Proof.
  split; [exact scenario_without_5_absent|].
  apply calculate_cutoffs_absent; [exact scenario_without_5_valid|].
  exists (Fin 5). split; [cbn; tauto | exact scenario_without_5_absent].
Qed.

(** ** WinsorizationCalibrator: the loop *)

Lemma np_max_nonempty (l : list float) : l <> [] -> exists m, np_max l = Ok m.
Proof. destruct l; [congruence | intros _; eexists; reflexivity]. Qed.

Lemma np_min_nonempty (l : list float) : l <> [] -> exists m, np_min l = Ok m.
Proof. destruct l; [congruence | intros _; eexists; reflexivity]. Qed.

Lemma map_nonempty {A B} (f : A -> B) (l : list A) : l <> [] -> map f l <> [].
Proof. destruct l; [congruence | discriminate]. Qed.

(** What one iteration computes. *)
Lemma body_inv (k : nat) (s : Winsor.state) (brk : bool) (s' : Winsor.state) :
  Winsor.body k s = Ok (brk, s') ->
  let t' := map (Winsor.clip (Winsor.upl s) (Winsor.lol s)) (Winsor.t s) in
  let w' := map (fun x => fdiv (fsub x (np_mean t')) (np_std t')) t' in
  exists mx mn,
    np_max w' = Ok mx /\ np_min w' = Ok mn /\
    brk = Winsor.converged mx mn /\
    Winsor.i s' = k /\ Winsor.t s' = t' /\ Winsor.w_var s' = w' /\
    Winsor.mean_t s' = np_mean t' /\ Winsor.std_t s' = np_std t' /\
    Winsor.upl s' =
      (if brk then Winsor.upl s else Winsor.adjust_upl mx (Winsor.upl s)) /\
    Winsor.lol s' =
      (if brk then Winsor.lol s else Winsor.adjust_lol mn (Winsor.lol s)).
Proof.
  intros H t' w'. unfold Winsor.body in H. fold t' in H. fold w' in H.
  destruct (np_max w') as [mx|e] eqn:Emx; cbn [bind] in H; [|discriminate].
  destruct (np_min w') as [mn|e] eqn:Emn; cbn [bind] in H; [|discriminate].
  exists mx, mn.
  destruct (Winsor.converged mx mn) eqn:Ec; inversion H; subst; cbn;
    repeat split; reflexivity.
Qed.

Lemma body_total (k : nat) (s : Winsor.state) :
  Winsor.t s <> [] ->
  exists brk s', Winsor.body k s = Ok (brk, s') /\ Winsor.t s' <> [].
Proof.
  intros Hne. unfold Winsor.body.
  set (t' := map (Winsor.clip (Winsor.upl s) (Winsor.lol s)) (Winsor.t s)).
  set (w' := map (fun x => fdiv (fsub x (np_mean t')) (np_std t')) t').
  assert (Ht' : t' <> []) by now apply map_nonempty.
  assert (Hw' : w' <> []) by now apply map_nonempty.
  destruct (np_max_nonempty w' Hw') as [mx ->].
  destruct (np_min_nonempty w' Hw') as [mn ->].
  cbn [bind]. destruct (Winsor.converged mx mn); eexists; eexists; split;
    try reflexivity; exact Ht'.
Qed.

Lemma for_range_total (ks : list nat) (s : Winsor.state) :
  Winsor.t s <> [] -> exists s', Winsor.for_range ks s = Ok s'.
Proof.
  revert s; induction ks as [|k ks IH]; intros s Hne; cbn.
  - eexists; reflexivity.
  - destruct (body_total k s Hne) as [brk [s' [-> Hne']]]. cbn.
    destruct brk; [eexists; reflexivity | now apply IH].
Qed.

Lemma converged_within_bounds (w : list float) (mx mn : float) :
  np_max w = Ok mx -> np_min w = Ok mn ->
  (Winsor.converged mx mn = true <-> within_bounds w).
Proof.
  intros Hmx Hmn. unfold Winsor.converged, within_bounds, fgeb, fle.
  rewrite andb_true_iff. split.
  - intros [H1 H2]. exists mx, mn. tauto.
  - intros [mx' [mn' [E1 [E2 [H1 H2]]]]].
    rewrite Hmx in E1; rewrite Hmn in E2.
    inversion E1; inversion E2; subst. tauto.
Qed.

(** The loop either leaves by [break], on a series within the bounds, or
    runs through every value of [i] and then holds a series that is not
    within the bounds. *)
Lemma for_range_exit (ks : list nat) (s s' : Winsor.state) (k0 : nat) :
  Winsor.for_range (k0 :: ks) s = Ok s' ->
  within_bounds (Winsor.w_var s') \/
  (Winsor.i s' = last (k0 :: ks) 0%nat /\ ~ within_bounds (Winsor.w_var s')).
Proof.
  revert s k0; induction ks as [|k ks IH]; intros s k0 H;
    cbn [Winsor.for_range] in H;
    destruct (Winsor.body k0 s) as [[brk s1]|e] eqn:Eb; cbn [bind fst snd] in H;
    try discriminate;
    destruct (body_inv _ _ _ _ Eb) as [mx [mn [Hmx [Hmn [Hb [Hi [_ [Hw _]]]]]]]];
    rewrite <- Hw in Hmx, Hmn;
    pose proof (converged_within_bounds _ _ _ Hmx Hmn) as Hc;
    rewrite <- Hb in Hc.
  - destruct brk; inversion H; subst s'.
    + left. now apply Hc.
    + right. split; [exact Hi|]. intros Hw'. apply Hc in Hw'. discriminate.
  - destruct brk.
    + inversion H; subst s'. left. now apply Hc.
    + apply IH in H. exact H.
Qed.

Lemma last_seq (n a d : nat) : last (seq a (S n)) d = (a + n)%nat.
Proof.
  revert a; induction n as [|n IH]; intros a; [cbn; lia|].
  change (seq a (S (S n))) with (a :: seq (S a) (S n)).
  change (last (a :: seq (S a) (S n)) d) with (last (seq (S a) (S n)) d).
  rewrite IH. lia.
Qed.

Lemma iterations_succ : Winsor.iterations = S (Z.to_nat 9999).
Proof. reflexivity. Qed.

Lemma init_t_nonempty (col : list float) :
  col <> [] -> Winsor.t (Winsor.init col) <> [].
Proof. intros H. cbn. now apply map_nonempty. Qed.

Lemma run_total (col : list float) :
  col <> [] -> exists s, Winsor.run col = Ok s.
Proof. intros H. apply for_range_total, init_t_nonempty, H. Qed.

Lemma run_exit (col : list float) (s : Winsor.state) :
  Winsor.run col = Ok s ->
  within_bounds (Winsor.w_var s) \/
  (Winsor.i s = Winsor.iterations /\ ~ within_bounds (Winsor.w_var s)).
Proof.
  unfold Winsor.run. rewrite iterations_succ.
  change (seq 1 (S (Z.to_nat 9999))) with (1%nat :: seq 2 (Z.to_nat 9999)).
  intros H. apply for_range_exit in H.
  destruct H as [H|[Hi H]]; [now left | right; split; [|exact H]].
  rewrite Hi.
  change (1%nat :: seq 2 (Z.to_nat 9999)) with (seq 1 (S (Z.to_nat 9999))).
  rewrite last_seq. reflexivity.
Qed.

(** C3 (as amended). On a non-empty column [winsorize] completes and stores
    the series of the last iteration it ran: either that series is within
    the bounds (the loop left by [break]), or the loop ran all 10,000
    iterations and the series stored is not within the bounds.  The stored
    record has no field that tells the two outcomes apart. *)
Theorem winsorize_bounded_or_cap (col : list float) :
  col <> [] ->
  exists s,
    Winsor.run col = Ok s /\
    Winsor.winsorize col =
      Ok (Winsor.mkStored (Winsor.w_var s) (Winsor.mean_t s) (Winsor.std_t s)
                          (Winsor.upl s) (Winsor.lol s)) /\
    (within_bounds (Winsor.w_var s) \/
     (Winsor.i s = Winsor.iterations /\ ~ within_bounds (Winsor.w_var s))).
Proof.
  intros Hne. destruct (run_total col Hne) as [s Hs]. exists s.
  split; [exact Hs|]. split.
  - unfold Winsor.winsorize. rewrite Hs. reflexivity.
  - destruct (run_exit col s Hs) as [H|[Hi H]]; [now left|right].
    split; [exact Hi | exact H].
Qed.

(** *** The limits only move inward *)

Lemma adjust_upl_Fin (mx : float) (u : R) :
  exists u', Winsor.adjust_upl mx (Fin u) = Fin u' /\ u - 1/1000 <= u' <= u.
Proof.
  unfold Winsor.adjust_upl. destruct (fgtb mx Winsor.threshold).
  - exists (u - 1/1000). split; [reflexivity | lra].
  - exists u. split; [reflexivity | lra].
Qed.

Lemma adjust_lol_Fin (mn : float) (l : R) :
  exists l', Winsor.adjust_lol mn (Fin l) = Fin l' /\ l <= l' <= l + 1/1000.
Proof.
  unfold Winsor.adjust_lol. destruct (fltb mn (fopp Winsor.threshold)).
  - exists (l + 1/1000). split; [reflexivity | lra].
  - exists l. split; [reflexivity | lra].
Qed.

Lemma body_limits (k : nat) (s s' : Winsor.state) (brk : bool) (u l : R) :
  Winsor.body k s = Ok (brk, s') ->
  Winsor.upl s = Fin u -> Winsor.lol s = Fin l ->
  exists u' l', Winsor.upl s' = Fin u' /\ Winsor.lol s' = Fin l' /\
                u - 1/1000 <= u' <= u /\ l <= l' <= l + 1/1000.
Proof.
  intros Hb Hu Hl.
  destruct (body_inv _ _ _ _ Hb) as [mx [mn [_ [_ [_ [_ [_ [_ [_ [_ [Hu' Hl']]]]]]]]]]].
  rewrite Hu in Hu'. rewrite Hl in Hl'.
  destruct brk.
  - exists u, l. repeat split; (assumption || lra).
  - destruct (adjust_upl_Fin mx u) as [u' [Eu Bu]].
    destruct (adjust_lol_Fin mn l) as [l' [El Bl]].
    exists u', l'. rewrite Hu', Hl'. tauto.
Qed.

Lemma for_range_limits (ks : list nat) (s s' : Winsor.state) (u l : R) :
  Winsor.for_range ks s = Ok s' ->
  Winsor.upl s = Fin u -> Winsor.lol s = Fin l ->
  exists u' l', Winsor.upl s' = Fin u' /\ Winsor.lol s' = Fin l' /\
                u' <= u /\ l <= l'.
Proof.
  revert s u l; induction ks as [|k ks IH]; intros s u l H Hu Hl;
    cbn [Winsor.for_range] in H.
  - inversion H; subst. exists u, l. repeat split; (assumption || lra).
  - destruct (Winsor.body k s) as [[brk s1]|e] eqn:Eb; cbn [bind fst snd] in H;
      [|discriminate].
    destruct (body_limits _ _ _ _ _ _ Eb Hu Hl) as [u1 [l1 [Hu1 [Hl1 [Bu Bl]]]]].
    destruct brk.
    + inversion H; subst. exists u1, l1. repeat split; (assumption || lra).
    + destruct (IH _ _ _ H Hu1 Hl1) as [u' [l' [Hu' [Hl' [Bu' Bl']]]]].
      exists u', l'. repeat split; (assumption || lra).
Qed.

(** C5 (as amended). The limits [winsorize] stores are finite, the upper
    one at most 2.58 and the lower one at least -2.58: each adjustment moves
    a limit toward the other by one step, so neither ever lies beyond the
    threshold, and nothing ties the two together. *)
Theorem winsorize_limits_inward (col : list float) :
  col <> [] ->
  exists r u l,
    Winsor.winsorize col = Ok r /\
    Winsor.upl_ r = Fin u /\ Winsor.lol_ r = Fin l /\
    u <= 258/100 /\ -(258/100) <= l.
Proof.
  intros Hne. destruct (run_total col Hne) as [s Hs].
  destruct (for_range_limits _ _ _ (258/100) (-(258/100)) Hs eq_refl eq_refl)
    as [u [l [Hu [Hl [Bu Bl]]]]].
  eexists; exists u, l. unfold Winsor.winsorize. rewrite Hs. cbn [bind].
  split; [reflexivity|]. cbn. tauto.
Qed.

(** *** A column without variation *)

Lemma fold_fadd_NaN (l : list float) : fold_left fadd l NaN = NaN.
Proof. induction l as [|x l IH]; [reflexivity | exact IH]. Qed.

Lemma fold_fadd_not_finite (l : list float) (b : float) :
  is_finite b = false -> is_finite (fold_left fadd l b) = false.
Proof.
  revert b; induction l as [|y l IH]; intros b Hb; [exact Hb|].
  cbn. apply IH. destruct b, y; cbn in *; congruence.
Qed.

Lemma fold_fadd_Fin_inv (l : list float) (a s : R) :
  fold_left fadd l (Fin a) = Fin s ->
  exists xs, l = map Fin xs /\ s = a + Rsum xs.
Proof.
  revert a; induction l as [|x l IH]; intros a H; cbn in H.
  - exists []. split; [reflexivity|]. inversion H. cbn. lra.
  - destruct x as [x| | |]; cbn in H.
    + destruct (IH _ H) as [xs [-> Es]]. exists (x :: xs).
      split; [reflexivity|]. cbn. unfold Rsum in Es. lra.
    + pose proof (fold_fadd_not_finite l PInf eq_refl) as Hn.
      rewrite H in Hn. discriminate.
    + pose proof (fold_fadd_not_finite l NInf eq_refl) as Hn.
      rewrite H in Hn. discriminate.
    + rewrite fold_fadd_NaN in H. discriminate.
Qed.

Lemma fsquare_Fin_inv (a : float) (q : R) :
  fsquare a = Fin q -> exists r, a = Fin r /\ q = r * r.
Proof.
  destruct a as [r| | |]; cbn; intros H; try discriminate.
  exists r. split; [reflexivity | now inversion H].
Qed.

Lemma fsub_Fin_inv (a b : float) (r : R) :
  fsub a b = Fin r -> exists x y, a = Fin x /\ b = Fin y /\ r = x - y.
Proof.
  destruct a as [x| | |], b as [y| | |]; cbn; intros H; try discriminate.
  exists x, y. repeat split. inversion H. lra.
Qed.

Lemma Rsum_squares_nonneg (ds : list R) : 0 <= Rsum (map (fun d => d * d) ds).
Proof.
  induction ds as [|d ds IH]; unfold Rsum in *; cbn; [lra|]. nra.
Qed.

Lemma Rsum_squares_zero (ds : list R) :
  Rsum (map (fun d => d * d) ds) = 0 -> Forall (fun d => d = 0) ds.
Proof.
  induction ds as [|d ds IH]; intros H; [constructor|].
  pose proof (Rsum_squares_nonneg ds) as Hnn.
  unfold Rsum in *. cbn in H.
  assert (Hd : d * d = 0) by nra.
  constructor; [nra | apply IH; lra].
Qed.

(** Zero sum of squared deviations: every entry is the (finite) [m]. *)
Lemma sum_sq_dev_zero (v : list float) (m : float) :
  sum_sq_dev v m = Fin 0 -> v <> [] ->
  exists m', m = Fin m' /\ Forall (fun x => x = Fin m') v.
Proof.
  unfold sum_sq_dev, fsum. intros H Hne.
  destruct (fold_fadd_Fin_inv _ _ _ H) as [qs [Eqs Es]].
  assert (Hall : forall x, In x v -> exists x' m', x = Fin x' /\ m = Fin m').
  { intros x Hx.
    assert (Hin : In (fsquare (fsub x m)) (map Fin qs)).
    { rewrite <- Eqs. now apply (in_map (fun x => fsquare (fsub x m))). }
    apply in_map_iff in Hin. destruct Hin as [q [Eq _]].
    symmetry in Eq. apply fsquare_Fin_inv in Eq. destruct Eq as [r [Er _]].
    apply fsub_Fin_inv in Er. destruct Er as [x' [m' [-> [-> _]]]].
    now exists x', m'. }
  destruct v as [|x0 v0]; [congruence|].
  destruct (Hall x0 (or_introl eq_refl)) as [x0' [m' [_ Em]]].
  exists m'. split; [exact Em|]. subst m.
  assert (Hv : exists xs, x0 :: v0 = map Fin xs).
  { clear -Hall. induction (x0 :: v0) as [|x v IH]; [now exists []|].
    destruct (Hall x (or_introl eq_refl)) as [x' [_ [-> _]]].
    destruct IH as [xs ->]; [intros y Hy; apply Hall; now right|].
    now exists (x' :: xs). }
  destruct Hv as [xs Exs]. rewrite Exs in *. clear Exs Hall.
  rewrite map_map in Eqs. cbn in Eqs.
  assert (Eq2 : qs = map (fun d => d * d) (map (fun x => x + - m') xs)).
  { rewrite map_map. clear -Eqs. revert qs Eqs.
    induction xs as [|x xs IH]; intros [|q qs] E; cbn in *; try discriminate;
      [reflexivity|]. inversion E; subst. f_equal. now apply IH. }
  rewrite Eq2 in Es. rewrite Rplus_0_l in Es. symmetry in Es.
  apply Rsum_squares_zero in Es.
  apply Forall_forall. intros x Hx. apply in_map_iff in Hx.
  destruct Hx as [x' [<- Hx']]. f_equal.
  rewrite Forall_forall in Es.
  specialize (Es (x' + - m') (in_map _ _ _ Hx')). lra.
Qed.

Lemma fsqrt_zero_inv (a : float) : fsqrt a = Fin 0 -> a = Fin 0.
Proof.
  destruct a as [y| | |]; cbn; try discriminate.
  destruct (Rltb_spec y 0) as [Hlt|Hge]; [discriminate|].
  intros H. injection H as Hs. f_equal. apply sqrt_eq_0; lra.
Qed.

Lemma fdiv_zero_inv (a : float) (d : R) :
  d <> 0 -> fdiv a (Fin d) = Fin 0 -> a = Fin 0.
Proof.
  intros Hd. destruct a as [x| | |]; cbn; try discriminate.
  - rewrite Reqb_false by exact Hd. intros H. injection H as Hx. f_equal.
    unfold Rdiv in Hx. apply Rmult_integral in Hx. destruct Hx as [Hx|Hx]; [exact Hx|].
    exfalso. now apply (Rinv_neq_0_compat d).
  - destruct (Rltb d 0); discriminate.
  - destruct (Rltb d 0); discriminate.
Qed.

Lemma map_const {A B} (f : A -> B) (c : B) (l : list A) :
  (forall x, In x l -> f x = c) -> map f l = repeat c (length l).
Proof.
  induction l as [|x l IH]; intros H; cbn; [reflexivity|].
  rewrite (H x (or_introl eq_refl)), IH; [reflexivity|].
  intros y Hy. apply H. now right.
Qed.

(** Zero sample deviation: the values present are one and the same number. *)
Lemma pd_std_zero (col : list float) :
  pd_std col = Fin 0 ->
  col <> [] /\
  exists m', pd_mean col = Fin m' /\
             forall x, In x col -> x = NaN \/ x = Fin m'.
Proof.
  unfold pd_std, pd_mean. intros H.
  destruct (length (dropna col) <=? 1)%nat eqn:El; [discriminate|].
  apply Nat.leb_gt in El.
  apply fsqrt_zero_inv in H. unfold of_nat in H.
  apply fdiv_zero_inv in H.
  2:{ apply not_0_INR. lia. }
  assert (Hne : dropna col <> []).
  { intros E. rewrite E in El. cbn in El. lia. }
  destruct (sum_sq_dev_zero _ _ H Hne) as [m' [Em Hall]].
  split.
  { intros E. subst col. now apply Hne. }
  exists m'. split; [exact Em|].
  intros x Hx. destruct x as [x| | |]; [right|right|right|now left];
    rewrite Forall_forall in Hall; apply Hall; unfold dropna;
    apply filter_In; (split; [exact Hx | reflexivity]).
Qed.

Lemma init_zero_std (col : list float) :
  pd_std col = Fin 0 ->
  Winsor.t (Winsor.init col) = repeat NaN (length col).
Proof.
  intros H. destruct (pd_std_zero col H) as [_ [m' [Em Hall]]].
  cbn [Winsor.init Winsor.t]. rewrite H, Em.
  apply map_const. intros x Hx.
  destruct (Hall x Hx) as [-> | ->]; [reflexivity|].
  cbn [fsub fopp fadd fdiv]. rewrite Reqb_true by reflexivity.
  unfold inf_signed. now rewrite !Rltb_false by lra.
Qed.

(** *** A series holding a NaN never converges *)

Lemma repeat_S_cons {A} (a : A) (n : nat) : repeat a (S n) = a :: repeat a n.
Proof. reflexivity. Qed.

Lemma fadd_NaN_r (a : float) : fadd a NaN = NaN.
Proof. destruct a; reflexivity. Qed.

Lemma fsub_NaN_r (a : float) : fsub a NaN = NaN.
Proof. destruct a; reflexivity. Qed.

Lemma fold_fadd_In_NaN (l : list float) (acc : float) :
  In NaN l -> fold_left fadd l acc = NaN.
Proof.
  revert acc; induction l as [|x l IH]; intros acc H; [destruct H|].
  destruct H as [E|H]; cbn [fold_left].
  - subst x. rewrite fadd_NaN_r. apply fold_fadd_NaN.
  - now apply IH.
Qed.

Lemma np_mean_In_NaN (l : list float) : In NaN l -> np_mean l = NaN.
Proof.
  intros H. unfold np_mean, fsum. now rewrite fold_fadd_In_NaN.
Qed.

Lemma In_repeat_length {A} (a : A) (l : list float) :
  l <> [] -> In a (repeat a (length l)).
Proof. destruct l; [congruence | intros _; now left]. Qed.

Lemma np_std_mean_NaN (l : list float) :
  l <> [] -> np_mean l = NaN -> np_std l = NaN.
Proof.
  intros Hne Hm. unfold np_std, sum_sq_dev, fsum. rewrite Hm.
  rewrite (map_const _ NaN) by (intros x _; now rewrite fsub_NaN_r).
  rewrite fold_fadd_In_NaN by now apply In_repeat_length.
  reflexivity.
Qed.

Lemma fold_np_max2_NaN (l : list float) : fold_left np_max2 l NaN = NaN.
Proof. induction l as [|x l IH]; [reflexivity | exact IH]. Qed.

Lemma fold_np_min2_NaN (l : list float) : fold_left np_min2 l NaN = NaN.
Proof. induction l as [|x l IH]; [reflexivity | exact IH]. Qed.

Lemma np_max_repeat_NaN (n : nat) : np_max (repeat NaN (S n)) = Ok NaN.
Proof. cbn [repeat np_max]. now rewrite fold_np_max2_NaN. Qed.

Lemma np_min_repeat_NaN (n : nat) : np_min (repeat NaN (S n)) = Ok NaN.
Proof. cbn [repeat np_min]. now rewrite fold_np_min2_NaN. Qed.

Lemma clip_NaN (u l : float) : Winsor.clip u l NaN = NaN.
Proof.
  unfold Winsor.clip, np_where, fgtb.
  replace (fltb u NaN) with false by (destruct u; reflexivity). reflexivity.
Qed.

(** With a NaN in the working series the moments and every rescaled value
    are NaN: the iteration neither leaves the loop nor adjusts a limit. *)
Lemma body_has_NaN (k : nat) (s : Winsor.state) :
  In NaN (Winsor.t s) ->
  Winsor.body k s =
  Ok (false,
      Winsor.mkState k (map (Winsor.clip (Winsor.upl s) (Winsor.lol s)) (Winsor.t s))
        (Winsor.upl s) (Winsor.lol s)
        (repeat NaN (length (Winsor.t s))) NaN NaN).
Proof.
  intros Hin. unfold Winsor.body.
  set (t' := map (Winsor.clip (Winsor.upl s) (Winsor.lol s)) (Winsor.t s)).
  assert (Hin' : In NaN t').
  { rewrite <- (clip_NaN (Winsor.upl s) (Winsor.lol s)). now apply in_map. }
  assert (Hne : t' <> []) by (intros E; rewrite E in Hin'; contradiction).
  assert (Hm : np_mean t' = NaN) by now apply np_mean_In_NaN.
  rewrite Hm, (np_std_mean_NaN t' Hne Hm).
  rewrite (map_const _ NaN) by (intros x _; now rewrite fsub_NaN_r).
  assert (Hlen : length t' = length (Winsor.t s)) by apply length_map.
  rewrite Hlen.
  destruct (Winsor.t s) as [|x0 t0] eqn:Et; [contradiction|].
  cbn [length]. rewrite np_max_repeat_NaN, np_min_repeat_NaN. reflexivity.
Qed.

Lemma for_range_cons (k : nat) (ks : list nat) (s : Winsor.state) :
  Winsor.for_range (k :: ks) s =
  (r <- Winsor.body k s ;;
   if fst r then Ok (snd r) else Winsor.for_range ks (snd r)).
Proof. reflexivity. Qed.

Lemma for_range_has_NaN (ks : list nat) (k0 : nat) (s : Winsor.state) :
  In NaN (Winsor.t s) ->
  exists t',
    Winsor.for_range (k0 :: ks) s =
    Ok (Winsor.mkState (last (k0 :: ks) 0%nat) t' (Winsor.upl s) (Winsor.lol s)
          (repeat NaN (length (Winsor.t s))) NaN NaN).
Proof.
  revert k0 s; induction ks as [|k ks IH]; intros k0 s Hin;
    rewrite for_range_cons, (body_has_NaN k0 s Hin); cbn [bind fst snd].
  - eexists; reflexivity.
  - edestruct (IH k) as [t' Ht'];
      [|rewrite Ht'; cbn [Winsor.t Winsor.upl Winsor.lol];
        rewrite length_map; eexists; reflexivity].
    cbn [Winsor.t]. rewrite <- (clip_NaN (Winsor.upl s) (Winsor.lol s)).
    now apply in_map.
Qed.

Lemma winsorize_has_NaN (col : list float) :
  In NaN (Winsor.t (Winsor.init col)) ->
  Winsor.winsorize col =
  Ok (Winsor.mkStored (repeat NaN (length col)) NaN NaN
        Winsor.threshold (fopp Winsor.threshold)).
Proof.
  intros Hin. unfold Winsor.winsorize, Winsor.run. rewrite iterations_succ.
  change (seq 1 (S (Z.to_nat 9999))) with (1%nat :: seq 2 (Z.to_nat 9999)).
  destruct (for_range_has_NaN (seq 2 (Z.to_nat 9999)) 1 _ Hin) as [t' ->].
  cbn [bind Winsor.w_var Winsor.mean_t Winsor.std_t Winsor.upl Winsor.lol
       Winsor.init Winsor.t].
  now rewrite length_map.
Qed.

(** One missing raw value is enough. *)
Lemma winsorize_missing_value (col : list float) :
  In NaN col ->
  Winsor.winsorize col =
  Ok (Winsor.mkStored (repeat NaN (length col)) NaN NaN
        Winsor.threshold (fopp Winsor.threshold)).
Proof.
  intros Hin. apply winsorize_has_NaN. cbn [Winsor.init Winsor.t].
  apply in_map_iff. exists NaN. split; [reflexivity | exact Hin].
Qed.

Lemma winsorize_zero_std (col : list float) :
  pd_std col = Fin 0 ->
  Winsor.winsorize col =
  Ok (Winsor.mkStored (repeat NaN (length col)) NaN NaN
        Winsor.threshold (fopp Winsor.threshold)).
Proof.
  intros H. apply winsorize_has_NaN. rewrite (init_zero_std col H).
  destruct (pd_std_zero col H) as [Hne _].
  now apply In_repeat_length.
Qed.

(** C9 (as amended). When the values present in a column have sample
    standard deviation zero, [winsorize] raises nothing and signals nothing:
    it returns normally with a stored result. *)
Theorem winsorize_zero_std_silent (col : list float) :
  pd_std col = Fin 0 -> exists r, Winsor.winsorize col = Ok r.
Proof. intros H. rewrite (winsorize_zero_std col H). eauto. Qed.

Ltac INR_to_IZR :=
  rewrite ?INR_IZR_INZ;
  repeat match goal with
  | |- context [Z.of_nat ?n] =>
      let z := eval vm_compute in (Z.of_nat n) in change (Z.of_nat n) with z
  end.

Lemma fsqrt_Fin_zero (e : R) : e = 0 -> fsqrt (Fin e) = Fin 0.
Proof.
  intros ->. cbn. rewrite Rltb_false by lra. now rewrite sqrt_0.
Qed.

Lemma pd_std_two_equal : pd_std [Fin 5; Fin 5] = Fin 0.
Proof.
  unfold pd_std, dropna. cbn [filter notna isna negb length Nat.leb Nat.sub].
  unfold np_mean, sum_sq_dev, fsum, of_nat.
  cbn [fold_left fadd length]. INR_to_IZR.
  rewrite fdiv_Fin by lra.
  cbn [map fsub fopp fadd fsquare fmul fold_left].
  rewrite fdiv_Fin by lra.
  apply fsqrt_Fin_zero. lra.
Qed.

Lemma winsorize_zero_std_silent_witness :
  exists r, Winsor.winsorize [Fin 5; Fin 5] = Ok r.
Proof.
  exact (winsorize_zero_std_silent [Fin 5; Fin 5] pd_std_two_equal).
Defined.

(** C9, the claim as stated fails: two facilities with the same raw value
    have standard deviation zero, and [winsorize] returns normally with NaN
    scores instead of failing. *)
Lemma winsorize_zero_std_returns_nan :
  pd_std [Fin 5; Fin 5] = Fin 0 /\
  Winsor.winsorize [Fin 5; Fin 5] =
  Ok (Winsor.mkStored [NaN; NaN] NaN NaN Winsor.threshold (fopp Winsor.threshold)).
Proof.
  split; [exact pd_std_two_equal|].
  exact (winsorize_zero_std [Fin 5; Fin 5] pd_std_two_equal).
Qed.

(** *** Clipping to nested limits *)

Lemma clip_clip (U L x : float) (u l : R) :
  fle (Fin u) U -> fle L (Fin l) -> l <= u ->
  Winsor.clip (Fin u) (Fin l) (Winsor.clip U L x) = Winsor.clip (Fin u) (Fin l) x.
Proof.
  intros HU HL Hlu. unfold Winsor.clip, np_where, fgtb.
  destruct x as [x| | |], U as [U| | |], L as [L| | |];
    unfold fle in *; cbn [fltb fleb] in *; try discriminate;
    repeat match goal with
    | H : Rleb ?a ?b = true |- _ => destruct (Rleb_spec a b); [clear H|discriminate]
    end;
    repeat (match goal with
            | |- context [Rltb ?a ?b] => destruct (Rltb_spec a b)
            end; cbn [fltb]);
    try reflexivity; try (exfalso; lra); try (f_equal; lra).
Qed.

Lemma clip_idem (u l : R) (x : float) :
  l <= u ->
  Winsor.clip (Fin u) (Fin l) (Winsor.clip (Fin u) (Fin l) x)
  = Winsor.clip (Fin u) (Fin l) x.
Proof.
  intros H. apply clip_clip; [| |exact H]; unfold fle; cbn [fleb];
    apply Rleb_true; lra.
Qed.

Lemma clip_unbounded (x : float) : Winsor.clip PInf NInf x = x.
Proof. destruct x; reflexivity. Qed.

Lemma init_clipped_from (col : list float) :
  clipped_from (Winsor.t (Winsor.init col)) (Winsor.init col).
Proof.
  exists PInf, NInf. split; [|split; reflexivity].
  rewrite <- (map_id (Winsor.t (Winsor.init col))) at 1.
  apply map_ext. intros x. now rewrite clip_unbounded.
Qed.

(** *** An iteration that neither leaves nor adjusts repeats forever *)

(** The outcome of an iteration depends on the state only through the
    clipped series and the limits. *)
Lemma body_same (k k' : nat) (s1 s2 : Winsor.state) (s1' : Winsor.state)
    (brk : bool) :
  map (Winsor.clip (Winsor.upl s2) (Winsor.lol s2)) (Winsor.t s2) =
  map (Winsor.clip (Winsor.upl s1) (Winsor.lol s1)) (Winsor.t s1) ->
  Winsor.upl s2 = Winsor.upl s1 -> Winsor.lol s2 = Winsor.lol s1 ->
  Winsor.body k s1 = Ok (brk, s1') ->
  Winsor.body k' s2 =
  Ok (brk, Winsor.mkState k' (Winsor.t s1') (Winsor.upl s1') (Winsor.lol s1')
             (Winsor.w_var s1') (Winsor.mean_t s1') (Winsor.std_t s1')).
Proof.
  intros Et Eu El. unfold Winsor.body. rewrite Et, Eu, El.
  destruct (np_max _) as [mx|e]; cbn [bind]; [|discriminate].
  destruct (np_min _) as [mn|e]; cbn [bind]; [|discriminate].
  destruct (Winsor.converged mx mn); intros H; inversion H; subst; reflexivity.
Qed.

Lemma stuck_after_idle (k k' : nat) (s s1 : Winsor.state) (u l : R) :
  Winsor.body k s = Ok (false, s1) ->
  Winsor.upl s = Fin u -> Winsor.lol s = Fin l -> l <= u ->
  Winsor.upl s1 = Fin u -> Winsor.lol s1 = Fin l ->
  Winsor.body k' s1 =
  Ok (false, Winsor.mkState k' (Winsor.t s1) (Winsor.upl s1) (Winsor.lol s1)
               (Winsor.w_var s1) (Winsor.mean_t s1) (Winsor.std_t s1)).
Proof.
  intros Hb Hu Hl Hlu Hu1 Hl1.
  destruct (body_inv _ _ _ _ Hb) as [_ [_ [_ [_ [_ [_ [Ht1 _]]]]]]].
  apply (body_same k k' s s1 s1 false); [|congruence|congruence|exact Hb].
  rewrite Hu1, Hl1, Hu, Hl, Ht1, Hu, Hl, map_map.
  apply map_ext. intros x. now apply clip_idem.
Qed.

Lemma for_range_stuck (ks : list nat) (s1 sf : Winsor.state) :
  (forall k' i0 w0 m0 sd0,
     Winsor.body k' (Winsor.mkState i0 (Winsor.t s1) (Winsor.upl s1)
                       (Winsor.lol s1) w0 m0 sd0) =
     Ok (false, Winsor.mkState k' (Winsor.t s1) (Winsor.upl s1) (Winsor.lol s1)
                  (Winsor.w_var s1) (Winsor.mean_t s1) (Winsor.std_t s1))) ->
  Winsor.for_range ks s1 = Ok sf ->
  Winsor.t sf = Winsor.t s1 /\ Winsor.w_var sf = Winsor.w_var s1 /\
  Winsor.mean_t sf = Winsor.mean_t s1 /\ Winsor.std_t sf = Winsor.std_t s1 /\
  Winsor.upl sf = Winsor.upl s1 /\ Winsor.lol sf = Winsor.lol s1.
Proof.
  revert s1; induction ks as [|k' ks IH]; intros s1 Hst H.
  - inversion H; subst. tauto.
  - rewrite for_range_cons in H.
    assert (Hb : Winsor.body k' s1 = Ok (false,
                Winsor.mkState k' (Winsor.t s1) (Winsor.upl s1) (Winsor.lol s1)
                  (Winsor.w_var s1) (Winsor.mean_t s1) (Winsor.std_t s1))).
    { destruct s1; apply Hst. }
    rewrite Hb in H. cbn [bind fst snd] in H.
    apply IH in H; [exact H|].
    intros k'' i0 w0 m0 sd0. cbn. apply Hst.
Qed.

Lemma body_ignores (k i0 i1 : nat) (t0 w0 w1 : list float)
    (u0 l0 m0 m1 sd0 sd1 : float) :
  Winsor.body k (Winsor.mkState i0 t0 u0 l0 w0 m0 sd0) =
  Winsor.body k (Winsor.mkState i1 t0 u0 l0 w1 m1 sd1).
Proof. reflexivity. Qed.

(** *** The stored series is the single clip of the initial z-scores *)

Lemma clipped_step (z0 : list float) (s : Winsor.state) (u l : R) :
  clipped_from z0 s ->
  Winsor.upl s = Fin u -> Winsor.lol s = Fin l -> l <= u ->
  map (Winsor.clip (Winsor.upl s) (Winsor.lol s)) (Winsor.t s) =
  map (Winsor.clip (Fin u) (Fin l)) z0.
Proof.
  intros [U [L [Ht [HU HL]]]] Hu Hl Hlu.
  rewrite Ht, Hu, Hl, map_map. rewrite Hu in HU. rewrite Hl in HL.
  apply map_ext. intros x. now apply clip_clip.
Qed.

Lemma for_range_single_clip (z0 : list float) (ks : list nat)
    (s sf : Winsor.state) (u l uf lf : R) :
  Winsor.for_range ks s = Ok sf ->
  Winsor.upl s = Fin u -> Winsor.lol s = Fin l -> clipped_from z0 s ->
  Winsor.upl sf = Fin uf -> Winsor.lol sf = Fin lf -> lf <= uf ->
  single_clip z0 sf \/ uf - lf <= (u - l) - INR (length ks) / 1000.
Proof.
  revert s u l; induction ks as [|k ks IH]; intros s u l H Hu Hl Hc Huf Hlf Hf.
  - inversion H; subst sf. right. cbn [length INR].
    rewrite Hu in Huf. rewrite Hl in Hlf.
    injection Huf as <-. injection Hlf as <-. lra.
  - assert (Hlu : l <= u).
    { destruct (for_range_limits _ _ _ _ _ H Hu Hl) as [u' [l' [E1 [E2 [B1 B2]]]]].
      rewrite Huf in E1. rewrite Hlf in E2.
      injection E1 as <-. injection E2 as <-. lra. }
    rewrite for_range_cons in H.
    destruct (Winsor.body k s) as [[brk s1]|e] eqn:Eb; cbn [bind fst snd] in H;
      [|discriminate].
    destruct (body_inv _ _ _ _ Eb)
      as [mx [mn [_ [_ [_ [_ [Ht1 [Hw1 [Hm1 [Hsd1 [Hu1 Hl1]]]]]]]]]]].
    rewrite (clipped_step z0 s u l Hc Hu Hl Hlu) in Ht1.
    assert (Hw1' : Winsor.w_var s1 =
              map (fun x => fdiv (fsub x (Winsor.mean_t s1)) (Winsor.std_t s1))
                  (Winsor.t s1)).
    { rewrite Hw1, Hm1, Hsd1, Ht1.
      now rewrite (clipped_step z0 s u l Hc Hu Hl Hlu). }
    rewrite Hu in Hu1. rewrite Hl in Hl1.
    destruct brk.
    + inversion H; subst sf. left. split; [|exact Hw1'].
      now rewrite Hu1, Hl1.
    + unfold Winsor.adjust_upl in Hu1. unfold Winsor.adjust_lol in Hl1.
      destruct (fgtb mx Winsor.threshold) eqn:Eu;
        destruct (fltb mn (fopp Winsor.threshold)) eqn:El;
        cbn [Winsor.step fsub fadd fopp] in Hu1, Hl1.
      4:{ (* no adjustment: the state repeats *)
          left.
          assert (Hst : forall k' i0 w0 m0 sd0,
                    Winsor.body k' (Winsor.mkState i0 (Winsor.t s1) (Winsor.upl s1)
                                      (Winsor.lol s1) w0 m0 sd0) =
                    Ok (false, Winsor.mkState k' (Winsor.t s1) (Winsor.upl s1)
                                 (Winsor.lol s1) (Winsor.w_var s1)
                                 (Winsor.mean_t s1) (Winsor.std_t s1))).
          { intros k' i0 w0 m0 sd0.
            rewrite <- (stuck_after_idle k k' s s1 u l Eb Hu Hl Hlu Hu1 Hl1).
            destruct s1. apply body_ignores. }
          destruct (for_range_stuck ks s1 sf Hst H)
            as [E1 [E2 [E3 [E4 [E5 E6]]]]].
          split.
          - rewrite E1, E5, E6, Hu1, Hl1. exact Ht1.
          - rewrite E2, E3, E4, E1. exact Hw1'. }
      all: assert (Hc1 : clipped_from z0 s1)
          by (exists (Fin u), (Fin l); split; [exact Ht1|];
              rewrite Hu1, Hl1; unfold fle; cbn [fleb];
              split; apply Rleb_true; lra);
        destruct (IH _ _ _ H Hu1 Hl1 Hc1 Huf Hlf Hf) as [Hs|Hs];
        [left; exact Hs | right; cbn [length]; rewrite S_INR; lra].
Qed.

Lemma INR_iterations : INR Winsor.iterations = 10000.
Proof.
  unfold Winsor.iterations. rewrite INR_IZR_INZ, Z2Nat.id by lia. reflexivity.
Qed.

Lemma run_single_clip (col : list float) (sf : Winsor.state) (uf lf : R) :
  Winsor.run col = Ok sf ->
  Winsor.upl sf = Fin uf -> Winsor.lol sf = Fin lf -> lf <= uf ->
  single_clip (Winsor.t (Winsor.init col)) sf.
Proof.
  intros H Hu Hl Hf.
  destruct (for_range_single_clip _ _ _ _ (258/100) (-(258/100)) uf lf H
              eq_refl eq_refl (init_clipped_from col) Hu Hl Hf) as [Hs|Hs];
    [exact Hs|].
  exfalso. rewrite length_seq, INR_iterations in Hs. lra.
Qed.

(** *** CurrentPeriodApplier against the calibration *)

Lemma truncate_is_clip (x u l : float) :
  Current.truncate (Current.flag_of x u l) x u l = Winsor.clip u l x.
Proof.
  unfold Current.truncate, Current.flag_of, Winsor.clip, np_where.
  destruct (fgtb x u); [reflexivity|].
  unfold notna. destruct x; cbn [isna negb andb fltb]; try reflexivity;
    destruct l; cbn [fltb]; try reflexivity.
  destruct (Rltb x x0); reflexivity.
Qed.

Lemma insert_by_provfs_perm (o : Current.out_row) (l : list Current.out_row) :
  Permutation (Current.insert_by_provfs o l) (o :: l).
Proof.
  induction l as [|y l IH]; cbn; [reflexivity|].
  destruct (Current.o_provfs o <=? Current.o_provfs y)%Z; [reflexivity|].
  rewrite IH. apply perm_swap.
Qed.

Lemma sort_values_provfs_perm (l : list Current.out_row) :
  Permutation (Current.sort_values_provfs l) l.
Proof.
  induction l as [|x l IH]; cbn; [reflexivity|].
  rewrite insert_by_provfs_perm. now constructor.
Qed.

Lemma combine_map_map {A B C} (f : A -> B) (g : A -> C) (l : list A) :
  combine (map f l) (map g l) = map (fun x => (f x, g x)) l.
Proof. induction l as [|x l IH]; cbn; [reflexivity | now rewrite IH]. Qed.

(** C4 (as amended). When the limits frozen by the calibration have not
    crossed (lower limit at most the upper limit), re-standardizing the same
    raw values with the calibration's mean, standard deviation, limits and
    truncated moments gives every facility the winsorized score of the
    calibration. *)
Theorem restandardize_reproduces_baseline (rows : list Current.row)
    (r : Winsor.stored) (u l : R) :
  Winsor.winsorize (map Current.var rows) = Ok r ->
  Winsor.upl_ r = Fin u -> Winsor.lol_ r = Fin l -> l <= u ->
  Permutation
    (current_scores
       (Current.restandardize_var rows
          (pd_mean (map Current.var rows)) (pd_std (map Current.var rows))
          (Winsor.upl_ r) (Winsor.lol_ r)
          (Winsor.var_mean_t r) (Winsor.var_std_t r)))
    (baseline_scores rows r).
Proof.
  intros Hw Hu Hl Hlu. unfold current_scores, baseline_scores.
  unfold Winsor.winsorize in Hw.
  destruct (Winsor.run (map Current.var rows)) as [sf|e] eqn:Hrun;
    cbn [bind] in Hw; [|discriminate].
  injection Hw as <-. cbn [Winsor.upl_ Winsor.lol_ Winsor.w_ Winsor.var_mean_t
                          Winsor.var_std_t] in *.
  destruct (run_single_clip _ _ _ _ Hrun Hu Hl Hlu) as [Ht Hwv].
  unfold Current.restandardize_var.
  rewrite sort_values_provfs_perm.
  rewrite Hwv, Ht. cbn [Winsor.init Winsor.t].
  rewrite !map_map, combine_map_map.
  apply Permutation_refl'. apply map_ext. intros row.
  unfold Current.restandardize_row. cbn [Current.o_provfs Current.wc].
  now rewrite truncate_is_clip.
Qed.

(** ** Lists of the shape [tri] *)

Lemma map_tri {A B} (f : A -> B) (a : A) (n : nat) (b c : A) :
  map f (tri a n b c) = tri (f a) n (f b) (f c).
Proof. unfold tri. cbn [map]. now rewrite map_app, map_repeat'. Qed.

Lemma length_tri {A} (a : A) (n : nat) (b c : A) :
  length (tri a n b c) = S (S n).
Proof. unfold tri. cbn [length]. rewrite length_app, repeat_length. cbn. lia. Qed.

Lemma fold_fadd_repeat (b acc : R) (n : nat) :
  fold_left fadd (repeat (Fin b) n) (Fin acc) = Fin (acc + INR n * b).
Proof.
  revert acc; induction n as [|n IH]; intros acc.
  - cbn. f_equal. lra.
  - rewrite repeat_S_cons. cbn [fold_left fadd]. rewrite IH, S_INR. f_equal. lra.
Qed.

Lemma fsum_tri (a : R) (n : nat) (b c : R) :
  fsum (tri (Fin a) n (Fin b) (Fin c)) = Fin (a + INR n * b + c).
Proof.
  unfold fsum, tri. cbn [fold_left fadd]. rewrite fold_left_app, fold_fadd_repeat.
  cbn. f_equal. lra.
Qed.

Lemma INR_plus2_pos (n : nat) : 0 < INR n + 2.
Proof. pose proof (pos_INR n). lra. Qed.

Lemma np_mean_tri (a : R) (n : nat) (b c : R) :
  np_mean (tri (Fin a) n (Fin b) (Fin c)) = Fin (tri_mean a n b c).
Proof.
  unfold np_mean, of_nat. rewrite fsum_tri, length_tri, !S_INR.
  pose proof (INR_plus2_pos n).
  rewrite fdiv_Fin by lra. unfold tri_mean.
  replace (INR n + 1 + 1) with (INR n + 2) by lra. reflexivity.
Qed.

Lemma sum_sq_dev_tri (a : R) (n : nat) (b c m : R) :
  sum_sq_dev (tri (Fin a) n (Fin b) (Fin c)) (Fin m) =
  Fin ((a - m) * (a - m) + INR n * ((b - m) * (b - m)) + (c - m) * (c - m)).
Proof.
  unfold sum_sq_dev. rewrite map_tri. cbn [fsub fopp fadd fsquare fmul].
  rewrite fsum_tri. reflexivity.
Qed.

Lemma sq_nonneg (x : R) : 0 <= x * x.
Proof. exact (Rle_0_sqr x). Qed.

Lemma tri_var_nonneg (a : R) (n : nat) (b c : R) : 0 <= tri_var a n b c.
Proof.
  unfold tri_var. cbv zeta. generalize (tri_mean a n b c). intros m.
  pose proof (INR_plus2_pos n) as Hn. pose proof (pos_INR n) as Hn0.
  pose proof (sq_nonneg (a - m)) as Ha.
  pose proof (sq_nonneg (b - m)) as Hb.
  pose proof (sq_nonneg (c - m)) as Hc.
  assert (Hnb : 0 <= INR n * ((b - m) * (b - m)))
    by (apply Rmult_le_pos; assumption).
  unfold Rdiv. apply Rle_mult_inv_pos; lra.
Qed.

Lemma np_std_tri (a : R) (n : nat) (b c : R) :
  np_std (tri (Fin a) n (Fin b) (Fin c)) = Fin (sqrt (tri_var a n b c)).
Proof.
  unfold np_std, of_nat. rewrite np_mean_tri, sum_sq_dev_tri, length_tri, !S_INR.
  pose proof (INR_plus2_pos n).
  rewrite fdiv_Fin by lra.
  replace (INR n + 1 + 1) with (INR n + 2) by lra.
  fold (tri_var a n b c).
  cbn [fsqrt]. rewrite Rltb_false; [reflexivity|].
  pose proof (tri_var_nonneg a n b c). lra.
Qed.

(** Extrema. *)
Lemma np_max2_Fin (x y : R) : np_max2 (Fin x) (Fin y) = Fin (Rmax x y).
Proof.
  unfold np_max2. cbn [isna fltb]. unfold Rmax.
  destruct (Rltb_spec x y), (Rle_dec x y); try reflexivity;
    try (exfalso; lra); try (f_equal; lra).
Qed.

Lemma np_min2_Fin (x y : R) : np_min2 (Fin x) (Fin y) = Fin (Rmin x y).
Proof.
  unfold np_min2. cbn [isna fltb]. unfold Rmin.
  destruct (Rltb_spec y x), (Rle_dec x y); try reflexivity;
    try (exfalso; lra); try (f_equal; lra).
Qed.

Lemma fold_np_max2_repeat (acc y : R) (n : nat) :
  fold_left np_max2 (repeat (Fin y) (S n)) (Fin acc) = Fin (Rmax acc y).
Proof.
  revert acc; induction n as [|n IH]; intros acc.
  - cbn. apply np_max2_Fin.
  - rewrite repeat_S_cons. cbn [fold_left]. rewrite np_max2_Fin, IH.
    f_equal. unfold Rmax. repeat destruct (Rle_dec _ _); lra.
Qed.

Lemma fold_np_min2_repeat (acc y : R) (n : nat) :
  fold_left np_min2 (repeat (Fin y) (S n)) (Fin acc) = Fin (Rmin acc y).
Proof.
  revert acc; induction n as [|n IH]; intros acc.
  - cbn. apply np_min2_Fin.
  - rewrite repeat_S_cons. cbn [fold_left]. rewrite np_min2_Fin, IH.
    f_equal. unfold Rmin. repeat destruct (Rle_dec _ _); lra.
Qed.

Lemma np_max_tri (x : R) (n : nat) (y z : R) :
  np_max (tri (Fin x) (S n) (Fin y) (Fin z)) = Ok (Fin (Rmax (Rmax x y) z)).
Proof.
  unfold tri. cbn [np_max]. rewrite fold_left_app, fold_np_max2_repeat.
  cbn [fold_left]. now rewrite np_max2_Fin.
Qed.

Lemma np_min_tri (x : R) (n : nat) (y z : R) :
  np_min (tri (Fin x) (S n) (Fin y) (Fin z)) = Ok (Fin (Rmin (Rmin x y) z)).
Proof.
  unfold tri. cbn [np_min]. rewrite fold_left_app, fold_np_min2_repeat.
  cbn [fold_left]. now rewrite np_min2_Fin.
Qed.

Lemma clip_Fin (u l x : R) :
  Winsor.clip (Fin u) (Fin l) (Fin x) = Fin (clipR u l x).
Proof.
  unfold Winsor.clip, np_where, fgtb, clipR. cbn [fltb].
  destruct (Rltb u x); [reflexivity|]. destruct (Rltb x l); reflexivity.
Qed.

Lemma rescale_Fin (x m sd : R) :
  sd <> 0 -> fdiv (fsub (Fin x) (Fin m)) (Fin sd) = Fin ((x - m) / sd).
Proof. intros H. rewrite fsub_Fin. now apply fdiv_Fin. Qed.

(** One iteration on a state whose series has the shape [tri], when the
    clipped series still varies. *)
Lemma body_tri (k : nat) (s : Winsor.state) (a b c u l : R) (n : nat) :
  Winsor.t s = tri (Fin a) (S n) (Fin b) (Fin c) ->
  Winsor.upl s = Fin u -> Winsor.lol s = Fin l ->
  let a' := clipR u l a in
  let b' := clipR u l b in
  let c' := clipR u l c in
  let m := tri_mean a' (S n) b' c' in
  let sd := sqrt (tri_var a' (S n) b' c') in
  let wa := (a' - m) / sd in
  let wb := (b' - m) / sd in
  let wc := (c' - m) / sd in
  let mx := Fin (Rmax (Rmax wa wb) wc) in
  let mn := Fin (Rmin (Rmin wa wb) wc) in
  0 < tri_var a' (S n) b' c' ->
  Winsor.body k s =
  Ok (Winsor.converged mx mn,
      Winsor.mkState k (tri (Fin a') (S n) (Fin b') (Fin c'))
        (if Winsor.converged mx mn then Fin u else Winsor.adjust_upl mx (Fin u))
        (if Winsor.converged mx mn then Fin l else Winsor.adjust_lol mn (Fin l))
        (tri (Fin wa) (S n) (Fin wb) (Fin wc)) (Fin m) (Fin sd)).
Proof.
  intros Ht Hu Hl a' b' c' m sd wa wb wc mx mn HV.
  assert (Hsd : sd <> 0).
  { unfold sd. pose proof (sqrt_lt_R0 _ HV). lra. }
  unfold Winsor.body. rewrite Ht, Hu, Hl, map_tri, !clip_Fin.
  fold a' b' c'. rewrite np_mean_tri, np_std_tri. fold m sd.
  rewrite map_tri, !rescale_Fin by exact Hsd. fold wa wb wc.
  rewrite np_max_tri, np_min_tri. cbn [bind]. fold mx mn.
  destruct (Winsor.converged mx mn); reflexivity.
Qed.

(** One iteration when the clip makes all entries equal: the deviation is
    zero, every rescaled entry is 0/0, and nothing is adjusted. *)
Lemma tri_mean_flat (y : R) (n : nat) : tri_mean y n y y = y.
Proof.
  unfold tri_mean. pose proof (INR_plus2_pos n). field. lra.
Qed.

Lemma tri_var_flat (y : R) (n : nat) : tri_var y n y y = 0.
Proof.
  unfold tri_var. cbv zeta. rewrite tri_mean_flat.
  pose proof (INR_plus2_pos n). field. lra.
Qed.

Lemma np_max_tri_NaN (n : nat) : np_max (tri NaN n NaN NaN) = Ok NaN.
Proof. unfold tri. cbn [np_max]. now rewrite fold_np_max2_NaN. Qed.

Lemma np_min_tri_NaN (n : nat) : np_min (tri NaN n NaN NaN) = Ok NaN.
Proof. unfold tri. cbn [np_min]. now rewrite fold_np_min2_NaN. Qed.

Lemma body_tri_flat (k : nat) (s : Winsor.state) (a b c u l y : R) (n : nat) :
  Winsor.t s = tri (Fin a) (S n) (Fin b) (Fin c) ->
  Winsor.upl s = Fin u -> Winsor.lol s = Fin l ->
  clipR u l a = y -> clipR u l b = y -> clipR u l c = y ->
  Winsor.body k s =
  Ok (false,
      Winsor.mkState k (tri (Fin y) (S n) (Fin y) (Fin y)) (Fin u) (Fin l)
        (tri NaN (S n) NaN NaN) (Fin y) (Fin 0)).
Proof.
  intros Ht Hu Hl Ha Hb Hc.
  unfold Winsor.body. rewrite Ht, Hu, Hl, map_tri, !clip_Fin, Ha, Hb, Hc.
  rewrite np_mean_tri, np_std_tri, tri_mean_flat, tri_var_flat, sqrt_0.
  rewrite map_tri.
  assert (E : fdiv (fsub (Fin y) (Fin y)) (Fin 0) = NaN).
  { cbn [fsub fopp fadd fdiv]. rewrite Reqb_true by reflexivity.
    unfold inf_signed. now rewrite !Rltb_false by lra. }
  rewrite E, np_max_tri_NaN, np_min_tri_NaN. reflexivity.
Qed.

(** ** Comparing a rescaled value with the threshold *)

Lemma sqrt_pos_sq (V : R) : 0 < V -> 0 < sqrt V /\ sqrt V * sqrt V = V.
Proof.
  intros H. split; [now apply sqrt_lt_R0 | apply sqrt_sqrt; lra].
Qed.

Lemma quot_gt (x V c : R) :
  0 < V -> 0 < x -> 0 <= c -> c * c * V < x * x -> c < x / sqrt V.
Proof.
  intros HV Hx Hc H. destruct (sqrt_pos_sq V HV) as [Hs Hss].
  apply (Rmult_lt_reg_r (sqrt V)); [exact Hs|].
  unfold Rdiv. rewrite Rmult_assoc, Rinv_l, Rmult_1_r by lra.
  destruct (Rlt_le_dec (c * sqrt V) x) as [Hlt|Hle]; [exact Hlt|exfalso].
  assert (x * x <= (c * sqrt V) * (c * sqrt V)).
  { apply Rmult_le_compat; lra. }
  replace ((c * sqrt V) * (c * sqrt V)) with (c * c * (sqrt V * sqrt V)) in * by ring.
  rewrite Hss in *. lra.
Qed.

Lemma quot_le (x V c : R) :
  0 < V -> 0 <= c -> x * x <= c * c * V -> x / sqrt V <= c.
Proof.
  intros HV Hc H. destruct (sqrt_pos_sq V HV) as [Hs Hss].
  apply (Rmult_le_reg_r (sqrt V)); [exact Hs|].
  unfold Rdiv. rewrite Rmult_assoc, Rinv_l, Rmult_1_r by lra.
  destruct (Rle_lt_dec x (c * sqrt V)) as [Hle|Hlt]; [exact Hle|exfalso].
  assert (0 <= c * sqrt V) by (apply Rmult_le_pos; lra).
  assert ((c * sqrt V) * (c * sqrt V) < x * x).
  { apply Rmult_le_0_lt_compat; lra. }
  replace ((c * sqrt V) * (c * sqrt V)) with (c * c * (sqrt V * sqrt V)) in * by ring.
  rewrite Hss in *. lra.
Qed.

Lemma quot_lt_neg (x V c : R) :
  0 < V -> x < 0 -> 0 <= c -> c * c * V < x * x -> x / sqrt V < - c.
Proof.
  intros HV Hx Hc H.
  assert (Hq : c < (- x) / sqrt V).
  { apply quot_gt; lra. }
  unfold Rdiv in *. lra.
Qed.

Lemma quot_ge_neg (x V c : R) :
  0 < V -> 0 <= c -> x * x <= c * c * V -> - c <= x / sqrt V.
Proof.
  intros HV Hc H.
  assert (Hq : (- x) / sqrt V <= c).
  { apply quot_le; lra. }
  unfold Rdiv in *. lra.
Qed.

Lemma quot_mono (x y V : R) : 0 < V -> x <= y -> x / sqrt V <= y / sqrt V.
Proof.
  intros HV H. destruct (sqrt_pos_sq V HV) as [Hs _].
  unfold Rdiv. apply Rmult_le_compat_r; [|exact H].
  left. now apply Rinv_0_lt_compat.
Qed.

Lemma Rmax3_sorted (x y z : R) : x <= y -> y <= z -> Rmax (Rmax x y) z = z.
Proof. intros. rewrite (Rmax_right x y), Rmax_right; lra. Qed.

Lemma Rmin3_sorted (x y z : R) : x <= y -> y <= z -> Rmin (Rmin x y) z = x.
Proof. intros. rewrite (Rmin_left x y), Rmin_left; lra. Qed.

(** ** The calibration of [two_tailed] *)

Lemma dropna_tri_Fin (a : R) (n : nat) (b c : R) :
  dropna (tri (Fin a) n (Fin b) (Fin c)) = tri (Fin a) n (Fin b) (Fin c).
Proof.
  unfold dropna, tri. cbn [filter notna isna negb]. f_equal.
  rewrite filter_app. cbn [filter notna isna negb]. f_equal.
  induction n as [|n IH]; [reflexivity|]. cbn [repeat filter notna isna negb].
  now rewrite IH.
Qed.

Lemma two_tailed_mean : pd_mean two_tailed = Fin 0.
Proof.
  unfold pd_mean, two_tailed. rewrite dropna_tri_Fin, np_mean_tri.
  f_equal. unfold tri_mean. INR_to_IZR. lra.
Qed.

Lemma two_tailed_std : pd_std two_tailed = Fin 113723.
Proof.
  unfold pd_std, two_tailed. rewrite dropna_tri_Fin, length_tri.
  cbn [Nat.leb Nat.sub]. rewrite np_mean_tri, sum_sq_dev_tri.
  unfold of_nat. INR_to_IZR. rewrite fdiv_Fin by lra.
  cbn [fsqrt]. 
  assert (E : tri_mean (-340616) 17 (-65) 341721 = 0).
  { unfold tri_mean. INR_to_IZR. lra. }
  rewrite E.
  replace ((-340616 - 0) * (-340616 - 0) + 17 * ((-65 - 0) * (-65 - 0)) +
           (341721 - 0) * (341721 - 0)) with (113723 * 113723 * 18) by lra.
  replace (113723 * 113723 * 18 / 18) with (113723 * 113723) by lra.
  rewrite Rltb_false by lra. f_equal. apply sqrt_square. lra.
Qed.

Lemma two_tailed_init :
  Winsor.init two_tailed =
  Winsor.mkState 0 (tri (Fin low_z) 17 (Fin bulk_z) (Fin high_z))
    Winsor.threshold (fopp Winsor.threshold) [] NaN NaN.
Proof.
  unfold Winsor.init. rewrite two_tailed_mean, two_tailed_std.
  unfold two_tailed. rewrite map_tri, !rescale_Fin by lra.
  unfold low_z, bulk_z, high_z.
  repeat (f_equal; try lra).
Qed.

Lemma clipR_low (u l x : R) : x <= l -> l <= u -> clipR u l x = l.
Proof.
  intros H1 H2. unfold clipR. rewrite Rltb_false by lra.
  destruct (Rltb_spec x l); lra.
Qed.

Lemma clipR_high (u l x : R) : u <= x -> l <= u -> clipR u l x = u.
Proof.
  intros H1 H2. unfold clipR. destruct (Rltb_spec u x); [reflexivity|].
  rewrite Rltb_false by lra. lra.
Qed.

Lemma clipR_mid (u l x : R) : l <= x -> x <= u -> clipR u l x = x.
Proof.
  intros H1 H2. unfold clipR. now rewrite !Rltb_false by lra.
Qed.

(** Decisions of one iteration from the signs of two polynomials. *)
Lemma decide_both (wa wc : R) :
  258/100 < wc -> wa < -(258/100) ->
  Winsor.converged (Fin wc) (Fin wa) = false /\
  Winsor.adjust_upl (Fin wc) = (fun u => fsub u Winsor.step) /\
  Winsor.adjust_lol (Fin wa) = (fun l => fadd l Winsor.step).
Proof.
  intros H1 H2. unfold Winsor.converged, Winsor.adjust_upl, Winsor.adjust_lol,
    fgtb, fgeb, Winsor.threshold. cbn [fleb fltb fopp].
  rewrite (Rleb_false wc) by lra. rewrite !Rltb_true by lra.
  repeat split.
Qed.

Lemma decide_upper (wa wc : R) :
  258/100 < wc -> -(258/100) <= wa ->
  Winsor.converged (Fin wc) (Fin wa) = false /\
  Winsor.adjust_upl (Fin wc) = (fun u => fsub u Winsor.step) /\
  Winsor.adjust_lol (Fin wa) = (fun l => l).
Proof.
  intros H1 H2. unfold Winsor.converged, Winsor.adjust_upl, Winsor.adjust_lol,
    fgtb, fgeb, Winsor.threshold. cbn [fleb fltb fopp].
  rewrite (Rleb_false wc) by lra. rewrite Rltb_true, Rltb_false by lra.
  repeat split.
Qed.

(** A sorted clipped series: the extrema are at the two ends. *)
Lemma body_tri_sorted (k : nat) (s : Winsor.state) (a b c u l : R) (n : nat) :
  Winsor.t s = tri (Fin a) (S n) (Fin b) (Fin c) ->
  Winsor.upl s = Fin u -> Winsor.lol s = Fin l ->
  let a' := clipR u l a in
  let b' := clipR u l b in
  let c' := clipR u l c in
  let m := tri_mean a' (S n) b' c' in
  let V := tri_var a' (S n) b' c' in
  a' <= b' -> b' <= c' -> 0 < V ->
  exists w,
  Winsor.body k s =
  Ok (Winsor.converged (Fin ((c' - m) / sqrt V)) (Fin ((a' - m) / sqrt V)),
      Winsor.mkState k (tri (Fin a') (S n) (Fin b') (Fin c'))
        (if Winsor.converged (Fin ((c' - m) / sqrt V)) (Fin ((a' - m) / sqrt V))
         then Fin u
         else Winsor.adjust_upl (Fin ((c' - m) / sqrt V)) (Fin u))
        (if Winsor.converged (Fin ((c' - m) / sqrt V)) (Fin ((a' - m) / sqrt V))
         then Fin l
         else Winsor.adjust_lol (Fin ((a' - m) / sqrt V)) (Fin l))
        w (Fin m) (Fin (sqrt V))).
Proof.
  intros Ht Hu Hl a' b' c' m V Hab Hbc HV.
  pose proof (body_tri k s a b c u l n Ht Hu Hl HV) as Hb. cbv zeta in Hb.
  fold a' b' c' in Hb. fold m V in Hb.
  rewrite Rmax3_sorted, Rmin3_sorted in Hb
    by (apply quot_mono; [exact HV | lra]).
  eexists. exact Hb.
Qed.

(** *** Both limits close in, one step each per iteration *)

Lemma closing_mean (u : R) : tri_mean (- u) 17 bulk_z u = 17 * bulk_z / 19.
Proof. unfold tri_mean. INR_to_IZR. lra. Qed.

Lemma closing_poly (u : R) :
  4/1000 <= u ->
  let m := tri_mean (- u) 17 bulk_z u in
  let V := tri_var (- u) 17 bulk_z u in
  0 < V /\
  0 < u - m /\ (258/100) * (258/100) * V < (u - m) * (u - m) /\
  - u - m < 0 /\ (258/100) * (258/100) * V < (- u - m) * (- u - m).
Proof.
  intros Hu m V. unfold V, tri_var. cbv zeta. fold m.
  unfold m. rewrite closing_mean. INR_to_IZR. unfold bulk_z.
  pose proof (sq_nonneg (u - 4/1000)) as Hsq.
  repeat split; nra.
Qed.

Lemma bulk_z_bounds : -(6/10000) < bulk_z < -(5/10000).
Proof. unfold bulk_z. lra. Qed.

Lemma closing_in_step (k : nat) (s : Winsor.state) (u : R) :
  closing_in u s -> 4/1000 <= u ->
  exists s', Winsor.body k s = Ok (false, s') /\ closing_in (u - 1/1000) s'.
Proof.
  intros [a [c [ul [ll [Ht [Hu [Hl [-> [-> [Ha Hc]]]]]]]]]] H4.
  pose proof bulk_z_bounds as Hz.
  pose proof (body_tri_sorted k s a bulk_z c u (- u) 16 Ht Hu Hl) as Hb.
  cbv zeta in Hb.
  rewrite (clipR_low u (- u) a), (clipR_mid u (- u) bulk_z),
    (clipR_high u (- u) c) in Hb by lra.
  destruct (closing_poly u H4) as [HV [Hp1 [Hp2 [Hn1 Hn2]]]]. cbv zeta in *.
  destruct Hb as [w Hb]; [lra | lra | exact HV |].
  destruct (decide_both
              ((- u - tri_mean (- u) 17 bulk_z u) / sqrt (tri_var (- u) 17 bulk_z u))
              ((u - tri_mean (- u) 17 bulk_z u) / sqrt (tri_var (- u) 17 bulk_z u)))
    as [Ec [Eu El]].
  { apply quot_gt; [exact HV | exact Hp1 | lra | exact Hp2]. }
  { apply quot_lt_neg; [exact HV | exact Hn1 | lra | exact Hn2]. }
  rewrite Ec, Eu, El in Hb.
  eexists. split; [exact Hb|].
  exists (- u), u, (u - 1/1000), (- u + 1/1000).
  cbn [Winsor.t Winsor.upl Winsor.lol Winsor.step fsub fadd fopp].
  repeat split; try reflexivity; lra.
Qed.

Lemma closing_in_ext (u u' : R) (s : Winsor.state) :
  u = u' -> closing_in u s -> closing_in u' s.
Proof. now intros ->. Qed.

Lemma closing_in_run (n : nat) (k0 : nat) (rest : list nat) (s : Winsor.state)
    (u : R) :
  closing_in u s -> 3/1000 <= u - INR n / 1000 ->
  exists s',
    Winsor.for_range (seq k0 n ++ rest) s = Winsor.for_range rest s' /\
    closing_in (u - INR n / 1000) s'.
Proof.
  revert k0 s u; induction n as [|n IH]; intros k0 s u Hc Hb.
  - exists s. split; [reflexivity|].
    apply (closing_in_ext u); [cbn; lra | exact Hc].
  - rewrite S_INR in Hb. pose proof (pos_INR n) as Hn.
    destruct (closing_in_step k0 s u Hc) as [s1 [Hb1 Hc1]]; [lra|].
    destruct (IH (S k0) s1 (u - 1/1000) Hc1) as [s' [Hr Hc']]; [lra|].
    exists s'. split.
    + change (seq k0 (S n) ++ rest) with (k0 :: (seq (S k0) n ++ rest)).
      rewrite for_range_cons, Hb1. cbn [bind fst snd]. exact Hr.
    + apply (closing_in_ext (u - 1/1000 - INR n / 1000)); [|exact Hc'].
      rewrite S_INR. lra.
Qed.

(** *** The last steps before and after the limits cross *)

Lemma shape_ext (s : Winsor.state) (a b c u l a' b' c' u' l' : R) :
  a = a' -> b = b' -> c = c' -> u = u' -> l = l' ->
  shape s a b c u l -> shape s a' b' c' u' l'.
Proof. now intros -> -> -> -> ->. Qed.

Lemma shape_step_both (k : nat) (s : Winsor.state) (a b c u l a' b' c' : R) :
  shape s a b c u l ->
  clipR u l a = a' -> clipR u l b = b' -> clipR u l c = c' ->
  a' <= b' -> b' <= c' ->
  let m := tri_mean a' 17 b' c' in
  let V := tri_var a' 17 b' c' in
  0 < V ->
  0 < c' - m -> (258/100) * (258/100) * V < (c' - m) * (c' - m) ->
  a' - m < 0 -> (258/100) * (258/100) * V < (a' - m) * (a' - m) ->
  exists s', Winsor.body k s = Ok (false, s') /\
             shape s' a' b' c' (u - 1/1000) (l + 1/1000).
Proof.
  intros [Ht [Hu Hl]] Ea Eb Ec Hab Hbc m V HV Hp1 Hp2 Hn1 Hn2.
  pose proof (body_tri_sorted k s a b c u l 16 Ht Hu Hl) as Hb.
  cbv zeta in Hb. rewrite Ea, Eb, Ec in Hb. fold m V in Hb.
  destruct Hb as [w Hb]; [exact Hab | exact Hbc | exact HV |].
  destruct (decide_both ((a' - m) / sqrt V) ((c' - m) / sqrt V)) as [E1 [E2 E3]].
  { apply quot_gt; [exact HV | exact Hp1 | lra | exact Hp2]. }
  { apply quot_lt_neg; [exact HV | exact Hn1 | lra | exact Hn2]. }
  rewrite E1, E2, E3 in Hb. eexists. split; [exact Hb|].
  repeat split.
Qed.

Lemma shape_step_upper (k : nat) (s : Winsor.state) (a b c u l a' b' c' : R) :
  shape s a b c u l ->
  clipR u l a = a' -> clipR u l b = b' -> clipR u l c = c' ->
  a' <= b' -> b' <= c' ->
  let m := tri_mean a' 17 b' c' in
  let V := tri_var a' 17 b' c' in
  0 < V ->
  0 < c' - m -> (258/100) * (258/100) * V < (c' - m) * (c' - m) ->
  (a' - m) * (a' - m) <= (258/100) * (258/100) * V ->
  exists s', Winsor.body k s = Ok (false, s') /\
             shape s' a' b' c' (u - 1/1000) l.
Proof.
  intros [Ht [Hu Hl]] Ea Eb Ec Hab Hbc m V HV Hp1 Hp2 Hn.
  pose proof (body_tri_sorted k s a b c u l 16 Ht Hu Hl) as Hb.
  cbv zeta in Hb. rewrite Ea, Eb, Ec in Hb. fold m V in Hb.
  destruct Hb as [w Hb]; [exact Hab | exact Hbc | exact HV |].
  destruct (decide_upper ((a' - m) / sqrt V) ((c' - m) / sqrt V)) as [E1 [E2 E3]].
  { apply quot_gt; [exact HV | exact Hp1 | lra | exact Hp2]. }
  { apply quot_ge_neg; [exact HV | lra | exact Hn]. }
  rewrite E1, E2, E3 in Hb. eexists. split; [exact Hb|].
  repeat split.
Qed.

(** Work out the polynomial side conditions of a step on given numbers. *)
Ltac step_numbers :=
  cbv zeta; unfold tri_var, tri_mean, bulk_z; cbv zeta; INR_to_IZR; lra.

Lemma step_2578 (k : nat) (s : Winsor.state) :
  closing_in (3/1000) s ->
  exists s', Winsor.body k s = Ok (false, s') /\
             shape s' (-3/1000) bulk_z (3/1000) (2/1000) (-3/1000).
Proof.
  intros [a [c [ul [ll [Ht [Hu [Hl [-> [-> [Ha Hc]]]]]]]]]].
  pose proof bulk_z_bounds as Hz.
  destruct (shape_step_upper k s a bulk_z c (3/1000) (-(3/1000))
              (-(3/1000)) bulk_z (3/1000)) as [s' [Hb Hs]];
    try step_numbers.
  - repeat split; assumption.
  - apply clipR_low; lra.
  - apply clipR_mid; lra.
  - apply clipR_high; lra.
  - exists s'. split; [exact Hb|].
    eapply shape_ext; [| | | | |exact Hs]; lra.
Qed.

Lemma step_2579 (k : nat) (s : Winsor.state) :
  shape s (-3/1000) bulk_z (3/1000) (2/1000) (-3/1000) ->
  exists s', Winsor.body k s = Ok (false, s') /\
             shape s' (-3/1000) bulk_z (2/1000) (1/1000) (-2/1000).
Proof.
  intros Hs0. pose proof bulk_z_bounds as Hz.
  destruct (shape_step_both k s _ _ _ _ _ (-3/1000) bulk_z (2/1000) Hs0)
    as [s' [Hb Hs]]; try step_numbers.
  - apply clipR_mid; lra.
  - apply clipR_mid; lra.
  - apply clipR_high; lra.
  - exists s'. split; [exact Hb|].
    eapply shape_ext; [| | | | |exact Hs]; lra.
Qed.

Lemma step_2580 (k : nat) (s : Winsor.state) :
  shape s (-3/1000) bulk_z (2/1000) (1/1000) (-2/1000) ->
  exists s', Winsor.body k s = Ok (false, s') /\
             shape s' (-2/1000) bulk_z (1/1000) 0 (-1/1000).
Proof.
  intros Hs0. pose proof bulk_z_bounds as Hz.
  destruct (shape_step_both k s _ _ _ _ _ (-2/1000) bulk_z (1/1000) Hs0)
    as [s' [Hb Hs]]; try step_numbers.
  - apply clipR_low; lra.
  - apply clipR_mid; lra.
  - apply clipR_high; lra.
  - exists s'. split; [exact Hb|].
    eapply shape_ext; [| | | | |exact Hs]; lra.
Qed.

Lemma step_2581 (k : nat) (s : Winsor.state) :
  shape s (-2/1000) bulk_z (1/1000) 0 (-1/1000) ->
  exists s', Winsor.body k s = Ok (false, s') /\
             shape s' (-1/1000) bulk_z 0 (-1/1000) 0.
Proof.
  intros Hs0. pose proof bulk_z_bounds as Hz.
  destruct (shape_step_both k s _ _ _ _ _ (-1/1000) bulk_z 0 Hs0)
    as [s' [Hb Hs]]; try step_numbers.
  - apply clipR_low; lra.
  - apply clipR_mid; lra.
  - apply clipR_high; lra.
  - exists s'. split; [exact Hb|].
    eapply shape_ext; [| | | | |exact Hs]; lra.
Qed.

(** The limits have crossed: the low outlier, sitting on the upper limit, is
    lifted to the lower limit, and everything else drops to the upper one. *)
Lemma step_2582 (k : nat) (s : Winsor.state) :
  shape s (-1/1000) bulk_z 0 (-1/1000) 0 ->
  exists s', Winsor.body k s = Ok (false, s') /\
             shape s' 0 (-1/1000) (-1/1000) (-2/1000) 0.
Proof.
  intros [Ht [Hu Hl]]. pose proof bulk_z_bounds as Hz.
  pose proof (body_tri k s _ _ _ _ _ 16 Ht Hu Hl) as Hb. cbv zeta in Hb.
  assert (Ea : clipR (-1/1000) 0 (-1/1000) = 0).
  { unfold clipR. rewrite Rltb_false, Rltb_true by lra. reflexivity. }
  assert (Eb : clipR (-1/1000) 0 bulk_z = -1/1000).
  { unfold clipR. rewrite Rltb_true by lra. reflexivity. }
  assert (Ec : clipR (-1/1000) 0 0 = -1/1000).
  { unfold clipR. rewrite Rltb_true by lra. reflexivity. }
  rewrite Ea, Eb, Ec in Hb.
  set (m := tri_mean 0 17 (-1/1000) (-1/1000)) in *.
  set (V := tri_var 0 17 (-1/1000) (-1/1000)) in *.
  assert (Em : m = -18/19000) by (unfold m, tri_mean; INR_to_IZR; lra).
  assert (EV : V = 18 / 361000000).
  { unfold V, tri_var. cbv zeta. fold m. rewrite Em. INR_to_IZR. lra. }
  assert (HV : 0 < V) by lra.
  specialize (Hb HV).
  assert (Hwa : 258/100 < (0 - m) / sqrt V).
  { apply quot_gt; try lra. rewrite Em, EV. lra. }
  assert (Hwb : -(258/100) <= (-1/1000 - m) / sqrt V).
  { apply quot_ge_neg; try lra. rewrite Em, EV. lra. }
  assert (Hord : (-1/1000 - m) / sqrt V <= (0 - m) / sqrt V).
  { apply quot_mono; lra. }
  rewrite (Rmax_left _ _ Hord), (Rmax_left _ _ Hord) in Hb.
  rewrite (Rmin_right _ _ Hord), Rmin_left in Hb by lra.
  destruct (decide_upper ((-1/1000 - m) / sqrt V) ((0 - m) / sqrt V) Hwa Hwb)
    as [E1 [E2 E3]].
  rewrite E1, E2, E3 in Hb. eexists. split; [exact Hb|].
  cbn [Winsor.step fsub fopp fadd]. repeat split.
  cbn [Winsor.upl]. f_equal. lra.
Qed.

(** *** Every entry equal: the series swings between the two limits *)

Lemma step_2583 (k : nat) (s : Winsor.state) :
  shape s 0 (-1/1000) (-1/1000) (-2/1000) 0 ->
  Winsor.body k s = Ok (false, flat k (-2/1000)).
Proof.
  intros [Ht [Hu Hl]].
  apply (body_tri_flat k s _ _ _ _ _ (-2/1000) 16 Ht Hu Hl);
    unfold clipR; rewrite Rltb_true by lra; reflexivity.
Qed.

Lemma flat_to_lower (k k0 : nat) :
  Winsor.body k (flat k0 (-2/1000)) = Ok (false, flat k 0).
Proof.
  apply (body_tri_flat k _ (-2/1000) (-2/1000) (-2/1000) (-2/1000) 0 0 16);
    try reflexivity;
    unfold clipR; rewrite Rltb_false, Rltb_true by lra; reflexivity.
Qed.

Lemma flat_to_upper (k k0 : nat) :
  Winsor.body k (flat k0 0) = Ok (false, flat k (-2/1000)).
Proof.
  apply (body_tri_flat k _ 0 0 0 (-2/1000) 0 (-2/1000) 16);
    try reflexivity;
    unfold clipR; rewrite Rltb_true by lra; reflexivity.
Qed.

(** After an odd number of further iterations the series sits on the lower
    limit. *)
Lemma flat_swing (n k0 j : nat) :
  Winsor.for_range (seq k0 (S (2 * n))) (flat j (-2/1000)) =
  Ok (flat (k0 + 2 * n) 0).
Proof.
  revert k0 j; induction n as [|n IH]; intros k0 j.
  - cbn [Nat.mul seq]. rewrite for_range_cons, flat_to_lower. cbn.
    now rewrite Nat.add_0_r.
  - replace (S (2 * S n)) with (S (S (S (2 * n)))) by lia.
    change (seq k0 (S (S (S (2 * n)))))
      with (k0 :: S k0 :: seq (S (S k0)) (S (2 * n))).
    rewrite for_range_cons, flat_to_lower. cbn [bind fst snd].
    rewrite for_range_cons, flat_to_upper. cbn [bind fst snd].
    rewrite IH. do 2 f_equal. lia.
Qed.

Lemma two_tailed_closing : closing_in (258/100) (Winsor.init two_tailed).
Proof.
  rewrite two_tailed_init.
  exists low_z, high_z, (258/100), (-(258/100)).
  unfold low_z, high_z. cbn [Winsor.t Winsor.upl Winsor.lol].
  repeat split; try reflexivity; lra.
Qed.

Lemma iterations_split :
  seq 1 Winsor.iterations =
  seq 1 2577 ++ [2578; 2579; 2580; 2581; 2582; 2583]%nat ++ seq 2584 (S (2 * 3708)).
Proof.
  assert (E : Winsor.iterations = (2577 + (6 + S (2 * 3708)))%nat) by reflexivity.
  rewrite E, seq_app, seq_app. reflexivity.
Qed.

Lemma two_tailed_run :
  Winsor.run two_tailed = Ok (flat Winsor.iterations 0).
Proof.
  unfold Winsor.run. rewrite iterations_split.
  destruct (closing_in_run 2577 1
              ([2578; 2579; 2580; 2581; 2582; 2583]%nat ++ seq 2584 (S (2 * 3708)))
              (Winsor.init two_tailed) (258/100) two_tailed_closing)
    as [s0 [-> Hc0]].
  { INR_to_IZR. lra. }
  assert (Hc : closing_in (3/1000) s0).
  { apply (closing_in_ext (258/100 - INR 2577 / 1000)); [|exact Hc0].
    INR_to_IZR. lra. }
  clear Hc0.
  destruct (step_2578 2578 s0 Hc) as [s1 [Hb1 H1]].
  destruct (step_2579 2579 s1 H1) as [s2 [Hb2 H2]].
  destruct (step_2580 2580 s2 H2) as [s3 [Hb3 H3]].
  destruct (step_2581 2581 s3 H3) as [s4 [Hb4 H4]].
  destruct (step_2582 2582 s4 H4) as [s5 [Hb5 H5]].
  pose proof (step_2583 2583 s5 H5) as Hb6.
  cbn [app].
  rewrite for_range_cons, Hb1. cbn [bind fst snd].
  rewrite for_range_cons, Hb2. cbn [bind fst snd].
  rewrite for_range_cons, Hb3. cbn [bind fst snd].
  rewrite for_range_cons, Hb4. cbn [bind fst snd].
  rewrite for_range_cons, Hb5. cbn [bind fst snd].
  rewrite for_range_cons, Hb6. cbn [bind fst snd].
  rewrite flat_swing. reflexivity.
Qed.

Lemma two_tailed_winsorize :
  Winsor.winsorize two_tailed =
  Ok (Winsor.mkStored (tri NaN 17 NaN NaN) (Fin 0) (Fin 0) (Fin (-2/1000)) (Fin 0)).
Proof. unfold Winsor.winsorize. rewrite two_tailed_run. reflexivity. Qed.

(** ** Counterexamples on [two_tailed] *)

Lemma run_missing_value (col : list float) :
  In NaN col ->
  exists s, Winsor.run col = Ok s /\ Winsor.i s = Winsor.iterations.
Proof.
  intros Hin. unfold Winsor.run. rewrite iterations_succ.
  change (seq 1 (S (Z.to_nat 9999))) with (1%nat :: seq 2 (Z.to_nat 9999)).
  edestruct (for_range_has_NaN (seq 2 (Z.to_nat 9999)) 1 (Winsor.init col))
    as [t' ->].
  - cbn [Winsor.init Winsor.t]. apply in_map_iff. exists NaN.
    split; [reflexivity | exact Hin].
  - eexists. split; [reflexivity|]. cbn [Winsor.i].
    change (1%nat :: seq 2 (Z.to_nat 9999)) with (seq 1 (S (Z.to_nat 9999))).
    now rewrite last_seq.
Qed.

(** C3, the claim as stated fails: with one raw value missing, the moments of
    the working series are NaN in every iteration, the loop runs all 10,000
    iterations, and the stored series is NaN throughout and so not within
    the bounds.  The stored record is all there is: no flag accompanies it. *)
Lemma winsorize_cap_reached_unflagged :
  Winsor.winsorize with_missing =
    Ok (Winsor.mkStored [NaN; NaN; NaN; NaN] NaN NaN
          Winsor.threshold (fopp Winsor.threshold)) /\
  (exists s, Winsor.run with_missing = Ok s /\ Winsor.i s = Winsor.iterations) /\
  ~ within_bounds [NaN; NaN; NaN; NaN].
Proof.
  assert (Hin : In NaN with_missing) by (unfold with_missing; cbn; tauto).
  split; [exact (winsorize_missing_value with_missing Hin)|].
  split; [exact (run_missing_value with_missing Hin)|].
  intros [mx [mn [Hmx [_ [H _]]]]]. cbn in Hmx. injection Hmx as <-.
  discriminate H.
Qed.

(** C5, the claim as stated fails: on [two_tailed] the stored limits are
    -0.002 and 0, both of magnitude below 2.58. *)
Lemma winsorize_limits_below_threshold :
  exists r u l,
    Winsor.winsorize two_tailed = Ok r /\
    Winsor.upl_ r = Fin u /\ Winsor.lol_ r = Fin l /\
    Rabs u < 258/100 /\ Rabs l < 258/100.
Proof.
  eexists; exists (-2/1000), 0. split; [exact two_tailed_winsorize|].
  cbn [Winsor.upl_ Winsor.lol_]. repeat split.
  - rewrite Rabs_left by lra. lra.
  - rewrite Rabs_R0. lra.
Qed.

Lemma winsorize_bounded_or_cap_witness :
  exists s,
    Winsor.run two_tailed = Ok s /\
    Winsor.winsorize two_tailed =
      Ok (Winsor.mkStored (Winsor.w_var s) (Winsor.mean_t s) (Winsor.std_t s)
                          (Winsor.upl s) (Winsor.lol s)) /\
    (within_bounds (Winsor.w_var s) \/
     (Winsor.i s = Winsor.iterations /\ ~ within_bounds (Winsor.w_var s))).
Proof.
  apply (winsorize_bounded_or_cap two_tailed). discriminate.
Defined.

Lemma winsorize_limits_inward_witness :
  exists r u l,
    Winsor.winsorize two_tailed = Ok r /\
    Winsor.upl_ r = Fin u /\ Winsor.lol_ r = Fin l /\
    u <= 258/100 /\ -(258/100) <= l.
Proof.
  apply (winsorize_limits_inward two_tailed). discriminate.
Defined.

(** ** CurrentPeriodApplier on [two_tailed] *)

Lemma two_tailed_rows_var : map Current.var two_tailed_rows = two_tailed.
Proof. reflexivity. Qed.

Lemma two_tailed_high_row :
  Current.restandardize_row (Fin 0) (Fin 113723) (Fin (-2/1000)) (Fin 0)
    (Fin 0) (Fin 0) (Current.mkRow 19 (Fin 341721))
  = Current.mkOut 19 (Fin ((341721 - 0) / 113723)) (Fin (-2/1000)) 2 NInf.
Proof.
  unfold Current.restandardize_row. cbn [Current.var Current.provfs].
  rewrite rescale_Fin by lra.
  unfold Current.flag_of, Current.truncate, fgtb, notna.
  cbn [isna negb fltb andb]. Rcmp. cbn [Z.eqb Pos.eqb andb].
  f_equal. cbn [fsub fopp fadd fdiv]. rewrite Reqb_true by reflexivity.
  unfold inf_signed. Rcmp. reflexivity.
Qed.

(** C4, the claim as stated fails: the calibration of [two_tailed] moves
    both limits inward until they pass each other and ends with the upper
    limit below the lower one.  A single clip to crossed limits sends every
    z-score to one of the two limits, which is not what the iterated clip
    left in the working series, so re-standardizing the same raw values with
    the frozen parameters does not give every facility the score of the
    calibration. *)
Lemma restandardize_differs_after_crossing :
  exists r,
    Winsor.winsorize (map Current.var two_tailed_rows) = Ok r /\
    flt (Winsor.upl_ r) (Winsor.lol_ r) /\
    ~ Permutation
        (current_scores
           (Current.restandardize_var two_tailed_rows
              (pd_mean (map Current.var two_tailed_rows))
              (pd_std (map Current.var two_tailed_rows))
              (Winsor.upl_ r) (Winsor.lol_ r)
              (Winsor.var_mean_t r) (Winsor.var_std_t r)))
        (baseline_scores two_tailed_rows r).
Proof.
  rewrite two_tailed_rows_var, two_tailed_mean, two_tailed_std.
  eexists. split; [exact two_tailed_winsorize|].
  cbn [Winsor.upl_ Winsor.lol_ Winsor.var_mean_t Winsor.var_std_t].
  split; [unfold flt; cbn [fltb]; apply Rltb_true; lra|].
  intros HP.
  assert (Hin : In (19%Z, NInf)
                  (current_scores
                     (Current.restandardize_var two_tailed_rows (Fin 0)
                        (Fin 113723) (Fin (-2/1000)) (Fin 0) (Fin 0) (Fin 0)))).
  { unfold current_scores, Current.restandardize_var.
    apply (in_map (fun o => (Current.o_provfs o, Current.wc o)) _
             (Current.mkOut 19 (Fin ((341721 - 0) / 113723)) (Fin (-2/1000)) 2 NInf)).
    apply sort_values_provfs_In. rewrite <- two_tailed_high_row.
    apply in_map. unfold two_tailed_rows. right. apply in_or_app. right.
    now left. }
  apply (Permutation_in _ HP) in Hin.
  unfold baseline_scores in Hin. cbn [Winsor.w_] in Hin.
  apply in_combine_r in Hin. unfold tri in Hin.
  destruct Hin as [E|Hin]; [discriminate|].
  apply in_app_or in Hin. destruct Hin as [Hin|[E|[]]]; [|discriminate].
  apply repeat_spec in Hin. discriminate.
Qed.

(** ** Deciding convergence *)

Lemma decide_converged (wa wc : R) :
  wc <= 258/100 -> -(258/100) <= wa ->
  Winsor.converged (Fin wc) (Fin wa) = true.
Proof.
  intros H1 H2. unfold Winsor.converged, fgeb, Winsor.threshold.
  cbn [fleb fopp]. now rewrite !Rleb_true by lra.
Qed.

(** ** A calibration that clips and moves its upper limit *)

Lemma one_tailed_mean : pd_mean one_tailed = Fin 1.
Proof.
  unfold pd_mean, one_tailed. rewrite dropna_tri_Fin, np_mean_tri.
  f_equal. unfold tri_mean. INR_to_IZR. lra.
Qed.

Lemma one_tailed_std : pd_std one_tailed = Fin 9.
Proof.
  unfold pd_std, one_tailed. rewrite dropna_tri_Fin, length_tri.
  cbn [Nat.leb Nat.sub]. rewrite np_mean_tri, sum_sq_dev_tri.
  unfold of_nat. INR_to_IZR. rewrite fdiv_Fin by lra.
  cbn [fsqrt].
  assert (E : tri_mean (-14) 9 0 25 = 1).
  { unfold tri_mean. INR_to_IZR. lra. }
  rewrite E.
  replace (((-14 - 1) * (-14 - 1) + 9 * ((0 - 1) * (0 - 1)) +
            (25 - 1) * (25 - 1)) / 10) with (9 * 9) by lra.
  rewrite Rltb_false by lra. f_equal. apply sqrt_square. lra.
Qed.

Lemma one_tailed_init :
  Winsor.init one_tailed =
  Winsor.mkState 0 (tri (Fin (-5/3)) 9 (Fin (-1/9)) (Fin (8/3)))
    Winsor.threshold (fopp Winsor.threshold) [] NaN NaN.
Proof.
  unfold Winsor.init. rewrite one_tailed_mean, one_tailed_std.
  unfold one_tailed. rewrite map_tri, !rescale_Fin by lra.
  repeat (f_equal; try lra).
Qed.

Lemma upper_mean (u : R) : tri_mean (-5/3) 9 (-1/9) u = (u - 8/3) / 11.
Proof. unfold tri_mean. INR_to_IZR. lra. Qed.

(** While the upper limit is at least 1.918 the top rescaled entry exceeds
    the threshold and the bottom one does not. *)
Lemma upper_poly (u : R) :
  1918/1000 <= u -> u <= 258/100 ->
  let m := tri_mean (-5/3) 9 (-1/9) u in
  let V := tri_var (-5/3) 9 (-1/9) u in
  0 < V /\
  0 < u - m /\ (258/100) * (258/100) * V < (u - m) * (u - m) /\
  (-5/3 - m) * (-5/3 - m) <= (258/100) * (258/100) * V.
Proof.
  intros H1 H2 m V. unfold V, tri_var. cbv zeta. fold m.
  unfold m. rewrite upper_mean. INR_to_IZR.
  pose proof (sq_nonneg (u - 1918/1000)) as Hsq.
  repeat split; nra.
Qed.

(** At 1.917 both ends are within the threshold. *)
Lemma upper_final :
  let u := 1917/1000 in
  let m := tri_mean (-5/3) 9 (-1/9) u in
  let V := tri_var (-5/3) 9 (-1/9) u in
  0 < V /\
  (u - m) * (u - m) <= (258/100) * (258/100) * V /\
  (-5/3 - m) * (-5/3 - m) <= (258/100) * (258/100) * V.
Proof.
  intros u m V. unfold V, tri_var. cbv zeta. fold m.
  unfold m. rewrite upper_mean. unfold u. INR_to_IZR.
  repeat split; lra.
Qed.

Lemma upper_closing_step (k : nat) (s : Winsor.state) (u : R) :
  upper_closing u s -> 1918/1000 <= u -> u <= 258/100 ->
  exists s', Winsor.body k s = Ok (false, s') /\ upper_closing (u - 1/1000) s'.
Proof.
  intros [c [Ht [Hu [Hl Hc]]]] H1 H2.
  pose proof (body_tri_sorted k s (-5/3) (-1/9) c u (-(258/100)) 8 Ht Hu Hl) as Hb.
  cbv zeta in Hb.
  rewrite (clipR_mid u (-(258/100)) (-5/3)), (clipR_mid u (-(258/100)) (-1/9)),
    (clipR_high u (-(258/100)) c) in Hb by lra.
  destruct (upper_poly u H1 H2) as [HV [Hp1 [Hp2 Hn]]]. cbv zeta in *.
  destruct Hb as [w Hb]; [lra | lra | exact HV |].
  destruct (decide_upper
              ((-5/3 - tri_mean (-5/3) 9 (-1/9) u) / sqrt (tri_var (-5/3) 9 (-1/9) u))
              ((u - tri_mean (-5/3) 9 (-1/9) u) / sqrt (tri_var (-5/3) 9 (-1/9) u)))
    as [Ec [Eu El]].
  { apply quot_gt; [exact HV | exact Hp1 | lra | exact Hp2]. }
  { apply quot_ge_neg; [exact HV | lra | exact Hn]. }
  rewrite Ec, Eu, El in Hb.
  eexists. split; [exact Hb|].
  exists u.
  cbn [Winsor.t Winsor.upl Winsor.lol Winsor.step fsub fadd fopp].
  repeat split; try reflexivity; lra.
Qed.

Lemma upper_closing_ext (u u' : R) (s : Winsor.state) :
  u = u' -> upper_closing u s -> upper_closing u' s.
Proof. now intros ->. Qed.

Lemma upper_closing_run (n : nat) (k0 : nat) (rest : list nat)
    (s : Winsor.state) (u : R) :
  upper_closing u s -> u <= 258/100 -> 1917/1000 <= u - INR n / 1000 ->
  exists s',
    Winsor.for_range (seq k0 n ++ rest) s = Winsor.for_range rest s' /\
    upper_closing (u - INR n / 1000) s'.
Proof.
  revert k0 s u; induction n as [|n IH]; intros k0 s u Hc Hu Hb.
  - exists s. split; [reflexivity|].
    apply (upper_closing_ext u); [cbn; lra | exact Hc].
  - rewrite S_INR in Hb. pose proof (pos_INR n) as Hn.
    destruct (upper_closing_step k0 s u Hc) as [s1 [Hb1 Hc1]]; [lra | lra|].
    destruct (IH (S k0) s1 (u - 1/1000) Hc1) as [s' [Hr Hc']]; [lra | lra|].
    exists s'. split.
    + change (seq k0 (S n) ++ rest) with (k0 :: (seq (S k0) n ++ rest)).
      rewrite for_range_cons, Hb1. cbn [bind fst snd]. exact Hr.
    + apply (upper_closing_ext (u - 1/1000 - INR n / 1000)); [|exact Hc'].
      rewrite S_INR. lra.
Qed.

(** The iteration at which the loop is left. *)
Lemma upper_closing_break (k : nat) (s : Winsor.state) :
  upper_closing (1917/1000) s ->
  exists s', Winsor.body k s = Ok (true, s') /\
             Winsor.upl s' = Fin (1917/1000) /\
             Winsor.lol s' = Fin (-(258/100)).
Proof.
  intros [c [Ht [Hu [Hl Hc]]]].
  pose proof (body_tri_sorted k s (-5/3) (-1/9) c (1917/1000) (-(258/100)) 8
                Ht Hu Hl) as Hb.
  cbv zeta in Hb.
  rewrite (clipR_mid (1917/1000) (-(258/100)) (-5/3)),
    (clipR_mid (1917/1000) (-(258/100)) (-1/9)),
    (clipR_high (1917/1000) (-(258/100)) c) in Hb by lra.
  destruct upper_final as [HV [Hp Hn]]. cbv zeta in *.
  destruct Hb as [w Hb]; [lra | lra | exact HV |].
  rewrite decide_converged in Hb.
  - eexists. split; [exact Hb|]. split; reflexivity.
  - apply quot_le; [exact HV | lra | exact Hp].
  - apply quot_ge_neg; [exact HV | lra | exact Hn].
Qed.

Lemma one_tailed_closing : upper_closing (258/100) (Winsor.init one_tailed).
Proof.
  rewrite one_tailed_init. exists (8/3).
  cbn [Winsor.t Winsor.upl Winsor.lol]. unfold Winsor.threshold. cbn [fopp].
  repeat split; try reflexivity; lra.
Qed.

Lemma iterations_split_664 :
  seq 1 Winsor.iterations = seq 1 663 ++ 664%nat :: seq 665 (12 * 778).
Proof.
  assert (E : Winsor.iterations = (663 + S (12 * 778))%nat) by reflexivity.
  rewrite E, seq_app. reflexivity.
Qed.

(** The calibration of [one_tailed] lowers the upper limit 663 times, from
    2.58 to 1.917, and leaves the loop at iteration 664 with the top
    facility clipped to 1.917; the lower limit stays at -2.58. *)
Lemma one_tailed_winsorize :
  exists r,
    Winsor.winsorize one_tailed = Ok r /\
    Winsor.upl_ r = Fin (1917/1000) /\ Winsor.lol_ r = Fin (-(258/100)).
Proof.
  unfold Winsor.winsorize, Winsor.run. rewrite iterations_split_664.
  destruct (upper_closing_run 663 1 (664%nat :: seq 665 (12 * 778))
              (Winsor.init one_tailed) (258/100) one_tailed_closing)
    as [s0 [-> Hc0]].
  { lra. }
  { INR_to_IZR. lra. }
  assert (Hc : upper_closing (1917/1000) s0).
  { apply (upper_closing_ext (258/100 - INR 663 / 1000)); [|exact Hc0].
    INR_to_IZR. lra. }
  destruct (upper_closing_break 664 s0 Hc) as [s1 [Hb [Hu Hl]]].
  rewrite for_range_cons, Hb. cbn [bind fst snd].
  eexists. split; [reflexivity|]. cbn [Winsor.upl_ Winsor.lol_]. tauto.
Qed.

Lemma one_tailed_rows_var : map Current.var one_tailed_rows = one_tailed.
Proof. reflexivity. Qed.

Lemma one_tailed_top_row (mt st : float) :
  let o := Current.restandardize_row (Fin 1) (Fin 9) (Fin (1917/1000))
             (Fin (-(258/100))) mt st (Current.mkRow 11 (Fin 25)) in
  Current.o_provfs o = 11%Z /\ Current.flagtc o = 2%Z /\
  Current.tc o = Fin (1917/1000).
Proof.
  cbv zeta. unfold Current.restandardize_row. cbn [Current.var Current.provfs].
  rewrite rescale_Fin by lra.
  cbn [Current.o_provfs Current.flagtc Current.tc].
  unfold Current.flag_of, Current.truncate, fgtb, notna.
  cbn [isna negb fltb andb]. Rcmp. cbn [Z.eqb Pos.eqb andb].
  repeat split.
Qed.

Lemma restandardize_reproduces_baseline_witness :
  exists r u,
    Winsor.winsorize (map Current.var one_tailed_rows) = Ok r /\
    Winsor.upl_ r = Fin u /\ u < 258/100 /\
    Winsor.lol_ r = Fin (-(258/100)) /\
    (exists o,
       In o (Current.restandardize_var one_tailed_rows
               (pd_mean (map Current.var one_tailed_rows))
               (pd_std (map Current.var one_tailed_rows))
               (Winsor.upl_ r) (Winsor.lol_ r)
               (Winsor.var_mean_t r) (Winsor.var_std_t r)) /\
       Current.o_provfs o = 11%Z /\ Current.flagtc o = 2%Z /\
       Current.tc o = Fin u) /\
    Permutation
      (current_scores
         (Current.restandardize_var one_tailed_rows
            (pd_mean (map Current.var one_tailed_rows))
            (pd_std (map Current.var one_tailed_rows))
            (Winsor.upl_ r) (Winsor.lol_ r)
            (Winsor.var_mean_t r) (Winsor.var_std_t r)))
      (baseline_scores one_tailed_rows r).
Proof.
  destruct one_tailed_winsorize as [r [Hw [Hu Hl]]].
  rewrite <- one_tailed_rows_var in Hw.
  exists r, (1917/1000).
  split; [exact Hw|]. split; [exact Hu|]. split; [lra|]. split; [exact Hl|].
  split.
  - rewrite one_tailed_rows_var, one_tailed_mean, one_tailed_std, Hu, Hl.
    eexists. split; [|apply (one_tailed_top_row (Winsor.var_mean_t r)
                               (Winsor.var_std_t r))].
    unfold Current.restandardize_var. apply sort_values_provfs_In.
    apply in_map. unfold one_tailed_rows. right. apply in_or_app. right.
    now left.
  - apply (restandardize_reproduces_baseline one_tailed_rows r (1917/1000)
             (-(258/100)) Hw Hu Hl).
    lra.
Defined.

(** * Further properties of the code *)

(** ** WinsorizationCalibrator: shape of the result *)

Lemma body_lengths (k : nat) (s s' : Winsor.state) (brk : bool) :
  Winsor.body k s = Ok (brk, s') ->
  length (Winsor.t s') = length (Winsor.t s) /\
  length (Winsor.w_var s') = length (Winsor.t s).
Proof.
  intros Hb.
  destruct (body_inv _ _ _ _ Hb) as [_ [_ [_ [_ [_ [_ [Ht [Hw _]]]]]]]].
  rewrite Ht, Hw, !length_map. split; reflexivity.
Qed.

Lemma for_range_lengths (ks : list nat) (k0 : nat) (s s' : Winsor.state) :
  Winsor.for_range (k0 :: ks) s = Ok s' ->
  length (Winsor.t s') = length (Winsor.t s) /\
  length (Winsor.w_var s') = length (Winsor.t s).
Proof.
  revert k0 s; induction ks as [|k ks IH]; intros k0 s H;
    rewrite for_range_cons in H;
    destruct (Winsor.body k0 s) as [[brk s1]|e] eqn:Eb; cbn [bind fst snd] in H;
    try discriminate;
    destruct (body_lengths _ _ _ _ Eb) as [L1 L2].
  - destruct brk; inversion H; subst; tauto.
  - destruct brk; [inversion H; subst; tauto|].
    destruct (IH _ _ H) as [L3 L4]. rewrite L3, L4, L1. tauto.
Qed.

Lemma winsorize_empty : Winsor.winsorize [] = Raise ValueError.
Proof.
  unfold Winsor.winsorize, Winsor.run. rewrite iterations_succ.
  change (seq 1 (S (Z.to_nat 9999))) with (1%nat :: seq 2 (Z.to_nat 9999)).
  rewrite for_range_cons. reflexivity.
Qed.

(** X1. [winsorize] raises only on an empty column, where numpy's [max] of
    an empty array raises [ValueError]; on every other column it returns, and
    the stored series has one score per facility. *)
Theorem winsorize_total_one_score_each (col : list float) :
  (col = [] /\ Winsor.winsorize col = Raise ValueError) \/
  (col <> [] /\
   exists r, Winsor.winsorize col = Ok r /\ length (Winsor.w_ r) = length col).
Proof.
  destruct col as [|x col]; [left; split; [reflexivity | exact winsorize_empty]|].
  right. split; [discriminate|].
  destruct (run_total (x :: col)) as [s Hs]; [discriminate|].
  unfold Winsor.winsorize. rewrite Hs. cbn [bind]. eexists. split; [reflexivity|].
  cbn [Winsor.w_]. unfold Winsor.run in Hs. rewrite iterations_succ in Hs.
  change (seq 1 (S (Z.to_nat 9999))) with (1%nat :: seq 2 (Z.to_nat 9999)) in Hs.
  destruct (for_range_lengths _ _ _ _ Hs) as [_ L]. rewrite L.
  cbn [Winsor.init Winsor.t]. apply length_map.
Qed.

(** X2. One missing raw value spoils the whole measure: [winsorize] returns
    normally, the winsorized score it stores is missing for every facility,
    both truncated moments are missing, and the limits are still 2.58 and
    -2.58. *)
Theorem winsorize_missing_value_spreads (col : list float) :
  In NaN col ->
  Winsor.winsorize col =
  Ok (Winsor.mkStored (repeat NaN (length col)) NaN NaN
        Winsor.threshold (fopp Winsor.threshold)).
Proof. exact (winsorize_missing_value col). Qed.

Lemma winsorize_missing_value_spreads_witness :
  Winsor.winsorize [Fin 1; NaN; Fin 2] =
  Ok (Winsor.mkStored [NaN; NaN; NaN] NaN NaN
        Winsor.threshold (fopp Winsor.threshold)).
Proof.
  apply (winsorize_missing_value_spreads [Fin 1; NaN; Fin 2]).
  right; left; reflexivity.
Defined.

(** ** CurrentPeriodApplier: order, flags and truncation *)

Lemma insert_by_provfs_sorted (o : Current.out_row) (l : list Current.out_row) :
  StronglySorted by_provfs l -> StronglySorted by_provfs (Current.insert_by_provfs o l).
Proof.
  induction 1 as [|y l Hs IH Hy]; cbn [Current.insert_by_provfs].
  - repeat constructor.
  - destruct (Z.leb_spec (Current.o_provfs o) (Current.o_provfs y)) as [Hle|Hgt].
    + constructor; [now constructor|]. constructor; [exact Hle|].
      eapply Forall_impl; [|exact Hy]. unfold by_provfs. intros a Ha. lia.
    + constructor; [exact IH|]. apply Forall_forall. intros a Ha.
      apply insert_by_provfs_In in Ha. destruct Ha as [->|Ha].
      * unfold by_provfs. lia.
      * rewrite Forall_forall in Hy. now apply Hy.
Qed.

Lemma sort_values_provfs_sorted (l : list Current.out_row) :
  StronglySorted by_provfs (Current.sort_values_provfs l).
Proof.
  induction l as [|x l IH]; [constructor|].
  change (Current.sort_values_provfs (x :: l))
    with (Current.insert_by_provfs x (Current.sort_values_provfs l)).
  now apply insert_by_provfs_sorted.
Qed.

(** X3. The frame [restandardize_var] returns is in increasing order of
    facility identifier and holds exactly the facilities of the input, each
    as often as it occurs there. *)
Theorem restandardize_var_sorted_same_facilities (df_current : list Current.row)
    (mean_var std_var upl_var lol_var var_mean_t var_std_t : float) :
  let out := Current.restandardize_var df_current mean_var std_var upl_var
               lol_var var_mean_t var_std_t in
  StronglySorted by_provfs out /\
  Permutation (map Current.o_provfs out) (map Current.provfs df_current).
Proof.
  cbv zeta. unfold Current.restandardize_var. split.
  - apply sort_values_provfs_sorted.
  - rewrite sort_values_provfs_perm, map_map. reflexivity.
Qed.

Lemma restandardize_var_row (df_current : list Current.row)
    (mean_var std_var upl_var lol_var var_mean_t var_std_t : float)
    (o : Current.out_row) :
  In o (Current.restandardize_var df_current mean_var std_var upl_var lol_var
          var_mean_t var_std_t) ->
  Current.tc o = Winsor.clip upl_var lol_var (Current.zc o) /\
  Current.flagtc o = Current.flag_of (Current.zc o) upl_var lol_var /\
  Current.wc o = fdiv (fsub (Current.tc o) var_mean_t) var_std_t.
Proof.
  unfold Current.restandardize_var. rewrite sort_values_provfs_In, in_map_iff.
  intros [r [<- _]]. unfold Current.restandardize_row.
  cbn [Current.tc Current.zc Current.flagtc Current.wc].
  now rewrite truncate_is_clip.
Qed.

Lemma clip_between (u l : R) (z : float) :
  l <= u -> notna z = true ->
  exists c, Winsor.clip (Fin u) (Fin l) z = Fin c /\ l <= c <= u.
Proof.
  intros Hlu Hz. destruct z as [x| | |]; try discriminate.
  - rewrite clip_Fin. eexists. split; [reflexivity|].
    unfold clipR. destruct (Rltb_spec u x); [lra|].
    destruct (Rltb_spec x l); lra.
  - exists u. split; [reflexivity | lra].
  - exists l. split; [reflexivity | lra].
Qed.

(** X4. With ordered finite limits, every facility that has a z-score gets a
    truncated value between the two limits; the flag is 0, 1 or 2, it is 0
    exactly when the value passed unchanged, and flags 1 and 2 put the value
    on the lower and the upper limit. *)
Theorem restandardize_var_truncation (df_current : list Current.row)
    (mean_var std_var var_mean_t var_std_t : float) (u l : R)
    (o : Current.out_row) :
  l <= u ->
  In o (Current.restandardize_var df_current mean_var std_var (Fin u) (Fin l)
          var_mean_t var_std_t) ->
  notna (Current.zc o) = true ->
  fle (Fin l) (Current.tc o) /\ fle (Current.tc o) (Fin u) /\
  (Current.flagtc o = 0%Z <-> Current.tc o = Current.zc o) /\
  (Current.flagtc o = 1%Z -> Current.tc o = Fin l) /\
  (Current.flagtc o = 2%Z -> Current.tc o = Fin u) /\
  (Current.flagtc o = 0 \/ Current.flagtc o = 1 \/ Current.flagtc o = 2)%Z.
Proof.
  intros Hlu Hin Hz.
  destruct (restandardize_var_row _ _ _ _ _ _ _ _ Hin) as [Htc [Hfl _]].
  rewrite Htc, Hfl. clear Htc Hfl Hin.
  unfold Current.flag_of, Winsor.clip, np_where, fgtb, fle.
  rewrite Hz. cbn [andb].
  destruct (Current.zc o) as [x| | |]; try discriminate; cbn [fltb fleb];
    repeat match goal with
           | |- context [Rltb ?a ?b] => destruct (Rltb_spec a b)
           | |- context [Rleb ?a ?b] => destruct (Rleb_spec a b)
           end;
    repeat split; intros; try reflexivity; try discriminate; try lia;
    try (exfalso; lra); try (f_equal; lra); try tauto;
    try (cbn [fleb]; apply Rleb_true; lra);
    try match goal with
        | H : Fin _ = Fin _ |- _ => injection H; intros; exfalso; lra
        end.
Qed.

Lemma restandardize_var_truncation_witness :
  let df := [Current.mkRow 9 (Fin 4); Current.mkRow 7 (Fin 100)] in
  let o := Current.restandardize_row (Fin 3) (Fin 2) (Fin (258/100))
             (Fin (-(258/100))) (Fin 0) (Fin 1) (Current.mkRow 7 (Fin 100)) in
  fle (Fin (-(258/100))) (Current.tc o) /\ fle (Current.tc o) (Fin (258/100)) /\
  (Current.flagtc o = 0%Z <-> Current.tc o = Current.zc o) /\
  (Current.flagtc o = 1%Z -> Current.tc o = Fin (-(258/100))) /\
  (Current.flagtc o = 2%Z -> Current.tc o = Fin (258/100)) /\
  (Current.flagtc o = 0 \/ Current.flagtc o = 1 \/ Current.flagtc o = 2)%Z.
Proof.
  intros df o.
  apply (restandardize_var_truncation df (Fin 3) (Fin 2) (Fin 0) (Fin 1)
           (258/100) (-(258/100)) o).
  - lra.
  - unfold Current.restandardize_var. apply sort_values_provfs_In.
    apply in_map. right; left; reflexivity.
  - unfold o, Current.restandardize_row. cbn [Current.zc Current.var].
    rewrite rescale_Fin by lra. reflexivity.
Defined.

(** X5. Re-standardizing keeps the order of the z-scores: with ordered
    finite limits and a positive frozen truncated deviation, a facility whose
    z-score is at most another's gets a re-standardized score that is at most
    the other's. *)
Theorem restandardize_var_monotone (df_current : list Current.row)
    (mean_var std_var : float) (u l mt st : R) (o1 o2 : Current.out_row) :
  l <= u -> 0 < st ->
  In o1 (Current.restandardize_var df_current mean_var std_var (Fin u) (Fin l)
           (Fin mt) (Fin st)) ->
  In o2 (Current.restandardize_var df_current mean_var std_var (Fin u) (Fin l)
           (Fin mt) (Fin st)) ->
  fle (Current.zc o1) (Current.zc o2) ->
  fle (Current.wc o1) (Current.wc o2).
Proof.
  intros Hlu Hst H1 H2 Hz.
  destruct (restandardize_var_row _ _ _ _ _ _ _ _ H1) as [Ht1 [_ Hw1]].
  destruct (restandardize_var_row _ _ _ _ _ _ _ _ H2) as [Ht2 [_ Hw2]].
  assert (Hn1 : notna (Current.zc o1) = true)
    by (unfold fle, notna in *; destruct (Current.zc o1), (Current.zc o2);
        cbn [fleb isna negb] in *; congruence).
  assert (Hn2 : notna (Current.zc o2) = true)
    by (unfold fle, notna in *; destruct (Current.zc o1), (Current.zc o2);
        cbn [fleb isna negb] in *; congruence).
  assert (Hc : exists c1 c2, Current.tc o1 = Fin c1 /\ Current.tc o2 = Fin c2 /\
                             c1 <= c2).
  { rewrite Ht1, Ht2. unfold fle in Hz.
    destruct (Current.zc o1) as [x1| | |], (Current.zc o2) as [x2| | |];
      try discriminate; cbn [fleb] in Hz;
      rewrite ?clip_Fin; unfold Winsor.clip, np_where, fgtb; cbn [fltb];
      try (destruct (Rleb_spec x1 x2); [|discriminate]);
      eexists; eexists; (split; [reflexivity|]); (split; [reflexivity|]);
      unfold clipR;
      repeat match goal with
             | |- context [Rltb ?a ?b] => destruct (Rltb_spec a b)
             end; lra. }
  destruct Hc as [c1 [c2 [E1 [E2 Hle]]]].
  rewrite Hw1, Hw2, E1, E2, !rescale_Fin by lra.
  unfold fle. cbn [fleb]. apply Rleb_true.
  unfold Rdiv. apply Rmult_le_compat_r; [|lra].
  left. now apply Rinv_0_lt_compat.
Qed.

Lemma restandardize_var_monotone_witness :
  let df := [Current.mkRow 9 (Fin 4); Current.mkRow 7 (Fin 100)] in
  let o1 := Current.restandardize_row (Fin 3) (Fin 2) (Fin (258/100))
              (Fin (-(258/100))) (Fin 0) (Fin 1) (Current.mkRow 9 (Fin 4)) in
  let o2 := Current.restandardize_row (Fin 3) (Fin 2) (Fin (258/100))
              (Fin (-(258/100))) (Fin 0) (Fin 1) (Current.mkRow 7 (Fin 100)) in
  fle (Current.wc o1) (Current.wc o2).
Proof.
  intros df o1 o2.
  apply (restandardize_var_monotone df (Fin 3) (Fin 2) (258/100) (-(258/100))
           0 1 o1 o2).
  - lra.
  - lra.
  - unfold Current.restandardize_var. apply sort_values_provfs_In.
    apply in_map. left; reflexivity.
  - unfold Current.restandardize_var. apply sort_values_provfs_In.
    apply in_map. right; left; reflexivity.
  - unfold o1, o2, Current.restandardize_row. cbn [Current.zc Current.var].
    rewrite !rescale_Fin by lra. unfold fle. cbn [fleb]. apply Rleb_true. lra.
Defined.

(** ** StarRankAssigner: what the assigned ranks are *)

Lemma assign_star_ranks_inv (final_score ranks : list float) :
  StarRank.assign_star_ranks final_score = Ok ranks ->
  exists q1 q2 q3 q4, ranks = map (rank_of q1 q2 q3 q4) final_score.
Proof.
  intros H.
  destruct (np_percentile (dropna final_score) [10; 30; 70; 90; 100]%Z)
    as [qs|e] eqn:Eq.
  2:{ unfold StarRank.assign_star_ranks in H. rewrite Eq in H.
      cbn [bind] in H. discriminate. }
  destruct qs as [|q1 [|q2 [|q3 [|q4 [|q5 [|q6 qs]]]]]];
    try (unfold StarRank.assign_star_ranks in H; rewrite Eq in H;
         cbn [bind] in H; discriminate).
  rewrite (assign_star_ranks_rows final_score q1 q2 q3 q4 q5 Eq) in H.
  injection H as <-. exists q1, q2, q3, q4. reflexivity.
Qed.

Lemma rank_of_values (q1 q2 q3 q4 s : float) :
  In (rank_of q1 q2 q3 q4 s) star_values /\
  (rank_of q1 q2 q3 q4 s = Fin 1 <-> isna s = true).
Proof.
  unfold rank_of, star_values.
  destruct (isna s); [split; [cbn; tauto | tauto]|].
  destruct (fleb s q1); [|destruct (fleb s q2); [|destruct (fleb s q3)]];
    (split; [cbn; tauto|]); (split; [intros E; injection E; lra | discriminate]).
Qed.

Lemma rank_of_monotone (q1 q2 q3 q4 s1 s2 : float) :
  fle s1 s2 -> fle (rank_of q1 q2 q3 q4 s1) (rank_of q1 q2 q3 q4 s2).
Proof.
  intros H.
  assert (Hn1 : isna s1 = false)
    by (unfold fle in H; destruct s1, s2; cbn [fleb isna] in *; congruence).
  assert (Hn2 : isna s2 = false)
    by (unfold fle in H; destruct s1, s2; cbn [fleb isna] in *; congruence).
  assert (Htr : forall q, fleb s2 q = true -> fleb s1 q = true)
    by (intros q Hq; exact (fle_trans _ _ _ H Hq)).
  unfold rank_of. rewrite Hn1, Hn2.
  destruct (fleb s2 q1) eqn:E1; [rewrite (Htr _ E1)|].
  { unfold fle; cbn [fleb]; apply Rleb_true; lra. }
  destruct (fleb s2 q2) eqn:E2; [rewrite (Htr _ E2)|].
  { destruct (fleb s1 q1); unfold fle; cbn [fleb]; apply Rleb_true; lra. }
  destruct (fleb s2 q3) eqn:E3; [rewrite (Htr _ E3)|].
  { destruct (fleb s1 q1), (fleb s1 q2); unfold fle; cbn [fleb];
      apply Rleb_true; lra. }
  destruct (fleb s1 q1), (fleb s1 q2), (fleb s1 q3); unfold fle; cbn [fleb];
    apply Rleb_true; lra.
Qed.

(** X6. Whatever the frame, the ranks [assign_star_ranks] returns are among
    1 to 5, one per facility, and a facility has rank 1 exactly when its
    composite score is missing: no scored facility is ever given one star and
    no facility is left without a rank. *)
Theorem assign_star_ranks_one_star_iff_missing (final_score ranks : list float) :
  StarRank.assign_star_ranks final_score = Ok ranks ->
  length ranks = length final_score /\
  forall i s r,
    nth_error final_score i = Some s -> nth_error ranks i = Some r ->
    In r star_values /\ (r = Fin 1 <-> isna s = true).
Proof.
  intros H. destruct (assign_star_ranks_inv _ _ H) as [q1 [q2 [q3 [q4 ->]]]].
  split; [apply length_map|].
  intros i s r Hs Hr. rewrite nth_error_map, Hs in Hr. cbn in Hr.
  injection Hr as <-. apply rank_of_values.
Qed.

(** X7. Rank monotonicity: of two scored facilities, the one with the lower
    (or equal) composite score never gets the higher star rank. *)
Theorem assign_star_ranks_monotone (final_score ranks : list float)
    (i j : nat) (s1 s2 r1 r2 : float) :
  StarRank.assign_star_ranks final_score = Ok ranks ->
  nth_error final_score i = Some s1 -> nth_error final_score j = Some s2 ->
  nth_error ranks i = Some r1 -> nth_error ranks j = Some r2 ->
  fle s1 s2 -> fle r1 r2.
Proof.
  intros H Hs1 Hs2 Hr1 Hr2 Hle.
  destruct (assign_star_ranks_inv _ _ H) as [q1 [q2 [q3 [q4 ->]]]].
  rewrite nth_error_map, Hs1 in Hr1. rewrite nth_error_map, Hs2 in Hr2.
  cbn in Hr1, Hr2. injection Hr1 as <-. injection Hr2 as <-.
  now apply rank_of_monotone.
Qed.

Lemma assign_star_ranks_two_scores :
  StarRank.assign_star_ranks [Fin 1; Fin 2] = Ok [Fin 2; Fin 5].
Proof.
  unfold StarRank.assign_star_ranks. cbn.
  unfold lerp. cbn. Rcmp. cbn. Rcmp. reflexivity.
Qed.

Lemma assign_star_ranks_one_star_iff_missing_witness :
  length [Fin 2; Fin 5] = length [Fin 1; Fin 2] /\
  forall i s r,
    nth_error [Fin 1; Fin 2] i = Some s -> nth_error [Fin 2; Fin 5] i = Some r ->
    In r star_values /\ (r = Fin 1 <-> isna s = true).
Proof.
  apply (assign_star_ranks_one_star_iff_missing [Fin 1; Fin 2] [Fin 2; Fin 5]).
  exact assign_star_ranks_two_scores.
Defined.

Lemma assign_star_ranks_monotone_witness : fle (Fin 2) (Fin 5).
Proof.
  apply (assign_star_ranks_monotone [Fin 1; Fin 2] [Fin 2; Fin 5] 0 1
           (Fin 1) (Fin 2) (Fin 2) (Fin 5));
    try reflexivity.
  - exact assign_star_ranks_two_scores.
  - unfold fle. cbn [fleb]. apply Rleb_true. lra.
Defined.

(** ** [assign_star_ranks] followed by [calculate_cutoffs] *)

Lemma ranked_frame_rows (f : float -> float) (final_score : list float)
    (r : Cutoff.row) :
  In r (ranked_frame (map f final_score) final_score) ->
  In (Cutoff.final_score r) final_score /\
  Cutoff.starrank r = f (Cutoff.final_score r).
Proof.
  unfold ranked_frame.
  induction final_score as [|s l IH]; cbn [map combine In]; [tauto|].
  intros [<-|H]; cbn [Cutoff.final_score Cutoff.starrank fst snd].
  - tauto.
  - destruct (IH H). tauto.
Qed.

Lemma ranked_frame_valid (q1 q2 q3 q4 : float) (final_score : list float) :
  valid_ranks (ranked_frame (map (rank_of q1 q2 q3 q4) final_score) final_score).
Proof.
  intros r Hr. apply ranked_frame_rows in Hr. destruct Hr as [_ ->].
  right. apply rank_of_values.
Qed.

Lemma group_keys_full (df : list Cutoff.row) :
  valid_ranks df -> (5 <= length (Cutoff.group_keys df))%nat ->
  forall k, In k star_values -> rank_present df k.
Proof.
  intros Hv Hge k Hk.
  assert (Hincl : incl star_values (Cutoff.group_keys df)).
  { apply NoDup_length_incl.
    - apply strict_sorted_NoDup, group_keys_sorted.
    - exact Hge.
    - now apply group_keys_star. }
  apply (group_keys_In df k). now apply Hincl.
Qed.

Lemma calculate_cutoffs_cases (df : list Cutoff.row) :
  valid_ranks df ->
  Cutoff.calculate_cutoffs df = Raise KeyError \/
  ((forall k, In k star_values -> rank_present df k) /\
   Cutoff.calculate_cutoffs df =
   Ok (Cutoff.mkCutoffs
         (midpoint (rank_max df (Fin 1)) (rank_min df (Fin 2)))
         (midpoint (rank_max df (Fin 2)) (rank_min df (Fin 3)))
         (midpoint (rank_max df (Fin 3)) (rank_min df (Fin 4)))
         (midpoint (rank_max df (Fin 4)) (rank_min df (Fin 5))))).
Proof.
  intros Hv.
  destruct (Nat.lt_ge_cases (length (Cutoff.group_keys df)) 5) as [Hlt|Hge].
  - left. unfold Cutoff.calculate_cutoffs. apply cutoffs_short.
    unfold Cutoff.groupby_min_max. now rewrite length_map.
  - right. pose proof (group_keys_full df Hv Hge) as Hall.
    split; [exact Hall | now apply calculate_cutoffs_present].
Qed.

Lemma dropna_all_missing (l : list float) :
  (forall x, In x l -> x = NaN) -> dropna l = [].
Proof.
  unfold dropna. induction l as [|a l IH]; intros H; [reflexivity|].
  cbn [filter]. rewrite (H a (or_introl eq_refl)). cbn.
  apply IH. intros x Hx. apply H. now right.
Qed.

Lemma isna_eq (a : float) : isna a = true -> a = NaN.
Proof. destruct a; cbn; congruence. Qed.

(** X8. In [process] the ranks given by [assign_star_ranks] are handed to
    [calculate_cutoffs].  Since rank 1 is held by exactly the facilities
    without a composite score, that pipeline never yields a first cutoff:
    either the positional lookup fails with [KeyError], or the cutoffs are
    returned with [star_1_cutoff] missing.  When every facility has a score
    no row has rank 1 and the lookup always fails. *)
Theorem ranks_then_cutoffs_no_first_cutoff (final_score ranks : list float) :
  StarRank.assign_star_ranks final_score = Ok ranks ->
  let df := ranked_frame ranks final_score in
  (Cutoff.calculate_cutoffs df = Raise KeyError \/
   exists c, Cutoff.calculate_cutoffs df = Ok c /\ Cutoff.star_1_cutoff c = NaN) /\
  ((forall s, In s final_score -> isna s = false) ->
   Cutoff.calculate_cutoffs df = Raise KeyError).
Proof.
  intros H df. subst df.
  destruct (assign_star_ranks_inv _ _ H) as [q1 [q2 [q3 [q4 ->]]]].
  set (df := ranked_frame _ _).
  pose proof (ranked_frame_valid q1 q2 q3 q4 final_score) as Hv. fold df in Hv.
  assert (Hone : forall r, In r df -> Cutoff.starrank r = Fin 1 ->
                           Cutoff.final_score r = NaN).
  { intros r Hr E. apply ranked_frame_rows in Hr. destruct Hr as [_ Hr].
    rewrite Hr in E. apply isna_eq. now apply rank_of_values in E. }
  split.
  - destruct (calculate_cutoffs_cases df Hv) as [HK|[_ HOk]]; [now left|].
    right. eexists. split; [exact HOk|]. cbn [Cutoff.star_1_cutoff].
    unfold midpoint, rank_max, Cutoff.agg.
    rewrite dropna_all_missing; [reflexivity|].
    intros x Hx. unfold Cutoff.group_scores in Hx.
    apply in_map_iff in Hx. destruct Hx as [r [<- Hr]].
    apply filter_In in Hr. destruct Hr as [Hr E]. apply feqb_eq in E.
    now apply Hone.
  - intros Hall. apply calculate_cutoffs_absent; [exact Hv|].
    exists (Fin 1). split; [cbn; tauto|].
    intros [r [Hr E]]. pose proof (Hone r Hr E) as Hn.
    apply ranked_frame_rows in Hr. destruct Hr as [Hin _].
    specialize (Hall _ Hin). rewrite Hn in Hall. discriminate.
Qed.

Lemma ranks_then_cutoffs_no_first_cutoff_witness :
  let df := ranked_frame [Fin 2; Fin 5] [Fin 1; Fin 2] in
  (Cutoff.calculate_cutoffs df = Raise KeyError \/
   exists c, Cutoff.calculate_cutoffs df = Ok c /\ Cutoff.star_1_cutoff c = NaN) /\
  ((forall s, In s [Fin 1; Fin 2] -> isna s = false) ->
   Cutoff.calculate_cutoffs df = Raise KeyError).
Proof.
  apply (ranks_then_cutoffs_no_first_cutoff [Fin 1; Fin 2] [Fin 2; Fin 5]).
  exact assign_star_ranks_two_scores.
Defined.

Lemma dropna_all_present (l : list float) :
  (forall y, In y l -> notna y = true) -> dropna l = l.
Proof.
  unfold dropna. induction l as [|a l IH]; intros H; [reflexivity|].
  cbn [filter]. rewrite (H a (or_introl eq_refl)). f_equal.
  apply IH. intros y Hy. apply H. now right.
Qed.

Lemma fold_fmax2_Fin (l : list float) (a : R) :
  (forall y, In y l -> exists x, y = Fin x) ->
  exists M, fold_left Cutoff.fmax2 l (Fin a) = Fin M /\
            (M = a \/ In (Fin M) l) /\ a <= M /\
            forall x, In (Fin x) l -> x <= M.
Proof.
  revert a. induction l as [|y l IH]; intros a H.
  - exists a. cbn. repeat split; [tauto | lra | tauto].
  - destruct (H y (or_introl eq_refl)) as [x ->].
    assert (Hl : forall y, In y l -> exists x, y = Fin x)
      by (intros z Hz; apply H; now right).
    cbn [fold_left]. unfold Cutoff.fmax2 at 2. cbn [fltb].
    destruct (Rltb_spec a x) as [Hax|Hax].
    + destruct (IH x Hl) as [M [E [HM [Hle Hall]]]].
      exists M. split; [exact E|]. split; [|split; [lra|]].
      * right. destruct HM as [->|HM]; [now left | now right].
      * intros z [Ez|Hz]; [injection Ez as <-; lra | now apply Hall].
    + destruct (IH a Hl) as [M [E [HM [Hle Hall]]]].
      exists M. split; [exact E|]. split; [|split; [lra|]].
      * destruct HM as [->|HM]; [now left | right; now right].
      * intros z [Ez|Hz]; [injection Ez as <-; lra | now apply Hall].
Qed.

Lemma fold_fmin2_Fin (l : list float) (a : R) :
  (forall y, In y l -> exists x, y = Fin x) ->
  exists m, fold_left Cutoff.fmin2 l (Fin a) = Fin m /\
            (m = a \/ In (Fin m) l) /\ m <= a /\
            forall x, In (Fin x) l -> m <= x.
Proof.
  revert a. induction l as [|y l IH]; intros a H.
  - exists a. cbn. repeat split; [tauto | lra | tauto].
  - destruct (H y (or_introl eq_refl)) as [x ->].
    assert (Hl : forall y, In y l -> exists x, y = Fin x)
      by (intros z Hz; apply H; now right).
    cbn [fold_left]. unfold Cutoff.fmin2 at 2. cbn [fltb].
    destruct (Rltb_spec x a) as [Hax|Hax].
    + destruct (IH x Hl) as [m [E [Hm [Hle Hall]]]].
      exists m. split; [exact E|]. split; [|split; [lra|]].
      * right. destruct Hm as [->|Hm]; [now left | now right].
      * intros z [Ez|Hz]; [injection Ez as <-; lra | now apply Hall].
    + destruct (IH a Hl) as [m [E [Hm [Hle Hall]]]].
      exists m. split; [exact E|]. split; [|split; [lra|]].
      * destruct Hm as [->|Hm]; [now left | right; now right].
      * intros z [Ez|Hz]; [injection Ez as <-; lra | now apply Hall].
Qed.

Lemma agg_fmax2_Fin (l : list float) :
  (forall y, In y l -> exists x, y = Fin x) -> l <> [] ->
  exists M, Cutoff.agg Cutoff.fmax2 l = Fin M /\ In (Fin M) l /\
            forall x, In (Fin x) l -> x <= M.
Proof.
  intros H Hne. unfold Cutoff.agg. rewrite dropna_all_present.
  2:{ intros y Hy. destruct (H y Hy) as [x ->]. reflexivity. }
  destruct l as [|y l]; [congruence|].
  destruct (H y (or_introl eq_refl)) as [a ->].
  destruct (fold_fmax2_Fin l a) as [M [E [HM [Hle Hall]]]].
  { intros z Hz. apply H. now right. }
  exists M. split; [exact E|]. split.
  - destruct HM as [->|HM]; [now left | now right].
  - intros x [Ex|Hx]; [injection Ex as <-; lra | now apply Hall].
Qed.

Lemma agg_fmin2_Fin (l : list float) :
  (forall y, In y l -> exists x, y = Fin x) -> l <> [] ->
  exists m, Cutoff.agg Cutoff.fmin2 l = Fin m /\ In (Fin m) l /\
            forall x, In (Fin x) l -> m <= x.
Proof.
  intros H Hne. unfold Cutoff.agg. rewrite dropna_all_present.
  2:{ intros y Hy. destruct (H y Hy) as [x ->]. reflexivity. }
  destruct l as [|y l]; [congruence|].
  destruct (H y (or_introl eq_refl)) as [a ->].
  destruct (fold_fmin2_Fin l a) as [m [E [Hm [Hle Hall]]]].
  { intros z Hz. apply H. now right. }
  exists m. split; [exact E|]. split.
  - destruct Hm as [->|Hm]; [now left | now right].
  - intros x [Ex|Hx]; [injection Ex as <-; lra | now apply Hall].
Qed.

Lemma group_scores_In (df : list Cutoff.row) (n : R) (y : float) :
  In y (Cutoff.group_scores df (Fin n)) <->
  exists r, In r df /\ Cutoff.starrank r = Fin n /\ Cutoff.final_score r = y.
Proof.
  unfold Cutoff.group_scores. rewrite in_map_iff. split.
  - intros [r [E Hr]]. apply filter_In in Hr. destruct Hr as [Hr F].
    apply feqb_eq in F. exists r. tauto.
  - intros [r [Hr [F E]]]. exists r. split; [exact E|].
    apply filter_In. split; [exact Hr|]. rewrite F. cbn [feqb].
    apply Reqb_true. reflexivity.
Qed.

Lemma group_bounds (df : list Cutoff.row) (n : R) :
  (forall r, In r df -> Cutoff.starrank r = Fin n ->
             exists x, Cutoff.final_score r = Fin x) ->
  rank_present df (Fin n) ->
  exists m M,
    rank_min df (Fin n) = Fin m /\ rank_max df (Fin n) = Fin M /\
    (exists r, In r df /\ Cutoff.starrank r = Fin n /\ Cutoff.final_score r = Fin m) /\
    (exists r, In r df /\ Cutoff.starrank r = Fin n /\ Cutoff.final_score r = Fin M) /\
    forall r x, In r df -> Cutoff.starrank r = Fin n ->
                Cutoff.final_score r = Fin x -> m <= x <= M.
Proof.
  intros Hfin [r0 [Hr0 E0]].
  assert (Hall : forall y, In y (Cutoff.group_scores df (Fin n)) ->
                           exists x, y = Fin x).
  { intros y Hy. apply group_scores_In in Hy. destruct Hy as [r [Hr [F <-]]].
    now apply Hfin. }
  assert (Hne : Cutoff.group_scores df (Fin n) <> []).
  { intros E. assert (Hin : In (Cutoff.final_score r0) (Cutoff.group_scores df (Fin n)))
      by (apply group_scores_In; exists r0; tauto).
    rewrite E in Hin. exact Hin. }
  destruct (agg_fmin2_Fin _ Hall Hne) as [m [Em [Hm Hlow]]].
  destruct (agg_fmax2_Fin _ Hall Hne) as [M [EM [HM Hup]]].
  exists m, M. unfold rank_min, rank_max.
  split; [exact Em|]. split; [exact EM|].
  split; [now apply group_scores_In|]. split; [now apply group_scores_In|].
  intros r x Hr F Ex.
  assert (Hin : In (Fin x) (Cutoff.group_scores df (Fin n)))
    by (apply group_scores_In; exists r; tauto).
  split; [now apply Hlow | now apply Hup].
Qed.

Lemma ranked_frame_In (f : float -> float) (final_score : list float) (s : float) :
  In s final_score ->
  In (Cutoff.mkRow (f s) s) (ranked_frame (map f final_score) final_score).
Proof.
  unfold ranked_frame.
  induction final_score as [|a l IH]; cbn [map combine In]; [tauto|].
  intros [->|H]; [now left | right; now apply IH].
Qed.

Lemma midpoint_Fin (a b : R) : midpoint (Fin a) (Fin b) = Fin ((a + b) / 2).
Proof. unfold midpoint. cbn [fadd]. apply fdiv_Fin. lra. Qed.

Lemma rank_max_one_missing (df : list Cutoff.row) :
  (forall r, In r df -> Cutoff.starrank r = Fin 1 -> Cutoff.final_score r = NaN) ->
  rank_max df (Fin 1) = NaN.
Proof.
  intros H. unfold rank_max, Cutoff.agg.
  rewrite dropna_all_missing; [reflexivity|].
  intros x Hx. apply group_scores_In in Hx. destruct Hx as [r [Hr [F <-]]].
  now apply H.
Qed.

(** X9. When [assign_star_ranks] has used all five ranks on a frame whose
    scores are finite or missing, [calculate_cutoffs] on the ranked frame
    returns a missing first cutoff and finite cutoffs 2, 3 and 4 in increasing
    order, and these separate the ranks: every facility of rank 2 scores at
    most cutoff 2, every facility of rank 3 lies between cutoffs 2 and 3, of
    rank 4 between cutoffs 3 and 4, and of rank 5 at or above cutoff 4. *)
Theorem ranks_then_cutoffs_separate (final_score ranks : list float) :
  Forall finite_or_missing final_score ->
  StarRank.assign_star_ranks final_score = Ok ranks ->
  (forall k, In k star_values -> In k ranks) ->
  exists c2 c3 c4 : R,
    Cutoff.calculate_cutoffs (ranked_frame ranks final_score) =
      Ok (Cutoff.mkCutoffs NaN (Fin c2) (Fin c3) (Fin c4)) /\
    c2 <= c3 /\ c3 <= c4 /\
    forall i s r,
      nth_error final_score i = Some (Fin s) -> nth_error ranks i = Some r ->
      (r = Fin 2 -> s <= c2) /\
      (r = Fin 3 -> c2 <= s <= c3) /\
      (r = Fin 4 -> c3 <= s <= c4) /\
      (r = Fin 5 -> c4 <= s).
Proof.
  intros Hfm H Hused.
  destruct (assign_star_ranks_inv _ _ H) as [q1 [q2 [q3 [q4 ->]]]].
  set (f := rank_of q1 q2 q3 q4) in *.
  set (df := ranked_frame (map f final_score) final_score).
  pose proof (ranked_frame_valid q1 q2 q3 q4 final_score) as Hv.
  fold f in Hv. fold df in Hv.
  assert (Hrow : forall r, In r df -> In (Cutoff.final_score r) final_score /\
                                      Cutoff.starrank r = f (Cutoff.final_score r))
    by (intros r Hr; now apply ranked_frame_rows).
  assert (Hfin : forall n, n <> 1 -> forall r, In r df ->
                 Cutoff.starrank r = Fin n -> exists x, Cutoff.final_score r = Fin x).
  { intros n Hn r Hr E. destruct (Hrow r Hr) as [Hin Er].
    rewrite Forall_forall in Hfm. destruct (Hfm _ Hin) as [En|Ex]; [|exact Ex].
    rewrite Er, En in E. unfold f, rank_of in E. cbn [isna] in E.
    injection E as E. congruence. }
  assert (Hone : forall r, In r df -> Cutoff.starrank r = Fin 1 ->
                           Cutoff.final_score r = NaN).
  { intros r Hr E. destruct (Hrow r Hr) as [_ Er]. rewrite Er in E.
    apply isna_eq. now apply rank_of_values in E. }
  assert (Hpres : forall k, In k star_values -> rank_present df k).
  { intros k Hk. specialize (Hused k Hk). apply in_map_iff in Hused.
    destruct Hused as [s [E Hs]]. exists (Cutoff.mkRow (f s) s).
    split; [now apply ranked_frame_In | exact E]. }
  assert (Hcons : forall r r' a b x y, In r df -> In r' df ->
            Cutoff.starrank r = Fin a -> Cutoff.starrank r' = Fin b -> a < b ->
            Cutoff.final_score r = Fin x -> Cutoff.final_score r' = Fin y -> x <= y).
  { intros r r' a b x y Hr Hr' Ea Eb Hab Ex Ey.
    destruct (Rle_dec x y) as [Hle|Hgt]; [exact Hle|]. exfalso.
    destruct (Hrow r Hr) as [_ Er]. destruct (Hrow r' Hr') as [_ Er'].
    rewrite Ea, Ex in Er. rewrite Eb, Ey in Er'.
    assert (Hyx : fle (Fin y) (Fin x))
      by (unfold fle; cbn [fleb]; apply Rleb_true; lra).
    apply (rank_of_monotone q1 q2 q3 q4) in Hyx. fold f in Hyx.
    rewrite <- Er, <- Er' in Hyx. unfold fle in Hyx. cbn [fleb] in Hyx.
    destruct (Rleb_spec b a); [lra | discriminate]. }
  destruct (group_bounds df 2 (Hfin 2 ltac:(lra)) (Hpres (Fin 2) ltac:(cbn; tauto)))
    as [m2 [M2 [Em2 [EM2 [[a2 [Ha2 [Fa2 Sa2]]] [[b2 [Hb2 [Fb2 Sb2]]] B2]]]]]].
  destruct (group_bounds df 3 (Hfin 3 ltac:(lra)) (Hpres (Fin 3) ltac:(cbn; tauto)))
    as [m3 [M3 [Em3 [EM3 [[a3 [Ha3 [Fa3 Sa3]]] [[b3 [Hb3 [Fb3 Sb3]]] B3]]]]]].
  destruct (group_bounds df 4 (Hfin 4 ltac:(lra)) (Hpres (Fin 4) ltac:(cbn; tauto)))
    as [m4 [M4 [Em4 [EM4 [[a4 [Ha4 [Fa4 Sa4]]] [[b4 [Hb4 [Fb4 Sb4]]] B4]]]]]].
  destruct (group_bounds df 5 (Hfin 5 ltac:(lra)) (Hpres (Fin 5) ltac:(cbn; tauto)))
    as [m5 [M5 [Em5 [EM5 [[a5 [Ha5 [Fa5 Sa5]]] [[b5 [Hb5 [Fb5 Sb5]]] B5]]]]]].
  pose proof (Hcons b2 a3 2 3 M2 m3 Hb2 Ha3 Fb2 Fa3 ltac:(lra) Sb2 Sa3) as H23.
  pose proof (Hcons b3 a4 3 4 M3 m4 Hb3 Ha4 Fb3 Fa4 ltac:(lra) Sb3 Sa4) as H34.
  pose proof (Hcons b4 a5 4 5 M4 m5 Hb4 Ha5 Fb4 Fa5 ltac:(lra) Sb4 Sa5) as H45.
  pose proof (B3 a3 m3 Ha3 Fa3 Sa3) as W3.
  pose proof (B4 a4 m4 Ha4 Fa4 Sa4) as W4.
  exists ((M2 + m3) / 2), ((M3 + m4) / 2), ((M4 + m5) / 2).
  split.
  { rewrite (calculate_cutoffs_present df Hv Hpres).
    rewrite (rank_max_one_missing df Hone), EM2, EM3, EM4, Em3, Em4, Em5.
    rewrite !midpoint_Fin. reflexivity. }
  split; [lra|]. split; [lra|].
  intros i s r Hs Hr. rewrite nth_error_map, Hs in Hr. cbn in Hr.
  injection Hr as <-.
  assert (Hin : In (Cutoff.mkRow (f (Fin s)) (Fin s)) df)
    by (apply ranked_frame_In; eapply nth_error_In; exact Hs).
  split; [|split; [|split]]; intros E.
  - pose proof (B2 _ s Hin E eq_refl). lra.
  - pose proof (B3 _ s Hin E eq_refl). lra.
  - pose proof (B4 _ s Hin E eq_refl). lra.
  - pose proof (B5 _ s Hin E eq_refl). lra.
Qed.

Lemma assign_star_ranks_six :
  StarRank.assign_star_ranks [NaN; Fin 1; Fin 2; Fin 3; Fin 4; Fin 5]
  = Ok [Fin 1; Fin 2; Fin 3; Fin 4; Fin 5; Fin 5].
Proof.
  rewrite (assign_star_ranks_rows _ (Fin (14/10)) (Fin (22/10)) (Fin (38/10))
             (Fin (46/10)) (Fin 5)).
  - cbn [map isna fleb]. Rcmp. reflexivity.
  - unfold np_percentile, dropna. cbn [filter notna isna negb mapM].
    unfold np_percentile1, np_sort.
    cbn [fold_right insert_sorted fleb length]. Rcmp.
    cbn [fold_right insert_sorted fleb length]. Rcmp.
    cbn [fold_right insert_sorted fleb length]. Rcmp.
    cbn [fold_right insert_sorted fleb length]. Rcmp.
    cbv zeta.
    change (Z.of_nat 5 - 1)%Z with 4%Z.
    repeat match goal with
    | |- context [(?a * 4)%Z] =>
        let v := eval vm_compute in (a * 4)%Z in change (a * 4)%Z with v
    end.
    repeat match goal with
    | |- context [Z.to_nat (?a / 100)] =>
        let v := eval vm_compute in (Z.to_nat (a / 100)) in
        change (Z.to_nat (a / 100)) with v
    | |- context [(?a mod 100)%Z] =>
        let v := eval vm_compute in (a mod 100)%Z in
        change (a mod 100)%Z with v
    end.
    cbn [Nat.sub Nat.min nth bind]. unfold lerp. cbn [fsub fopp fadd fmul bind].
    apply f_equal. repeat (apply f_equal2; [apply f_equal; lra|]). reflexivity.
Qed.

Lemma ranks_then_cutoffs_separate_witness :
  exists c2 c3 c4 : R,
    Cutoff.calculate_cutoffs
      (ranked_frame [Fin 1; Fin 2; Fin 3; Fin 4; Fin 5; Fin 5]
                    [NaN; Fin 1; Fin 2; Fin 3; Fin 4; Fin 5]) =
      Ok (Cutoff.mkCutoffs NaN (Fin c2) (Fin c3) (Fin c4)) /\
    c2 <= c3 /\ c3 <= c4 /\
    forall i s r,
      nth_error [NaN; Fin 1; Fin 2; Fin 3; Fin 4; Fin 5] i = Some (Fin s) ->
      nth_error [Fin 1; Fin 2; Fin 3; Fin 4; Fin 5; Fin 5] i = Some r ->
      (r = Fin 2 -> s <= c2) /\
      (r = Fin 3 -> c2 <= s <= c3) /\
      (r = Fin 4 -> c3 <= s <= c4) /\
      (r = Fin 5 -> c4 <= s).
Proof.
  apply (ranks_then_cutoffs_separate [NaN; Fin 1; Fin 2; Fin 3; Fin 4; Fin 5]
           [Fin 1; Fin 2; Fin 3; Fin 4; Fin 5; Fin 5]).
  - repeat (apply Forall_cons;
            [first [left; reflexivity | right; eexists; reflexivity]|]).
    apply Forall_nil.
  - exact assign_star_ranks_six.
  - intros k Hk. cbn in Hk |- *. tauto.
Defined.

(** ** PercentileCalculator: ranks, percentiles and probits *)

Lemma count_le_length (p : float -> bool) (l : list float) :
  (Percentile.count p l <= length l)%nat.
Proof. unfold Percentile.count. apply filter_length_le. Qed.

Lemma count_In (p : float -> bool) (l : list float) (x : float) :
  In x l -> p x = true -> (1 <= Percentile.count p l)%nat.
Proof.
  unfold Percentile.count. intros Hin Hp.
  assert (H : In x (filter p l)) by (apply filter_In; tauto).
  destruct (filter p l); [destruct H | cbn; lia].
Qed.

Lemma count_disjoint_le (p q r : float -> bool) (l : list float) :
  (forall z, p z = true -> q z = false) ->
  (forall z, p z = true -> r z = true) ->
  (forall z, q z = true -> r z = true) ->
  (Percentile.count p l + Percentile.count q l <= Percentile.count r l)%nat.
Proof.
  unfold Percentile.count. intros Hpq Hpr Hqr.
  induction l as [|z l IH]; [cbn; lia|].
  cbn [filter].
  destruct (p z) eqn:Ep.
  - rewrite (Hpq z Ep), (Hpr z Ep). cbn [length]. lia.
  - destruct (q z) eqn:Eq.
    + rewrite (Hqr z Eq). cbn [length]. lia.
    + destruct (r z); cbn [length]; lia.
Qed.

Lemma flt_not_feq (z x : float) : fltb z x = true -> feqb z x = false.
Proof. destruct z, x; intros; fcases. Qed.

Lemma feqb_refl (x : float) : isna x = false -> feqb x x = true.
Proof. destruct x; intros; fcases. Qed.

Lemma rank_average_bounds (col : list float) (x : float) :
  In x col -> isna x = false ->
  exists r, Percentile.rank_average col x = Fin r /\
            1 <= r <= INR (length col).
Proof.
  intros Hin Hx. unfold Percentile.rank_average. rewrite Hx.
  eexists. split; [reflexivity|].
  pose proof (count_In (fun y => feqb y x) col x Hin (feqb_refl x Hx)) as H1.
  pose proof (count_disjoint_le (fun y => fltb y x) (fun y => feqb y x)
                (fun _ => true) col (fun z => flt_not_feq z x)
                (fun _ _ => eq_refl) (fun _ _ => eq_refl)) as H2.
  pose proof (count_le_length (fun _ => true) col) as H3.
  set (a := Percentile.count (fun y => fltb y x) col) in *.
  set (b := Percentile.count (fun y => feqb y x) col) in *.
  assert (Ha : 0 <= INR a) by apply pos_INR.
  assert (Hb : 1 <= INR b) by (change 1 with (INR 1); now apply le_INR).
  assert (Hab : INR a + INR b <= INR (length col))
    by (rewrite <- plus_INR; apply le_INR; lia).
  lra.
Qed.

Lemma ranked_index_bounds (col : list float) (x : float) :
  In x col -> isna x = false ->
  exists k,
    Percentile.astype_int (fsub (Percentile.rank_average col x) (Fin 1)) = Ok k /\
    (0 <= k <= Z.of_nat (length col) - 1)%Z.
Proof.
  intros Hin Hx.
  destruct (rank_average_bounds col x Hin Hx) as [r [-> [Hlo Hhi]]].
  cbn [fsub fopp fadd Percentile.astype_int].
  rewrite Rleb_true by lra.
  eexists. split; [reflexivity|].
  split.
  - apply Zfloor_lub. lra.
  - apply le_IZR. rewrite minus_IZR, <- INR_IZR_INZ.
    pose proof (Zfloor_bound (r + - (1))). lra.
Qed.

Lemma mapM_nth {A B} (f : A -> result B) (l : list A) (l' : list B) :
  mapM f l = Ok l' ->
  length l' = length l /\
  forall i y, nth_error l' i = Some y ->
              exists x, nth_error l i = Some x /\ f x = Ok y.
Proof.
  revert l'. induction l as [|a l IH]; intros l' H; cbn [mapM] in H.
  - injection H as <-. split; [reflexivity|]. intros [|i] y E; discriminate.
  - destruct (f a) as [b|e] eqn:Ea; cbn [bind] in H; [|discriminate].
    destruct (mapM f l) as [bs|e]; cbn [bind] in H; [|discriminate].
    injection H as <-. destruct (IH bs eq_refl) as [Hlen Hnth].
    split; [cbn; now rewrite Hlen|].
    intros [|i] y E; cbn [nth_error] in *.
    + injection E as <-. exists a. tauto.
    + now apply Hnth.
Qed.

Lemma mapM_raises {A B} (f : A -> result B) (l : list A) (e : exn) :
  (forall x e', f x = Raise e' -> e' = e) ->
  (exists x, In x l /\ f x = Raise e) ->
  mapM f l = Raise e.
Proof.
  intros Hone [x [Hin Hx]].
  induction l as [|a l IH]; [destruct Hin|].
  cbn [mapM]. destruct (f a) as [b|e'] eqn:Ea; cbn [bind].
  - destruct Hin as [->|Hin]; [congruence|]. now rewrite (IH Hin).
  - now rewrite (Hone a e' Ea).
Qed.

Lemma mapM_total {A B} (f : A -> result B) (l : list A) :
  (forall x, In x l -> exists y, f x = Ok y) -> exists l', mapM f l = Ok l'.
Proof.
  induction l as [|a l IH]; intros H; [now exists []|].
  destruct (H a (or_introl eq_refl)) as [b Eb].
  destruct IH as [bs Ebs]; [intros x Hx; apply H; now right|].
  exists (b :: bs). cbn [mapM]. now rewrite Eb, Ebs.
Qed.

Lemma rank_average_monotone (col : list float) (x y : float) :
  fle x y ->
  exists rx ry, Percentile.rank_average col x = Fin rx /\
                Percentile.rank_average col y = Fin ry /\ rx <= ry.
Proof.
  intros Hle.
  assert (Hx : isna x = false)
    by (unfold fle in Hle; destruct x, y; cbn [fleb isna] in *; congruence).
  assert (Hy : isna y = false)
    by (unfold fle in Hle; destruct x, y; cbn [fleb isna] in *; congruence).
  unfold Percentile.rank_average. rewrite Hx, Hy.
  do 2 eexists. split; [reflexivity|]. split; [reflexivity|].
  destruct (feqb x y) eqn:E.
  - apply feqb_eq in E. subst y. lra.
  - pose proof (fle_neq_flt x y Hle E) as Hlt.
    pose proof (count_disjoint_le (fun z => fltb z x) (fun z => feqb z x)
                  (fun z => fltb z y) col (fun z => flt_not_feq z x)) as H.
    assert (H' : (Percentile.count (fun z => fltb z x) col
                  + Percentile.count (fun z => feqb z x) col
                  <= Percentile.count (fun z => fltb z y) col)%nat).
    { apply H.
      - intros z Hz. exact (flt_trans z x y Hz Hlt).
      - intros z Hz. apply feqb_eq in Hz. subst z. exact Hlt. }
    apply le_INR in H'. rewrite plus_INR in H'.
    pose proof (pos_INR (Percentile.count (fun z => feqb z x) col)).
    pose proof (pos_INR (Percentile.count (fun z => feqb z y) col)).
    lra.
Qed.

Lemma In_NaN_dec (col : list float) :
  In NaN col \/ forall x, In x col -> isna x = false.
Proof.
  induction col as [|a col [IH|IH]].
  - right. intros x [].
  - left. now right.
  - destruct (isna a) eqn:E.
    + left. left. now apply isna_eq.
    + right. intros x [<-|Hx]; [exact E | now apply IH].
Qed.

Lemma mapM_nonempty {A B} (f : A -> result B) (l : list A) (l' : list B) :
  mapM f l = Ok l' -> l <> [] -> l' <> [].
Proof.
  intros H Hne E. subst l'. destruct (mapM_nth _ _ _ H) as [L _].
  destruct l; [congruence | discriminate].
Qed.

Lemma calculate_percentiles_rows (Phi_inv : R -> R) (col : list float) (ranked : list Z) :
  mapM (fun x => Percentile.astype_int
                   (fsub (Percentile.rank_average col x) (Fin 1))) col = Ok ranked ->
  col <> [] ->
  Percentile.calculate_percentiles Phi_inv col =
  Ok (map (fun k => (Percentile.to_percentile k,
                     Percentile.norm_ppf Phi_inv
                       (fdiv (Percentile.to_percentile k) (Fin 100)))) ranked).
Proof.
  intros H Hne.
  rewrite (calculate_percentiles_ok Phi_inv col ranked H
             (mapM_nonempty _ _ _ H Hne)).
  rewrite map_map. now rewrite combine_map_map.
Qed.

Lemma calculate_percentiles_empty (Phi_inv : R -> R) :
  Percentile.calculate_percentiles Phi_inv [] = Raise ValueError.
Proof. reflexivity. Qed.

(** X10. [calculate_percentiles] has two ways to fail and no other: on a
    frame without rows [percentiles.apply] raises [ValueError], and on a
    column with a missing value the missing rank cannot be cast to an
    integer and [IntCastingNaNError] is raised.  On every other column it
    returns one percentile and one probit score per facility. *)
Theorem calculate_percentiles_error_cases (Phi_inv : R -> R)
    (col : list float) :
  (col = [] /\
   Percentile.calculate_percentiles Phi_inv col = Raise ValueError) \/
  (In NaN col /\
   Percentile.calculate_percentiles Phi_inv col = Raise IntCastingNaNError) \/
  (col <> [] /\ ~ In NaN col /\
   exists out, Percentile.calculate_percentiles Phi_inv col = Ok out /\
               length out = length col).
Proof.
  destruct col as [|x0 col0] eqn:Ecol; [left; split; reflexivity|].
  rewrite <- Ecol. assert (Hne : col <> []) by (rewrite Ecol; discriminate).
  clear Ecol. right.
  destruct (In_NaN_dec col) as [Hin|Hno].
  - left. split; [exact Hin|]. unfold Percentile.calculate_percentiles.
    rewrite (mapM_raises _ col IntCastingNaNError); [reflexivity| |].
    + intros x e' E. unfold Percentile.astype_int in E.
      destruct (fsub _ _); congruence.
    + exists NaN. split; [exact Hin | reflexivity].
  - right. split; [exact Hne|]. split.
    + intros Hin. specialize (Hno _ Hin). discriminate.
    + destruct (mapM_total
                  (fun x => Percentile.astype_int
                              (fsub (Percentile.rank_average col x) (Fin 1))) col)
        as [ranked E].
      { intros x Hx. destruct (ranked_index_bounds col x Hx (Hno x Hx)) as [k [Ek _]].
        now exists k. }
      rewrite (calculate_percentiles_rows Phi_inv col ranked E Hne).
      eexists. split; [reflexivity|]. rewrite length_map.
      now destruct (mapM_nth _ _ _ E).
Qed.

Lemma calculate_percentiles_at (Phi_inv : R -> R) (col : list float) :
  col <> [] ->
  (forall x, In x col -> isna x = false) ->
  exists ranked,
    Percentile.calculate_percentiles Phi_inv col =
      Ok (map (fun k => (Percentile.to_percentile k,
                         Percentile.norm_ppf Phi_inv
                           (fdiv (Percentile.to_percentile k) (Fin 100)))) ranked) /\
    forall i k, nth_error ranked i = Some k ->
      exists x r, nth_error col i = Some x /\
                  Percentile.rank_average col x = Fin r /\
                  1 <= r <= INR (length col) /\ k = Zfloor (r + - (1)).
Proof.
  intros Hne Hno.
  destruct (mapM_total
              (fun x => Percentile.astype_int
                          (fsub (Percentile.rank_average col x) (Fin 1))) col)
    as [ranked E].
  { intros x Hx. destruct (ranked_index_bounds col x Hx (Hno x Hx)) as [k [Ek _]].
    now exists k. }
  exists ranked. split; [now apply calculate_percentiles_rows|].
  intros i k Hk. destruct (mapM_nth _ _ _ E) as [_ Hnth].
  destruct (Hnth i k Hk) as [x [Hx Ek]].
  pose proof (nth_error_In _ _ Hx) as Hin.
  destruct (rank_average_bounds col x Hin (Hno x Hin)) as [r [Er Hr]].
  exists x, r. repeat split; try tauto.
  rewrite Er in Ek. cbn [fsub fopp fadd Percentile.astype_int] in Ek.
  rewrite Rleb_true in Ek by lra. congruence.
Qed.



(** X12. On a non-empty column without missing values the percentile is
    monotone in the measure: a facility with the lower (or equal) value
    never receives the higher percentile. *)
Theorem calculate_percentiles_monotone (Phi_inv : R -> R) (col : list float) :
  col <> [] ->
  (forall x, In x col -> isna x = false) ->
  exists out,
    Percentile.calculate_percentiles Phi_inv col = Ok out /\
    forall i j x y px zx py zy,
      nth_error col i = Some x -> nth_error col j = Some y ->
      nth_error out i = Some (px, zx) -> nth_error out j = Some (py, zy) ->
      fle x y -> fle px py.
Proof.
  intros Hne Hno.
  destruct (calculate_percentiles_at Phi_inv col Hne Hno) as [ranked [E Hrk]].
  eexists. split; [exact E|].
  intros i j x y px zx py zy Hx Hy Hi Hj Hle.
  rewrite nth_error_map in Hi, Hj.
  destruct (nth_error ranked i) as [ki|] eqn:Eki; [|discriminate].
  destruct (nth_error ranked j) as [kj|] eqn:Ekj; [|discriminate].
  cbn in Hi, Hj. injection Hi as <- _. injection Hj as <- _.
  destruct (Hrk i ki Eki) as [x' [rx [Hx' [Erx [_ ->]]]]].
  destruct (Hrk j kj Ekj) as [y' [ry [Hy' [Ery [_ ->]]]]].
  assert (x' = x) by congruence. assert (y' = y) by congruence. subst x' y'.
  destruct (rank_average_monotone col x y Hle) as [rx' [ry' [E1 [E2 Hr]]]].
  assert (rx' = rx) by congruence. assert (ry' = ry) by congruence. subst rx' ry'.
  rewrite !to_percentile_val. unfold fle. cbn [fleb]. apply Rleb_true.
  assert (Hk : (Zfloor (rx + - (1)) <= Zfloor (ry + - (1)))%Z)
    by (apply Zfloor_le; lra).
  apply IZR_le in Hk. rewrite !plus_IZR. lra.
Qed.

Lemma calculate_percentiles_monotone_witness :
  exists out,
    Percentile.calculate_percentiles (fun p => p) [Fin 1; Fin 2] = Ok out /\
    forall i j x y px zx py zy,
      nth_error [Fin 1; Fin 2] i = Some x -> nth_error [Fin 1; Fin 2] j = Some y ->
      nth_error out i = Some (px, zx) -> nth_error out j = Some (py, zy) ->
      fle x y -> fle px py.
Proof.
  apply (calculate_percentiles_monotone (fun p => p) [Fin 1; Fin 2]).
  - discriminate.
  - intros x [<-|[<-|[]]]; reflexivity.
Defined.

(** ** Adjusted measures *)

Lemma adjust_insert_perm (m : Adjust.merged_row) (l : list Adjust.merged_row) :
  Permutation (Adjust.insert_by_provfs m l) (m :: l).
Proof.
  induction l as [|a l IH]; cbn [Adjust.insert_by_provfs]; [reflexivity|].
  destruct (Adjust.provfs m <=? Adjust.provfs a)%Z; [reflexivity|].
  rewrite IH. apply perm_swap.
Qed.

Lemma adjust_sort_perm (l : list Adjust.merged_row) :
  Permutation (Adjust.sort_values_provfs l) l.
Proof.
  induction l as [|a l IH]; cbn; [reflexivity|].
  rewrite adjust_insert_perm. now constructor.
Qed.

Lemma adjust_insert_sorted (m : Adjust.merged_row) (l : list Adjust.merged_row) :
  StronglySorted merged_by_provfs l ->
  StronglySorted merged_by_provfs (Adjust.insert_by_provfs m l).
Proof.
  induction 1 as [|a l Hs IH Ha]; cbn [Adjust.insert_by_provfs].
  - repeat constructor.
  - destruct (Adjust.provfs m <=? Adjust.provfs a)%Z eqn:E.
    + apply Z.leb_le in E. constructor; [now constructor|].
      constructor; [exact E|].
      eapply Forall_impl; [|exact Ha]. unfold merged_by_provfs. intros; lia.
    + apply Z.leb_gt in E. constructor; [exact IH|].
      apply Forall_forall. intros x Hx.
      apply (Permutation_in _ (adjust_insert_perm m l)) in Hx.
      destruct Hx as [<-|Hx]; [unfold merged_by_provfs; lia|].
      rewrite Forall_forall in Ha. now apply Ha.
Qed.

Lemma adjust_sort_sorted (l : list Adjust.merged_row) :
  StronglySorted merged_by_provfs (Adjust.sort_values_provfs l).
Proof.
  induction l as [|a l IH]; cbn; [constructor | now apply adjust_insert_sorted].
Qed.

Lemma merge_inner_In (adj : list Adjust.factor_row) (cur : list Adjust.current_row)
    (a : Adjust.factor_row) (c : Adjust.current_row) :
  In (a, c) (Adjust.merge_inner adj cur) <->
  In a adj /\ In c cur /\ Adjust.f_provfs a = Adjust.c_provfs c.
Proof.
  unfold Adjust.merge_inner. rewrite in_flat_map. split.
  - intros [a' [Ha H]]. apply in_map_iff in H. destruct H as [c' [E Hc]].
    injection E as -> ->. apply filter_In in Hc. destruct Hc as [Hc F].
    apply Z.eqb_eq in F. auto.
  - intros [Ha [Hc E]]. exists a. split; [exact Ha|].
    apply in_map_iff. exists c. split; [reflexivity|].
    apply filter_In. split; [exact Hc|]. apply Z.eqb_eq. auto.
Qed.

Lemma calculate_adjusted_measures_In (adj : list Adjust.factor_row)
    (cur : list Adjust.current_row) (m : Adjust.merged_row) :
  In m (Adjust.calculate_adjusted_measures adj cur) <->
  exists a c, In a adj /\ In c cur /\ Adjust.f_provfs a = Adjust.c_provfs c /\
              m = Adjust.adjusted (a, c).
Proof.
  unfold Adjust.calculate_adjusted_measures. split.
  - intros H. apply (Permutation_in _ (adjust_sort_perm _)) in H.
    apply in_map_iff in H. destruct H as [[a c] [E H]].
    apply merge_inner_In in H. exists a, c. intuition.
  - intros [a [c [Ha [Hc [E ->]]]]].
    apply (Permutation_in _ (Permutation_sym (adjust_sort_perm _))).
    apply in_map. apply merge_inner_In. auto.
Qed.

(** X13. [calculate_adjusted_measures] returns its rows in increasing order
    of [provfs].  Each row joins a factor row and a current-year row of the
    same facility, carries the five products measure times factor as
    [adj_var*_f] and the same values again as [raw_var*_f]; and every such
    pair of input rows gives a row of the output. *)
Theorem calculate_adjusted_measures_joins (adj_factor_df : list Adjust.factor_row)
    (fivestar_current_df : list Adjust.current_row) :
  let out := Adjust.calculate_adjusted_measures adj_factor_df fivestar_current_df in
  StronglySorted merged_by_provfs out /\
  (forall m, In m out ->
     In (Adjust.left m) adj_factor_df /\
     In (Adjust.right m) fivestar_current_df /\
     Adjust.f_provfs (Adjust.left m) = Adjust.c_provfs (Adjust.right m) /\
     Adjust.adj_var1_f m =
       fmul (Adjust.star_var1_f_current (Adjust.right m))
            (Adjust.factor_var1 (Adjust.left m)) /\
     Adjust.adj_var2_f m =
       fmul (Adjust.star_var2_f_current (Adjust.right m))
            (Adjust.factor_var2 (Adjust.left m)) /\
     Adjust.adj_var3_f m =
       fmul (Adjust.star_var3_f_current (Adjust.right m))
            (Adjust.factor_var3 (Adjust.left m)) /\
     Adjust.adj_var4_f m =
       fmul (Adjust.star_var4_f_current (Adjust.right m))
            (Adjust.factor_var4 (Adjust.left m)) /\
     Adjust.adj_var5_f m =
       fmul (Adjust.star_var5_f_current (Adjust.right m))
            (Adjust.factor_var5 (Adjust.left m)) /\
     Adjust.raw_var1_f m = Adjust.adj_var1_f m /\
     Adjust.raw_var2_f m = Adjust.adj_var2_f m /\
     Adjust.raw_var3_f m = Adjust.adj_var3_f m /\
     Adjust.raw_var4_f m = Adjust.adj_var4_f m /\
     Adjust.raw_var5_f m = Adjust.adj_var5_f m) /\
  (forall a c, In a adj_factor_df -> In c fivestar_current_df ->
     Adjust.f_provfs a = Adjust.c_provfs c ->
     exists m, In m out /\ Adjust.left m = a /\ Adjust.right m = c).
Proof.
  cbv zeta. split; [apply adjust_sort_sorted|]. split.
  - intros m Hm. apply calculate_adjusted_measures_In in Hm.
    destruct Hm as [a [c [Ha [Hc [E ->]]]]]. cbn. tauto.
  - intros a c Ha Hc E. exists (Adjust.adjusted (a, c)).
    split; [|split; reflexivity].
    apply calculate_adjusted_measures_In. exists a, c. tauto.
Qed.

Lemma filter_key_unique (cur : list Adjust.current_row) (z : Z) :
  NoDup (map Adjust.c_provfs cur) ->
  (length (filter (fun c => (Adjust.c_provfs c =? z)%Z) cur) <= 1)%nat.
Proof.
  induction cur as [|c cur IH]; cbn [map filter]; intros H; [cbn; lia|].
  inversion H as [|? ? Hnotin Hnd]; subst.
  destruct (Adjust.c_provfs c =? z)%Z eqn:E; [|now apply IH].
  apply Z.eqb_eq in E. cbn [length].
  destruct (filter (fun c0 => (Adjust.c_provfs c0 =? z)%Z) cur) as [|c' l] eqn:F;
    [cbn; lia|].
  exfalso. apply Hnotin.
  assert (Hc' : In c' (filter (fun c0 => (Adjust.c_provfs c0 =? z)%Z) cur))
    by (rewrite F; now left).
  apply filter_In in Hc'. destruct Hc' as [Hin Ez]. apply Z.eqb_eq in Ez.
  rewrite E, <- Ez. now apply in_map.
Qed.

Lemma merge_inner_keys_NoDup (adj : list Adjust.factor_row)
    (cur : list Adjust.current_row) :
  NoDup (map Adjust.f_provfs adj) -> NoDup (map Adjust.c_provfs cur) ->
  NoDup (map (fun p => Adjust.f_provfs (fst p)) (Adjust.merge_inner adj cur)).
Proof.
  intros Ha Hc. induction adj as [|a adj IH]; [constructor|].
  cbn [map] in Ha. inversion Ha as [|? ? Hnotin Hnd]; subst.
  unfold Adjust.merge_inner. cbn [flat_map]. fold (Adjust.merge_inner adj cur).
  rewrite map_app, map_map. cbn [fst].
  pose proof (filter_key_unique cur (Adjust.f_provfs a) Hc) as Hlen.
  destruct (filter (fun c => (Adjust.c_provfs c =? Adjust.f_provfs a)%Z) cur)
    as [|c [|c' l]]; cbn [map app length] in *; [now apply IH| |lia].
  constructor; [|now apply IH].
  intros Hin. apply Hnotin. apply in_map_iff in Hin.
  destruct Hin as [[a' c'] [E Hin]]. cbn [fst] in E.
  apply merge_inner_In in Hin. rewrite <- E. apply in_map. tauto.
Qed.

(** X14. The inner join keeps exactly the facilities that occur in both
    tables: a facility missing from either one is dropped without an error.
    When each table has one row per facility, so has the output. *)
Theorem calculate_adjusted_measures_common_facilities
    (adj_factor_df : list Adjust.factor_row)
    (fivestar_current_df : list Adjust.current_row) :
  let out := Adjust.calculate_adjusted_measures adj_factor_df fivestar_current_df in
  (forall z, In z (map Adjust.provfs out) <->
             In z (map Adjust.f_provfs adj_factor_df) /\
             In z (map Adjust.c_provfs fivestar_current_df)) /\
  (NoDup (map Adjust.f_provfs adj_factor_df) ->
   NoDup (map Adjust.c_provfs fivestar_current_df) ->
   NoDup (map Adjust.provfs out)).
Proof.
  cbv zeta. split.
  - intros z. rewrite !in_map_iff. split.
    + intros [m [<- Hm]]. apply calculate_adjusted_measures_In in Hm.
      destruct Hm as [a [c [Ha [Hc [E ->]]]]]. cbn. split.
      * exists a. tauto.
      * exists c. split; [symmetry; exact E | exact Hc].
    + intros [[a [<- Ha]] [c [E Hc]]]. exists (Adjust.adjusted (a, c)).
      split; [reflexivity|]. apply calculate_adjusted_measures_In.
      exists a, c. auto.
  - intros Ha Hc. unfold Adjust.calculate_adjusted_measures.
    eapply Permutation_NoDup.
    + apply Permutation_map. apply Permutation_sym. apply adjust_sort_perm.
    + rewrite map_map.
      erewrite map_ext; [apply (merge_inner_keys_NoDup _ _ Ha Hc)|].
      intros [a c]. reflexivity.
Qed.

(** ** The calculator on frames *)

Section FrameProperties.

Import Strings.String.

Lemma lookup_assign_same (n : string) (c : list float)
    (cols : list (string * list float)) :
  Frame.lookup n (Frame.assign n c cols) = Some c.
Proof.
  induction cols as [|[n' c'] cols IH]; cbn [Frame.assign Frame.lookup].
  - now rewrite String.eqb_refl.
  - destruct (String.eqb n' n) eqn:E; cbn [Frame.lookup]; rewrite E; auto.
Qed.

Lemma lookup_assign_other (n v : string) (c : list float)
    (cols : list (string * list float)) :
  String.eqb n v = false ->
  Frame.lookup v (Frame.assign n c cols) = Frame.lookup v cols.
Proof.
  intros Hnv.
  induction cols as [|[n' c'] cols IH]; cbn [Frame.assign Frame.lookup].
  - now rewrite Hnv.
  - destruct (String.eqb n' n) eqn:E; cbn [Frame.lookup].
    + apply String.eqb_eq in E. subst n'. now rewrite Hnv.
    + now rewrite IH.
Qed.

Lemma getitem_setitem_same (df : Frame.t) (n : string) (c : list float) :
  Frame.getitem (Frame.setitem df n c) n = Ok c.
Proof.
  unfold Frame.getitem, Frame.setitem. cbn [Frame.columns].
  now rewrite lookup_assign_same.
Qed.

Lemma getitem_setitem_other (df : Frame.t) (n v : string) (c : list float) :
  String.eqb n v = false ->
  Frame.getitem (Frame.setitem df n c) v = Frame.getitem df v.
Proof.
  intros H. unfold Frame.getitem, Frame.setitem. cbn [Frame.columns].
  now rewrite lookup_assign_other.
Qed.

Lemma lookup_without_yr (v : string) (cols : list (string * list float)) :
  Frame.lookup v (filter (fun p => negb (String.eqb (fst p) "yr")) cols) =
  if String.eqb "yr" v then None else Frame.lookup v cols.
Proof.
  induction cols as [|[n c] cols IH]; cbn [filter Frame.lookup fst].
  - now destruct (String.eqb "yr" v).
  - destruct (String.eqb n "yr") eqn:En; cbn [negb Frame.lookup].
    + apply String.eqb_eq in En. subst n. rewrite IH.
      now destruct (String.eqb "yr" v).
    + rewrite IH. destruct (String.eqb n v) eqn:Env.
      * apply String.eqb_eq in Env. subst n.
        rewrite String.eqb_sym in En. now rewrite En.
      * reflexivity.
Qed.

Lemma getitem_set_yr (df : Frame.t) (label v : string) :
  String.eqb "yr" v = false ->
  Frame.getitem (Frame.set_yr df label) v = Frame.getitem df v.
Proof.
  intros H. unfold Frame.getitem, Frame.set_yr. cbn [Frame.columns].
  now rewrite lookup_without_yr, H.
Qed.

Lemma wf_set_yr (df : Frame.t) (label : string) :
  Frame.wf df -> Frame.wf (Frame.set_yr df label).
Proof.
  intros Hwf name c. unfold Frame.set_yr. cbn [Frame.columns Frame.nrows].
  rewrite lookup_without_yr. destruct (String.eqb "yr" name); [discriminate|].
  apply Hwf.
Qed.

Lemma getitem_raises (df : Frame.t) (v : string) (e : exn) :
  Frame.getitem df v = Raise e -> e = KeyError.
Proof.
  unfold Frame.getitem. destruct (Frame.lookup v (Frame.columns df)); congruence.
Qed.

Lemma getitem_cases (df : Frame.t) (v : string) :
  Frame.getitem df v = Raise KeyError \/ exists c, Frame.getitem df v = Ok c.
Proof.
  unfold Frame.getitem. destruct (Frame.lookup v (Frame.columns df)) as [c|];
    [right; now exists c | now left].
Qed.

Lemma update_inv (df df' : Frame.t) (n : string) (g : float -> float) :
  Calculator.update df n g = Ok df' ->
  exists c, Frame.getitem df n = Ok c /\ df' = Frame.setitem df n (map g c).
Proof.
  unfold Calculator.update. destruct (Frame.getitem df n) as [c|e]; cbn [bind];
    [|discriminate].
  intros H. injection H as <-. now exists c.
Qed.

Lemma update_raises (df : Frame.t) (n : string) (g : float -> float) (e : exn) :
  Calculator.update df n g = Raise e ->
  e = KeyError /\ Frame.getitem df n = Raise KeyError.
Proof.
  unfold Calculator.update. destruct (Frame.getitem df n) as [c|e'] eqn:E;
    cbn [bind]; [discriminate|].
  intros H. injection H as <-. pose proof (getitem_raises _ _ _ E). now subst.
Qed.

Lemma flip_100_order (x y : float) :
  fle x y <-> fle (fsub (Fin 100) y) (fsub (Fin 100) x).
Proof.
  unfold fle. destruct x, y; cbn [fsub fopp fadd fleb]; try tauto;
    split; intros H; Rreflect; try reflexivity; try discriminate; exfalso; lra.
Qed.

Lemma flip_100_isna (x : float) : isna (fsub (Fin 100) x) = isna x.
Proof. destruct x; reflexivity. Qed.

Lemma flip_neg_isna (x : float) : isna (fmul (Fin (-1)) x) = isna x.
Proof.
  destruct x; cbn [fmul isna]; try reflexivity;
    unfold inf_signed; Rcmp; reflexivity.
Qed.

Lemma flip_neg_order (x y : float) :
  fle x y <-> fle (fmul (Fin (-1)) y) (fmul (Fin (-1)) x).
Proof.
  unfold fle. destruct x, y; cbn [fmul fleb]; unfold inf_signed; Rcmp;
    cbn [fleb]; try tauto;
    split; intros H; Rreflect; try reflexivity; try discriminate; exfalso; lra.
Qed.

Lemma eqb_not_In (n v : string) (l : list string) :
  ~ In v l -> In n l -> String.eqb n v = false.
Proof.
  intros Hv Hn. destruct (String.eqb n v) eqn:E; [|reflexivity].
  apply String.eqb_eq in E. subst. contradiction.
Qed.

Ltac other_columns :=
  repeat (rewrite getitem_setitem_other by reflexivity).

Lemma preprocess_measures_inv (df df' : Frame.t) :
  Calculator.preprocess_measures df = Ok df' ->
  exists c3 c4 c6 c7 c8 c9,
    Frame.getitem df "star_var3_f" = Ok c3 /\
    Frame.getitem df "star_var4_f" = Ok c4 /\
    Frame.getitem df "star_var6_f" = Ok c6 /\
    Frame.getitem df "star_var7_f" = Ok c7 /\
    Frame.getitem df "star_var8_f" = Ok c8 /\
    Frame.getitem df "star_var9_f" = Ok c9 /\
    df' =
    Frame.set_yr
      (Frame.setitem
         (Frame.setitem
            (Frame.setitem
               (Frame.setitem
                  (Frame.setitem
                     (Frame.setitem df "star_var3_f"
                        (map (fun x => fsub (Fin 100) x) c3))
                     "star_var4_f" (map (fun x => fsub (Fin 100) x) c4))
                  "star_var6_f" (map (fun x => fmul (Fin (-1)) x) c6))
               "star_var7_f" (map (fun x => fmul (Fin (-1)) x) c7))
            "star_var8_f" (map (fun x => fmul (Fin (-1)) x) c8))
         "star_var9_f" (map (fun x => fmul (Fin (-1)) x) c9))
      "baseline".
Proof.
  unfold Calculator.preprocess_measures. intros H.
  destruct (Calculator.update df "star_var3_f" _) as [d1|] eqn:E1;
    cbn [bind] in H; [|discriminate].
  destruct (Calculator.update d1 "star_var4_f" _) as [d2|] eqn:E2;
    cbn [bind] in H; [|discriminate].
  destruct (Calculator.update d2 "star_var6_f" _) as [d3|] eqn:E3;
    cbn [bind] in H; [|discriminate].
  destruct (Calculator.update d3 "star_var7_f" _) as [d4|] eqn:E4;
    cbn [bind] in H; [|discriminate].
  destruct (Calculator.update d4 "star_var8_f" _) as [d5|] eqn:E5;
    cbn [bind] in H; [|discriminate].
  destruct (Calculator.update d5 "star_var9_f" _) as [d6|] eqn:E6;
    cbn [bind] in H; [|discriminate].
  injection H as <-.
  apply update_inv in E1. destruct E1 as [c3 [G3 ->]].
  apply update_inv in E2. destruct E2 as [c4 [G4 ->]].
  apply update_inv in E3. destruct E3 as [c6 [G6 ->]].
  apply update_inv in E4. destruct E4 as [c7 [G7 ->]].
  apply update_inv in E5. destruct E5 as [c8 [G8 ->]].
  apply update_inv in E6. destruct E6 as [c9 [G9 ->]].
  revert G4 G6 G7 G8 G9. other_columns. intros G4 G6 G7 G8 G9.
  exists c3, c4, c6, c7, c8, c9. tauto.
Qed.

Lemma preprocess_measures_raises (df : Frame.t) (e : exn) :
  Calculator.preprocess_measures df = Raise e ->
  e = KeyError /\
  exists v, In v Calculator.realigned_vars /\ Frame.getitem df v = Raise KeyError.
Proof.
  unfold Calculator.preprocess_measures, Calculator.realigned_vars. intros H.
  destruct (Calculator.update df "star_var3_f" _) as [d1|e1] eqn:E1;
    cbn [bind] in H.
  2:{ injection H as <-. apply update_raises in E1. destruct E1 as [-> G].
      split; [reflexivity|]. eexists. split; [|exact G]. cbn; tauto. }
  apply update_inv in E1. destruct E1 as [c3 [G3 ->]].
  destruct (Calculator.update _ "star_var4_f" _) as [d2|e2] eqn:E2;
    cbn [bind] in H.
  2:{ injection H as <-. apply update_raises in E2. destruct E2 as [-> G].
      revert G. other_columns. intros G.
      split; [reflexivity|]. eexists. split; [|exact G]. cbn; tauto. }
  apply update_inv in E2. destruct E2 as [c4 [G4 ->]].
  destruct (Calculator.update _ "star_var6_f" _) as [d3|e3] eqn:E3;
    cbn [bind] in H.
  2:{ injection H as <-. apply update_raises in E3. destruct E3 as [-> G].
      revert G. other_columns. intros G.
      split; [reflexivity|]. eexists. split; [|exact G]. cbn; tauto. }
  apply update_inv in E3. destruct E3 as [c6 [G6 ->]].
  destruct (Calculator.update _ "star_var7_f" _) as [d4|e4] eqn:E4;
    cbn [bind] in H.
  2:{ injection H as <-. apply update_raises in E4. destruct E4 as [-> G].
      revert G. other_columns. intros G.
      split; [reflexivity|]. eexists. split; [|exact G]. cbn; tauto. }
  apply update_inv in E4. destruct E4 as [c7 [G7 ->]].
  destruct (Calculator.update _ "star_var8_f" _) as [d5|e5] eqn:E5;
    cbn [bind] in H.
  2:{ injection H as <-. apply update_raises in E5. destruct E5 as [-> G].
      revert G. other_columns. intros G.
      split; [reflexivity|]. eexists. split; [|exact G]. cbn; tauto. }
  apply update_inv in E5. destruct E5 as [c8 [G8 ->]].
  destruct (Calculator.update _ "star_var9_f" _) as [d6|e6] eqn:E6;
    cbn [bind] in H; [discriminate|].
  injection H as <-. apply update_raises in E6. destruct E6 as [-> G].
  revert G. other_columns. intros G.
  split; [reflexivity|]. eexists. split; [|exact G]. cbn; tauto.
Qed.

(** X15. [preprocess_measures] raises [KeyError] when one of the six
    measures it realigns is absent from the frame and otherwise returns.
    The returned frame has the same rows and holds the label [baseline] in
    every row of its column [yr]; each realigned measure is replaced entry
    by entry by a transform that never keeps two entries in strictly
    ascending order (if [x <= y] then the transform of [y] is at most the
    transform of [x]) and keeps missing entries missing; every numeric
    column other than the six measures and [yr] reads as before. *)
Theorem preprocess_measures_realigns (df : Frame.t) :
  (exists v, In v Calculator.realigned_vars /\
             Frame.getitem df v = Raise KeyError /\
             Calculator.preprocess_measures df = Raise KeyError) \/
  (exists df', Calculator.preprocess_measures df = Ok df' /\
     Frame.nrows df' = Frame.nrows df /\
     Frame.yr df' = Some (repeat "baseline"%string (Frame.nrows df)) /\
     (forall v, In v Calculator.realigned_vars ->
        exists c g, Frame.getitem df v = Ok c /\
                    Frame.getitem df' v = Ok (map g c) /\
                    (forall x y, fle x y -> fle (g y) (g x)) /\
                    (forall x, isna (g x) = isna x)) /\
     (forall v, ~ In v Calculator.realigned_vars -> v <> "yr"%string ->
        Frame.getitem df' v = Frame.getitem df v)).
Proof.
  destruct (Calculator.preprocess_measures df) as [df'|e] eqn:E.
  - right. exists df'. split; [reflexivity|].
    destruct (preprocess_measures_inv df df' E)
      as [c3 [c4 [c6 [c7 [c8 [c9 [G3 [G4 [G6 [G7 [G8 [G9 ->]]]]]]]]]]]].
    split; [reflexivity|]. split; [reflexivity|]. split.
    + intros v Hv. unfold Calculator.realigned_vars in Hv. cbn [In] in Hv.
      destruct Hv as [<-|[<-|[<-|[<-|[<-|[<-|[]]]]]]].
      * exists c3, (fun x => fsub (Fin 100) x). split; [exact G3|].
        rewrite getitem_set_yr by reflexivity. other_columns.
        rewrite getitem_setitem_same.
        split; [reflexivity|]. split; [intros x y; apply flip_100_order | apply flip_100_isna].
      * exists c4, (fun x => fsub (Fin 100) x). split; [exact G4|].
        rewrite getitem_set_yr by reflexivity. other_columns.
        rewrite getitem_setitem_same.
        split; [reflexivity|]. split; [intros x y; apply flip_100_order | apply flip_100_isna].
      * exists c6, (fun x => fmul (Fin (-1)) x). split; [exact G6|].
        rewrite getitem_set_yr by reflexivity. other_columns.
        rewrite getitem_setitem_same.
        split; [reflexivity|]. split; [intros x y; apply flip_neg_order | apply flip_neg_isna].
      * exists c7, (fun x => fmul (Fin (-1)) x). split; [exact G7|].
        rewrite getitem_set_yr by reflexivity. other_columns.
        rewrite getitem_setitem_same.
        split; [reflexivity|]. split; [intros x y; apply flip_neg_order | apply flip_neg_isna].
      * exists c8, (fun x => fmul (Fin (-1)) x). split; [exact G8|].
        rewrite getitem_set_yr by reflexivity. other_columns.
        rewrite getitem_setitem_same.
        split; [reflexivity|]. split; [intros x y; apply flip_neg_order | apply flip_neg_isna].
      * exists c9, (fun x => fmul (Fin (-1)) x). split; [exact G9|].
        rewrite getitem_set_yr by reflexivity.
        rewrite getitem_setitem_same.
        split; [reflexivity|]. split; [intros x y; apply flip_neg_order | apply flip_neg_isna].
    + intros v Hv Hyr. rewrite getitem_set_yr.
      2:{ apply String.eqb_neq. congruence. }
      rewrite !getitem_setitem_other;
        solve [reflexivity
              | apply (eqb_not_In _ v Calculator.realigned_vars Hv); cbn; tauto].
  - left. destruct (preprocess_measures_raises df e E) as [-> [v [Hv G]]].
    exists v. tauto.
Qed.

Lemma frame_final_score_raises (df : Frame.t) :
  Calculator.calculate_final_score df = Raise KeyError \/
  Calculator.calculate_final_score df = Raise ValueError.
Proof.
  unfold Calculator.calculate_final_score.
  destruct (Frame.getitem df "factor1") as [f1|e] eqn:E1; cbn [bind];
    [|left; now rewrite (getitem_raises _ _ _ E1)].
  destruct (Frame.getitem df "factor3") as [f3|e] eqn:E3; cbn [bind];
    [|left; now rewrite (getitem_raises _ _ _ E3)].
  destruct (Frame.getitem df "factor4") as [f4|e] eqn:E4; cbn [bind];
    [|left; now rewrite (getitem_raises _ _ _ E4)].
  unfold Frame.get_pdflag.
  destruct (Frame.pdflag df) as [pd|]; cbn [bind]; [|now left].
  destruct (Frame.getitem df "factor2") as [f2|e] eqn:E2; cbn [bind];
    [|left; now rewrite (getitem_raises _ _ _ E2)].
  right. reflexivity.
Qed.

(** X16. [process] never returns a frame.  Whatever the input, the pipeline
    stops with an exception: if the steps before it succeed,
    [calculate_final_score] is reached and raises [KeyError] (a factor or
    [pdflag] is absent) or [ValueError] (the four conditions against five
    choices), so no star rank and no cutoff is ever computed by [process]. *)
Theorem process_never_returns (Phi_inv : R -> R) (df : Frame.t) :
  (forall d, Calculator.calculate_final_score d = Raise KeyError \/
             Calculator.calculate_final_score d = Raise ValueError) /\
  exists e, Calculator.process Phi_inv df = Raise e.
Proof.
  split; [exact frame_final_score_raises|].
  unfold Calculator.process.
  destruct (Calculator.transform_measures Phi_inv df) as [d1|e];
    cbn [bind]; [|now exists e].
  destruct (Calculator.calculate_domain_scores d1) as [d2|e];
    cbn [bind]; [|now exists e].
  destruct (frame_final_score_raises d2) as [-> | ->]; cbn [bind]; eauto.
Qed.

(** *** What the steps before the domain scores write *)

Lemma same_outside_refl (l : list string) (d : Frame.t) : same_outside l d d.
Proof. repeat split. Qed.

Lemma same_outside_trans (l : list string) (d1 d2 d3 : Frame.t) :
  same_outside l d1 d2 -> same_outside l d2 d3 -> same_outside l d1 d3.
Proof.
  intros [N1 [P1 G1]] [N2 [P2 G2]]. repeat split; try congruence.
  intros v Hv. now rewrite G2, G1.
Qed.

Lemma same_outside_setitem (l : list string) (d : Frame.t) (n : string)
    (c : list float) :
  In n l -> same_outside l d (Frame.setitem d n c).
Proof.
  intros Hn. repeat split. intros v Hv.
  apply getitem_setitem_other. now apply (eqb_not_In n v l).
Qed.

Lemma same_outside_incl (l l' : list string) (d d' : Frame.t) :
  incl l l' -> same_outside l d d' -> same_outside l' d d'.
Proof.
  intros Hi [N [P G]]. repeat split; try assumption.
  intros v Hv. apply G. intros Hin. apply Hv. now apply Hi.
Qed.

Lemma lookup_assign (n v : string) (c : list float)
    (cols : list (string * list float)) :
  Frame.lookup v (Frame.assign n c cols) =
  if String.eqb n v then Some c else Frame.lookup v cols.
Proof.
  destruct (String.eqb n v) eqn:E.
  - apply String.eqb_eq in E. subst. apply lookup_assign_same.
  - now apply lookup_assign_other.
Qed.

Lemma wf_setitem (d : Frame.t) (n : string) (c : list float) :
  Frame.wf d -> List.length c = Frame.nrows d -> Frame.wf (Frame.setitem d n c).
Proof.
  intros Hwf Hc name c' H. unfold Frame.setitem in *.
  cbn [Frame.columns Frame.nrows] in *. rewrite lookup_assign in H.
  destruct (String.eqb n name); [injection H as <-; exact Hc | now apply (Hwf name)].
Qed.

Lemma wf_setitem_scalar (d : Frame.t) (n : string) (x : float) :
  Frame.wf d -> Frame.wf (Frame.setitem_scalar d n x).
Proof. intros H. apply wf_setitem; [exact H | apply repeat_length]. Qed.

Lemma getitem_wf (d : Frame.t) (v : string) (c : list float) :
  Frame.wf d -> Frame.getitem d v = Ok c -> List.length c = Frame.nrows d.
Proof.
  intros Hwf H. unfold Frame.getitem in H.
  destruct (Frame.lookup v (Frame.columns d)) as [c'|] eqn:E; [|discriminate].
  injection H as <-. now apply (Hwf v).
Qed.

Lemma foldM_inv {A B} (P : B -> Prop) (f : B -> A -> result B) (l : list A) :
  (forall b a b', In a l -> P b -> f b a = Ok b' -> P b') ->
  forall b b', P b -> foldM f l b = Ok b' -> P b'.
Proof.
  induction l as [|a l IH]; intros Hstep b b' Hb H; cbn [foldM] in H.
  - now injection H as <-.
  - destruct (f b a) as [b1|e] eqn:E; cbn [bind] in H; [|discriminate].
    apply (IH (fun b0 a0 b0' Ha => Hstep b0 a0 b0' (or_intror Ha)) b1 b');
      [|exact H].
    apply (Hstep b a b1); [now left | exact Hb | exact E].
Qed.

Lemma winsorize_length (col : list float) (r : Winsor.stored) :
  Winsor.winsorize col = Ok r -> List.length (Winsor.w_ r) = List.length col.
Proof.
  unfold Winsor.winsorize. destruct (Winsor.run col) as [s|e] eqn:Hs;
    cbn [bind]; [|discriminate].
  intros H. injection H as <-. cbn [Winsor.w_].
  unfold Winsor.run in Hs. rewrite iterations_succ in Hs.
  change (seq 1 (S (Z.to_nat 9999))) with (1%nat :: seq 2 (Z.to_nat 9999)) in Hs.
  destruct (for_range_lengths _ _ _ _ Hs) as [_ L]. rewrite L.
  cbn [Winsor.init Winsor.t]. apply length_map.
Qed.

Lemma percentiles_length (Phi_inv : R -> R) (col : list float)
    (out : list (float * float)) :
  Percentile.calculate_percentiles Phi_inv col = Ok out ->
  List.length out = List.length col.
Proof.
  unfold Percentile.calculate_percentiles.
  destruct (mapM _ col) as [ranked|e] eqn:E; cbn [bind]; [|discriminate].
  destruct (mapM_nth _ _ _ E) as [L _].
  destruct ranked as [|k ranked]; cbn [map]; [discriminate|].
  intros H. injection H as <-. rewrite <- L.
  cbn [map combine List.length].
  now rewrite length_combine, !length_map, Nat.min_id.
Qed.

Lemma frame_winsorize_inv (d d' : Frame.t) (var : string) :
  Calculator.winsorize d var = Ok d' ->
  exists col r,
    Frame.getitem d var = Ok col /\ Winsor.winsorize col = Ok r /\
    d' = Frame.setitem_scalar
           (Frame.setitem_scalar
              (Frame.setitem_scalar
                 (Frame.setitem_scalar
                    (Frame.setitem d (String.append "w_" var) (Winsor.w_ r))
                    (String.append var "_mean_t") (Winsor.var_mean_t r))
                 (String.append var "_std_t") (Winsor.var_std_t r))
              (String.append "upl_" var) (Winsor.upl_ r))
           (String.append "lol_" var) (Winsor.lol_ r).
Proof.
  unfold Calculator.winsorize.
  destruct (Frame.getitem d var) as [col|e] eqn:Ec; cbn [bind]; [|discriminate].
  destruct (Winsor.winsorize col) as [r|e] eqn:Er; cbn [bind]; [|discriminate].
  intros H. injection H as <-. exists col, r. repeat split; assumption.
Qed.

Lemma frame_percentiles_inv (Phi_inv : R -> R) (d d' : Frame.t)
    (vars : list string) :
  Calculator.calculate_percentiles Phi_inv d vars = Ok d' ->
  exists cols outs,
    mapM (Frame.getitem d) vars = Ok cols /\
    mapM (Percentile.calculate_percentiles Phi_inv) cols = Ok outs /\
    d' = fold_left Calculator.add_percentiles (combine vars outs) d.
Proof.
  unfold Calculator.calculate_percentiles.
  destruct (mapM (Frame.getitem d) vars) as [cols|e] eqn:Ec; cbn [bind];
    [|discriminate].
  destruct (mapM _ cols) as [outs|e] eqn:Eo; cbn [bind]; [|discriminate].
  intros H. injection H as <-. exists cols, outs. repeat split; assumption.
Qed.

Lemma written_realigned (n : string) :
  In n Calculator.realigned_vars -> In n Calculator.written_vars.
Proof. intros H. unfold Calculator.written_vars. apply in_or_app. now left. Qed.

Lemma assigned_written :
  incl Calculator.written_vars Calculator.assigned_vars.
Proof. intros v H. now right. Qed.

Lemma assigned_realigned :
  incl ("yr"%string :: Calculator.realigned_vars) Calculator.assigned_vars.
Proof.
  intros v [<-|H]; [now left | right; now apply written_realigned].
Qed.

Lemma written_ratio (v : string) :
  In v Calculator.ratio_vars ->
  In (String.append "p_" v) Calculator.percentile_cols /\
  In (String.append "n_" v) Calculator.percentile_cols.
Proof.
  intros H. unfold Calculator.percentile_cols.
  split; apply in_flat_map; exists v; (split; [exact H | cbn [In]; tauto]).
Qed.

Lemma written_percentile_cols :
  incl Calculator.percentile_cols Calculator.written_vars.
Proof.
  intros v H. unfold Calculator.written_vars.
  apply in_or_app; right; apply in_or_app; now left.
Qed.

Lemma written_winsor_cols :
  incl Calculator.winsor_cols Calculator.written_vars.
Proof.
  intros v H. unfold Calculator.written_vars.
  apply in_or_app; right; apply in_or_app; now right.
Qed.

Lemma written_percentage (v : string) :
  In v Calculator.percentage_vars ->
  In (String.append "w_" v) Calculator.winsor_cols /\
  In (String.append v "_mean_t") Calculator.winsor_cols /\
  In (String.append v "_std_t") Calculator.winsor_cols /\
  In (String.append "upl_" v) Calculator.winsor_cols /\
  In (String.append "lol_" v) Calculator.winsor_cols.
Proof.
  intros H. unfold Calculator.winsor_cols.
  repeat split; apply in_flat_map; exists v;
    (split; [exact H | cbn [In]; tauto]).
Qed.

Lemma same_outside_setitem_scalar (l : list string) (d : Frame.t) (n : string)
    (x : float) :
  In n l -> same_outside l d (Frame.setitem_scalar d n x).
Proof. intros H. unfold Frame.setitem_scalar. now apply same_outside_setitem. Qed.

Lemma mapM_combine {A B} (f : A -> result B) (l : list A) (l' : list B) :
  mapM f l = Ok l' -> forall a b, In (a, b) (combine l l') -> f a = Ok b.
Proof.
  revert l'. induction l as [|x l IH]; intros l' H a b Hin; cbn [mapM] in H.
  - injection H as <-. destruct Hin.
  - destruct (f x) as [y|e] eqn:Ex; cbn [bind] in H; [|discriminate].
    destruct (mapM f l) as [ys|e]; cbn [bind] in H; [|discriminate].
    injection H as <-. cbn [combine In] in Hin.
    destruct Hin as [E|Hin]; [injection E as <- <-; exact Ex|].
    now apply (IH ys eq_refl).
Qed.

Lemma mapM_compose {A B C} (f : A -> result B) (g : B -> result C)
    (l : list A) (l1 : list B) (l2 : list C) :
  mapM f l = Ok l1 -> mapM g l1 = Ok l2 ->
  mapM (fun a => b <- f a ;; g b) l = Ok l2.
Proof.
  revert l1 l2. induction l as [|x l IH]; intros l1 l2 H1 H2; cbn [mapM] in *.
  - injection H1 as <-. exact H2.
  - destruct (f x) as [y|e] eqn:Ex; cbn [bind] in *; [|discriminate].
    destruct (mapM f l) as [ys|e]; cbn [bind] in H1; [|discriminate].
    injection H1 as <-. cbn [mapM] in H2.
    destruct (g y) as [z|e] eqn:Ey; cbn [bind] in *; [|discriminate].
    destruct (mapM g ys) as [zs|e] eqn:Ez; cbn [bind] in H2; [|discriminate].
    injection H2 as <-. now rewrite (IH ys zs eq_refl Ez).
Qed.

Lemma add_percentiles_same_outside (l : list (string * list (float * float)))
    (d : Frame.t) :
  (forall vo, In vo l -> In (fst vo) Calculator.ratio_vars) ->
  same_outside Calculator.percentile_cols d
    (fold_left Calculator.add_percentiles l d).
Proof.
  revert d. induction l as [|vo l IH]; intros d H; cbn [fold_left].
  - apply same_outside_refl.
  - assert (Hv : In (fst vo) Calculator.ratio_vars) by (apply H; now left).
    destruct (written_ratio _ Hv) as [Hp Hn].
    eapply same_outside_trans; [|apply IH; intros vo' Hvo'; apply H; now right].
    unfold Calculator.add_percentiles.
    eapply same_outside_trans; now apply same_outside_setitem.
Qed.

Lemma add_percentiles_wf (l : list (string * list (float * float)))
    (d : Frame.t) :
  (forall vo, In vo l -> List.length (snd vo) = Frame.nrows d) ->
  Frame.wf d -> Frame.wf (fold_left Calculator.add_percentiles l d).
Proof.
  revert d. induction l as [|vo l IH]; intros d H Hwf; cbn [fold_left];
    [exact Hwf|].
  assert (Hl : List.length (snd vo) = Frame.nrows d) by (apply H; now left).
  apply IH.
  - intros vo' Hvo'. unfold Calculator.add_percentiles, Frame.setitem.
    cbn [Frame.nrows]. apply H. now right.
  - unfold Calculator.add_percentiles.
    apply wf_setitem; [apply wf_setitem; [exact Hwf|]|];
      unfold Frame.setitem; cbn [Frame.nrows]; now rewrite length_map.
Qed.

Lemma frame_percentiles_keeps (Phi_inv : R -> R) (d d' : Frame.t) :
  Calculator.calculate_percentiles Phi_inv d Calculator.ratio_vars = Ok d' ->
  same_outside Calculator.percentile_cols d d' /\ (Frame.wf d -> Frame.wf d').
Proof.
  intros H. destruct (frame_percentiles_inv _ _ _ _ H) as [cols [outs [Ec [Eo ->]]]].
  split.
  - apply add_percentiles_same_outside. intros [v o] Hvo.
    cbn [fst]. now apply in_combine_l in Hvo.
  - intros Hwf. apply add_percentiles_wf; [|exact Hwf].
    intros [v o] Hvo. cbn [snd].
    pose proof (mapM_combine _ _ _ (mapM_compose _ _ _ _ _ Ec Eo) v o Hvo) as Hc.
    cbn beta in Hc.
    destruct (Frame.getitem d v) as [col|e] eqn:Ev; cbn [bind] in Hc;
      [|discriminate].
    rewrite (percentiles_length _ _ _ Hc). now apply (getitem_wf d v).
Qed.

Lemma frame_winsorize_keeps (d d' : Frame.t) (var : string) :
  In var Calculator.percentage_vars ->
  Calculator.winsorize d var = Ok d' ->
  same_outside Calculator.winsor_cols d d' /\ (Frame.wf d -> Frame.wf d').
Proof.
  intros Hvar H.
  destruct (frame_winsorize_inv _ _ _ H) as [col [r [Ec [Er ->]]]].
  destruct (written_percentage _ Hvar) as [H1 [H2 [H3 [H4 H5]]]].
  split.
  - repeat (eapply same_outside_trans;
            [|now apply same_outside_setitem_scalar]).
    now apply same_outside_setitem.
  - intros Hwf. repeat apply wf_setitem_scalar.
    apply wf_setitem; [exact Hwf|].
    rewrite (winsorize_length _ _ Er). now apply (getitem_wf d var).
Qed.

Lemma preprocess_keeps (d d' : Frame.t) :
  Calculator.preprocess_measures d = Ok d' ->
  same_outside ("yr"%string :: Calculator.realigned_vars) d d' /\
  (Frame.wf d -> Frame.wf d').
Proof.
  intros H.
  destruct (preprocess_measures_inv d d' H)
    as [c3 [c4 [c6 [c7 [c8 [c9 [G3 [G4 [G6 [G7 [G8 [G9 ->]]]]]]]]]]]].
  split.
  - assert (Hy : forall f,
               same_outside ("yr"%string :: Calculator.realigned_vars) d f ->
               same_outside ("yr"%string :: Calculator.realigned_vars) d
                 (Frame.set_yr f "baseline")).
    { intros f [N [P G]]. split; [exact N|]. split; [exact P|].
      intros v Hv. rewrite getitem_set_yr; [now apply G|].
      apply (eqb_not_In "yr" v _ Hv). now left. }
    apply Hy.
    repeat (eapply same_outside_trans;
            [|apply same_outside_setitem;
              unfold Calculator.realigned_vars; cbn [In]; tauto]).
    apply same_outside_refl.
  - intros Hwf.
    apply wf_set_yr.
    repeat (apply wf_setitem;
            [|unfold Frame.setitem; cbn [Frame.nrows]; rewrite length_map;
              eapply getitem_wf; [exact Hwf | eassumption]]).
    exact Hwf.
Qed.

Lemma transform_measures_keeps (Phi_inv : R -> R) (df df' : Frame.t) :
  Calculator.transform_measures Phi_inv df = Ok df' ->
  same_outside Calculator.assigned_vars df df' /\ (Frame.wf df -> Frame.wf df').
Proof.
  intros E. unfold Calculator.transform_measures in E.
  destruct (Calculator.preprocess_measures df) as [d1|] eqn:E1;
    cbn [bind] in E; [|discriminate].
  destruct (Calculator.calculate_percentiles Phi_inv d1 Calculator.ratio_vars)
    as [d2|] eqn:E2; cbn [bind] in E; [|discriminate].
  destruct (preprocess_keeps _ _ E1) as [S1 W1].
  destruct (frame_percentiles_keeps _ _ _ E2) as [S2 W2].
  apply (same_outside_incl _ _ _ _ assigned_realigned) in S1.
  apply (same_outside_incl _ _ _ _
           (incl_tran written_percentile_cols assigned_written)) in S2.
  apply (foldM_inv
           (fun d => same_outside Calculator.assigned_vars df d /\
                     (Frame.wf df -> Frame.wf d))
           Calculator.winsorize Calculator.percentage_vars) with (b := d2);
    [| |exact E].
  - intros b a b' Ha [Sb Wb] Hb.
    destruct (frame_winsorize_keeps _ _ _ Ha Hb) as [S3 W3].
    apply (same_outside_incl _ _ _ _
             (incl_tran written_winsor_cols assigned_written)) in S3.
    split; [eapply same_outside_trans; eassumption | auto].
  - split; [eapply same_outside_trans; eassumption | auto].
Qed.

(** X17. Whenever the steps of [process] before the domain scores
    (realignment, percentiles of the five ratio measures, winsorization of
    the five percentage measures) all succeed, the frame they leave has the
    same rows and flag as the input, reads as the input on every numeric
    column outside the ones they assign to ([yr], the six realigned
    measures, the percentile and probit columns and the five columns of
    each winsorized measure), and is well formed if the input was: every
    column still has one entry per facility. *)
Theorem transform_measures_frame (Phi_inv : R -> R) (df : Frame.t) :
  (exists e, Calculator.transform_measures Phi_inv df = Raise e) \/
  (exists df', Calculator.transform_measures Phi_inv df = Ok df' /\
     Frame.nrows df' = Frame.nrows df /\
     Frame.pdflag df' = Frame.pdflag df /\
     (forall v, ~ In v Calculator.assigned_vars ->
                Frame.getitem df' v = Frame.getitem df v) /\
     (Frame.wf df -> Frame.wf df')).
Proof.
  destruct (Calculator.transform_measures Phi_inv df) as [df'|e] eqn:E;
    [right | left; now exists e].
  exists df'. split; [reflexivity|].
  destruct (transform_measures_keeps _ _ _ E) as [[N [P G]] W]. tauto.
Qed.

(** *** When the steps before the domain scores succeed *)

Lemma preprocess_columns (d d' : Frame.t) :
  Calculator.preprocess_measures d = Ok d' ->
  forall v c, String.eqb "yr" v = false -> Frame.getitem d v = Ok c ->
    exists g, Frame.getitem d' v = Ok (map g c) /\
              forall x, isna (g x) = isna x.
Proof.
  intros H v c Hyr Hc.
  destruct (in_dec String.string_dec v Calculator.realigned_vars) as [Hin|Hout].
  - destruct (preprocess_measures_inv d d' H)
      as [c3 [c4 [c6 [c7 [c8 [c9 [G3 [G4 [G6 [G7 [G8 [G9 ->]]]]]]]]]]]].
    unfold Calculator.realigned_vars in Hin. cbn [In] in Hin.
    rewrite getitem_set_yr by exact Hyr.
    destruct Hin as [<-|[<-|[<-|[<-|[<-|[<-|[]]]]]]]; other_columns;
      rewrite getitem_setitem_same.
    + exists (fun x => fsub (Fin 100) x).
      split; [congruence | apply flip_100_isna].
    + exists (fun x => fsub (Fin 100) x).
      split; [congruence | apply flip_100_isna].
    + exists (fun x => fmul (Fin (-1)) x).
      split; [congruence | apply flip_neg_isna].
    + exists (fun x => fmul (Fin (-1)) x).
      split; [congruence | apply flip_neg_isna].
    + exists (fun x => fmul (Fin (-1)) x).
      split; [congruence | apply flip_neg_isna].
    + exists (fun x => fmul (Fin (-1)) x).
      split; [congruence | apply flip_neg_isna].
  - destruct (preprocess_keeps d d' H) as [[_ [_ G]] _].
    exists (fun x => x). rewrite map_id. split; [|reflexivity].
    rewrite G; [exact Hc|]. intros [E|F]; [|contradiction].
    subst v. rewrite String.eqb_refl in Hyr. discriminate.
Qed.

Lemma not_In_eqb (v : string) (l : list string) :
  existsb (String.eqb v) l = false -> ~ In v l.
Proof.
  intros H Hin. assert (E : existsb (String.eqb v) l = true).
  { apply existsb_exists. exists v. split; [exact Hin | apply String.eqb_refl]. }
  congruence.
Qed.

Lemma percentage_not_percentile_cols (v : string) :
  In v Calculator.percentage_vars -> ~ In v Calculator.percentile_cols.
Proof.
  unfold Calculator.percentage_vars. cbn [In].
  intros [<-|[<-|[<-|[<-|[<-|[]]]]]]; apply not_In_eqb; reflexivity.
Qed.

Lemma percentage_not_winsor_cols (v : string) :
  In v Calculator.percentage_vars -> ~ In v Calculator.winsor_cols.
Proof.
  unfold Calculator.percentage_vars. cbn [In].
  intros [<-|[<-|[<-|[<-|[<-|[]]]]]]; apply not_In_eqb; reflexivity.
Qed.

Lemma measures_not_yr (v : string) :
  In v (Calculator.ratio_vars ++ Calculator.percentage_vars) ->
  String.eqb "yr" v = false.
Proof.
  unfold Calculator.ratio_vars, Calculator.percentage_vars. cbn [In app].
  intros [<-|[<-|[<-|[<-|[<-|[<-|[<-|[<-|[<-|[<-|[]]]]]]]]]]]; reflexivity.
Qed.

Lemma realigned_are_measures :
  incl Calculator.realigned_vars
       (Calculator.ratio_vars ++ Calculator.percentage_vars).
Proof.
  intros v. unfold Calculator.realigned_vars, Calculator.ratio_vars,
    Calculator.percentage_vars. cbn [In app]. tauto.
Qed.

Lemma foldM_total {A B} (P : B -> Prop) (f : B -> A -> result B) (l : list A) :
  (forall b a, In a l -> P b -> exists b', f b a = Ok b' /\ P b') ->
  forall b, P b -> exists b', foldM f l b = Ok b' /\ P b'.
Proof.
  induction l as [|a l IH]; intros Hstep b Hb; cbn [foldM].
  - now exists b.
  - destruct (Hstep b a (or_introl eq_refl) Hb) as [b1 [E1 P1]].
    rewrite E1. cbn [bind].
    apply IH; [|exact P1]. intros b0 a0 Ha0. apply Hstep. now right.
Qed.

Lemma winsorize_nonempty (col : list float) :
  col <> [] -> exists r, Winsor.winsorize col = Ok r.
Proof.
  intros H. destruct (run_total col H) as [s Hs].
  unfold Winsor.winsorize. rewrite Hs. cbn [bind]. eauto.
Qed.

Lemma In_NaN_map (g : float -> float) (c : list float) :
  (forall x, isna (g x) = isna x) -> In NaN (map g c) -> In NaN c.
Proof.
  intros Hg H. apply in_map_iff in H. destruct H as [x [E Hx]].
  assert (Hn : isna x = true) by (rewrite <- Hg, E; reflexivity).
  apply isna_eq in Hn. now subst.
Qed.

(** X18. The steps of [process] before the domain scores succeed on every
    well-formed frame with at least one facility that holds the ten
    measures and has no missing value in the five ratio measures. *)
Theorem transform_measures_succeeds (Phi_inv : R -> R) (df : Frame.t) :
  Frame.wf df -> (0 < Frame.nrows df)%nat ->
  (forall v, In v (Calculator.ratio_vars ++ Calculator.percentage_vars) ->
             exists c, Frame.getitem df v = Ok c) ->
  (forall v c, In v Calculator.ratio_vars -> Frame.getitem df v = Ok c ->
               ~ In NaN c) ->
  exists df', Calculator.transform_measures Phi_inv df = Ok df'.
Proof.
  intros Hwf Hrows Hall Hratio. unfold Calculator.transform_measures.
  destruct (Calculator.preprocess_measures df) as [d1|e] eqn:E1.
  2:{ destruct (preprocess_measures_raises df e E1) as [_ [v [Hv G]]].
      destruct (Hall v (realigned_are_measures v Hv)) as [c Hc]. congruence. }
  cbn [bind].
  pose proof (preprocess_columns df d1 E1) as Hcol.
  destruct (preprocess_keeps df d1 E1) as [[N1 _] W1].
  destruct (mapM_total (Frame.getitem d1) Calculator.ratio_vars) as [cols Ec].
  { intros v Hv.
    assert (Hm : In v (Calculator.ratio_vars ++ Calculator.percentage_vars))
      by (apply in_or_app; now left).
    destruct (Hall v Hm) as [c Hc].
    destruct (Hcol v c (measures_not_yr v Hm) Hc) as [g [Hg _]]. eauto. }
  destruct (mapM_total (Percentile.calculate_percentiles Phi_inv) cols)
    as [outs Eo].
  { intros col Hin. destruct (In_nth_error _ _ Hin) as [i Hi].
    destruct (mapM_nth _ _ _ Ec) as [_ Hn].
    destruct (Hn i col Hi) as [v [Hv Gv]].
    apply nth_error_In in Hv.
    assert (Hm : In v (Calculator.ratio_vars ++ Calculator.percentage_vars))
      by (apply in_or_app; now left).
    destruct (Hall v Hm) as [c Hc].
    destruct (Hcol v c (measures_not_yr v Hm) Hc) as [g [Hg Hna]].
    assert (col = map g c) by congruence. subst col.
    destruct (calculate_percentiles_at Phi_inv (map g c)) as [ranked [E _]];
      [| |eauto].
    { intros F. apply (f_equal (@List.length float)) in F.
      rewrite length_map, (getitem_wf df v c Hwf Hc) in F. cbn in F. lia. }
    intros x Hx. destruct (isna x) eqn:Ex; [|reflexivity].
    apply isna_eq in Ex. subst x. exfalso.
    apply (Hratio v c Hv Hc). now apply (In_NaN_map g). }
  assert (E2 : Calculator.calculate_percentiles Phi_inv d1 Calculator.ratio_vars
               = Ok (fold_left Calculator.add_percentiles
                       (combine Calculator.ratio_vars outs) d1)).
  { unfold Calculator.calculate_percentiles. rewrite Ec. cbn [bind].
    rewrite Eo. reflexivity. }
  rewrite E2. cbn [bind].
  destruct (frame_percentiles_keeps _ _ _ E2) as [[N2 [_ G2]] W2].
  set (d2 := fold_left _ _ d1) in *.
  destruct (foldM_total
              (fun d => Frame.wf d /\ Frame.nrows d = Frame.nrows df /\
                        forall v, In v Calculator.percentage_vars ->
                                  exists c, Frame.getitem d v = Ok c)
              Calculator.winsorize Calculator.percentage_vars) with (b := d2)
    as [df' [E3 _]]; [| |now exists df'].
  - intros b a Ha [Wb [Nb Gb]]. destruct (Gb a Ha) as [col Hcola].
    assert (Hne : col <> []).
    { intros ->. pose proof (getitem_wf b a [] Wb Hcola) as L.
      cbn in L. lia. }
    destruct (winsorize_nonempty col Hne) as [r Hr].
    assert (Eb : exists b', Calculator.winsorize b a = Ok b').
    { unfold Calculator.winsorize. rewrite Hcola. cbn [bind]. rewrite Hr.
      cbn [bind]. eauto. }
    destruct Eb as [b' Eb]. exists b'. split; [exact Eb|].
    destruct (frame_winsorize_keeps b b' a Ha Eb) as [[N3 [_ G3]] W3].
    split; [auto|]. split; [congruence|].
    intros v Hv. rewrite (G3 v (percentage_not_winsor_cols v Hv)). auto.
  - split; [auto|]. split; [congruence|].
    intros v Hv. rewrite (G2 v (percentage_not_percentile_cols v Hv)).
    assert (Hm : In v (Calculator.ratio_vars ++ Calculator.percentage_vars))
      by (apply in_or_app; now right).
    destruct (Hall v Hm) as [c Hc].
    destruct (Hcol v c (measures_not_yr v Hm) Hc) as [g [Hg _]]. eauto.
Qed.

Lemma measures_only_lookup (col c : list float) (l : list string) (v : string) :
  Frame.lookup v (map (fun n => (n, col)) l) = Some c -> c = col.
Proof.
  induction l as [|n l IH]; cbn [map Frame.lookup]; [discriminate|].
  destruct (String.eqb n v); [congruence | exact IH].
Qed.

Lemma measures_only_present (col : list float) (l : list string) (v : string) :
  In v l -> Frame.lookup v (map (fun n => (n, col)) l) = Some col.
Proof.
  induction l as [|n l IH]; cbn [map Frame.lookup In]; [tauto|].
  intros H. destruct (String.eqb n v) eqn:E; [reflexivity|].
  destruct H as [->|H]; [now rewrite String.eqb_refl in E | now apply IH].
Qed.

Lemma transform_measures_succeeds_witness :
  exists df',
    Calculator.transform_measures (fun p => p)
      (Calculator.measures_only [Fin 1; Fin 2]) = Ok df'.
Proof.
  apply (transform_measures_succeeds (fun p => p)
           (Calculator.measures_only [Fin 1; Fin 2])).
  - intros name c H. apply measures_only_lookup in H. now subst.
  - cbn. lia.
  - intros v Hv. exists [Fin 1; Fin 2]. unfold Frame.getitem.
    cbn [Calculator.measures_only Frame.columns].
    now rewrite (measures_only_present _ _ v Hv).
  - intros v c _ H. unfold Frame.getitem in H.
    destruct (Frame.lookup v _) as [c'|] eqn:E; [|discriminate].
    apply measures_only_lookup in E. injection H as <-. subst c'.
    intros [F|[F|[]]]; discriminate.
Defined.

(** *** Where [process] stops *)

Lemma add_indicator_raises (l : list string) (v : string) :
  (forall n, In n l -> String.eqb (String.append "m_" n) v = false) ->
  forall d, In v l -> Frame.getitem d v = Raise KeyError ->
            foldM Calculator.add_indicator l d = Raise KeyError.
Proof.
  induction l as [|n l IH]; intros Hm d Hin Hv; [destruct Hin|].
  cbn [foldM]. unfold Calculator.add_indicator at 1.
  destruct (Frame.getitem d n) as [c|e] eqn:En; cbn [bind].
  - destruct Hin as [->|Hin]; [congruence|].
    apply IH; [intros n' Hn'; apply Hm; now right | exact Hin|].
    rewrite getitem_setitem_other; [exact Hv | apply Hm; now left].
  - now rewrite (getitem_raises _ _ _ En).
Qed.

Lemma indicator_names_fresh (v : string) :
  In v Calculator.indicator_vars ->
  forall n, In n Calculator.indicator_vars ->
            String.eqb (String.append "m_" n) v = false.
Proof.
  intros Hv.
  assert (H : forallb (fun n => negb (String.eqb (String.append "m_" n) v))
                Calculator.indicator_vars = true).
  { unfold Calculator.indicator_vars in Hv. cbn [In] in Hv.
    destruct Hv as [<-|[<-|[<-|[<-|[<-|[<-|[<-|[<-|[<-|[<-|[]]]]]]]]]]];
      reflexivity. }
  intros n Hn. rewrite forallb_forall in H. specialize (H n Hn).
  now apply negb_true_iff in H.
Qed.

Lemma indicator_not_assigned (v : string) :
  In v Calculator.indicator_vars -> ~ In v Calculator.written_vars ->
  ~ In v Calculator.assigned_vars.
Proof.
  intros Hv Hw [E|F]; [|contradiction]. subst v.
  unfold Calculator.indicator_vars in Hv. cbn [In] in Hv.
  repeat (destruct Hv as [Hv|Hv]; [discriminate|]). exact Hv.
Qed.

Lemma domain_scores_missing_column (d : Frame.t) (v : string) :
  In v Calculator.indicator_vars -> Frame.getitem d v = Raise KeyError ->
  Calculator.calculate_domain_scores d = Raise KeyError.
Proof.
  intros Hv Hg. unfold Calculator.calculate_domain_scores.
  rewrite (add_indicator_raises _ v (indicator_names_fresh v Hv) d Hv Hg).
  reflexivity.
Qed.

(** X19. [process] cannot get past [calculate_domain_scores] when the input
    frame lacks one of the ten variables that step reads and that no earlier
    step creates (every one of them except [w_star_var5_f]): either an
    earlier step raises and [process] raises the same exception, or the
    earlier steps succeed and [calculate_domain_scores], hence [process],
    raises [KeyError]. *)
Theorem process_stops_at_domain_scores (Phi_inv : R -> R) (df : Frame.t)
    (v : String.string) :
  In v Calculator.indicator_vars -> ~ In v Calculator.written_vars ->
  Frame.getitem df v = Raise KeyError ->
  (exists e, Calculator.transform_measures Phi_inv df = Raise e /\
             Calculator.process Phi_inv df = Raise e) \/
  (exists df', Calculator.transform_measures Phi_inv df = Ok df' /\
               Calculator.calculate_domain_scores df' = Raise KeyError /\
               Calculator.process Phi_inv df = Raise KeyError).
Proof.
  intros Hv Hw Hg. unfold Calculator.process.
  destruct (Calculator.transform_measures Phi_inv df) as [df'|e] eqn:E;
    cbn [bind]; [right | left; now exists e].
  exists df'. split; [reflexivity|].
  destruct (transform_measures_keeps _ _ _ E) as [[_ [_ G]] _].
  assert (D : Calculator.calculate_domain_scores df' = Raise KeyError).
  { apply (domain_scores_missing_column df' v Hv).
    now rewrite (G v (indicator_not_assigned v Hv Hw)). }
  split; [exact D | now rewrite D].
Qed.

Lemma process_stops_at_domain_scores_witness :
  (exists e,
     Calculator.transform_measures (fun p => p)
       (Calculator.measures_only [Fin 1; Fin 2]) = Raise e /\
     Calculator.process (fun p => p)
       (Calculator.measures_only [Fin 1; Fin 2]) = Raise e) \/
  (exists df',
     Calculator.transform_measures (fun p => p)
       (Calculator.measures_only [Fin 1; Fin 2]) = Ok df' /\
     Calculator.calculate_domain_scores df' = Raise KeyError /\
     Calculator.process (fun p => p)
       (Calculator.measures_only [Fin 1; Fin 2]) = Raise KeyError).
Proof.
  apply (process_stops_at_domain_scores (fun p => p)
           (Calculator.measures_only [Fin 1; Fin 2]) "n_var1_f").
  - unfold Calculator.indicator_vars. cbn [In]. tauto.
  - apply not_In_eqb. reflexivity.
  - reflexivity.
Defined.

(** The variables [calculate_domain_scores] reads that no earlier step of
    [process] creates. *)
Lemma indicator_vars_not_written (v : string) :
  In v Calculator.indicator_vars ->
  v = "w_star_var5_f"%string \/ ~ In v Calculator.written_vars.
Proof.
  unfold Calculator.indicator_vars. cbn [In].
  intros [<-|[<-|[<-|[<-|[<-|[<-|[<-|[<-|[<-|[<-|[]]]]]]]]]]];
    try (now left); right; apply not_In_eqb; reflexivity.
Qed.

(** *** Domain scores on a frame *)

Lemma add_indicator_inv (d d' : Frame.t) (n : string) :
  Calculator.add_indicator d n = Ok d' ->
  exists c, Frame.getitem d n = Ok c /\
            d' = Frame.setitem d (String.append "m_" n)
                   (map (fun x => of_Z (Domain.m_ x)) c).
Proof.
  unfold Calculator.add_indicator.
  destruct (Frame.getitem d n) as [c|e] eqn:E; cbn [bind]; [|discriminate].
  intros H. injection H as <-. now exists c.
Qed.

(** [d'] has the rows of [d], is well formed if [d] is, and reads like [d]
    on the ten variables of the domain scores. *)
Lemma add_indicator_keeps (d d' : Frame.t) (n : string) :
  In n Calculator.indicator_vars ->
  Calculator.add_indicator d n = Ok d' ->
  Frame.nrows d' = Frame.nrows d /\ (Frame.wf d -> Frame.wf d') /\
  forall v, In v Calculator.indicator_vars ->
            Frame.getitem d' v = Frame.getitem d v.
Proof.
  intros Hn H. destruct (add_indicator_inv _ _ _ H) as [c [Hc ->]].
  split; [reflexivity|]. split.
  - intros Hwf. apply wf_setitem; [exact Hwf|].
    rewrite length_map. now apply (getitem_wf d n).
  - intros v Hv. apply getitem_setitem_other.
    now apply indicator_names_fresh.
Qed.

Lemma add_indicators_run (df : Frame.t) (l : list string) :
  incl l Calculator.indicator_vars ->
  forall d,
    (forall v, In v Calculator.indicator_vars ->
               Frame.getitem d v = Frame.getitem df v) ->
    Frame.nrows d = Frame.nrows df -> (Frame.wf df -> Frame.wf d) ->
    (exists v, In v l /\ Frame.getitem df v = Raise KeyError /\
               foldM Calculator.add_indicator l d = Raise KeyError) \/
    (exists d', foldM Calculator.add_indicator l d = Ok d' /\
       (forall v, In v Calculator.indicator_vars ->
                  Frame.getitem d' v = Frame.getitem df v) /\
       Frame.nrows d' = Frame.nrows df /\ (Frame.wf df -> Frame.wf d')).
Proof.
  induction l as [|n l IH]; intros Hl d Hg Hn Hw; cbn [foldM].
  - right. exists d. tauto.
  - assert (Hin : In n Calculator.indicator_vars) by (apply Hl; now left).
    destruct (Calculator.add_indicator d n) as [d1|e] eqn:E; cbn [bind].
    + destruct (add_indicator_keeps d d1 n Hin E) as [N1 [W1 G1]].
      destruct (IH (fun v Hv => Hl v (or_intror Hv)) d1) as [[v [Hv [A B]]]|R].
      * intros v Hv. now rewrite G1, Hg.
      * congruence.
      * auto.
      * left. exists v. split; [now right | tauto].
      * now right.
    + left. exists n. split; [now left|].
      unfold Calculator.add_indicator in E.
      destruct (Frame.getitem d n) as [c|e'] eqn:En; cbn [bind] in E;
        [discriminate|].
      injection E as <-. pose proof (getitem_raises _ _ _ En). subst e'.
      split; [now rewrite <- (Hg n Hin) | reflexivity].
Qed.

(** X20. On a frame [calculate_domain_scores] raises [KeyError] whenever
    one of the ten variables it reads is absent.  When all ten are present
    it returns the frame with the same rows, the ten variables unchanged by
    the indicator columns, and the four domain scores as columns with one
    entry per facility; a well-formed frame stays well formed. *)
Theorem frame_domain_scores (df : Frame.t) :
  (forall v, In v Calculator.indicator_vars ->
             Frame.getitem df v = Raise KeyError ->
             Calculator.calculate_domain_scores df = Raise KeyError) /\
  ((forall v, In v Calculator.indicator_vars ->
              exists c, Frame.getitem df v = Ok c) ->
   exists df' f1 f2 f3 f4,
     Calculator.calculate_domain_scores df = Ok df' /\
     Frame.nrows df' = Frame.nrows df /\
     Frame.getitem df' "factor1" = Ok f1 /\
     Frame.getitem df' "factor2" = Ok f2 /\
     Frame.getitem df' "factor3" = Ok f3 /\
     Frame.getitem df' "factor4" = Ok f4 /\
     List.length f1 = Frame.nrows df /\ List.length f2 = Frame.nrows df /\
     List.length f3 = Frame.nrows df /\ List.length f4 = Frame.nrows df /\
     (forall v, In v Calculator.indicator_vars ->
                Frame.getitem df' v = Frame.getitem df v) /\
     (Frame.wf df -> Frame.wf df')).
Proof.
  split; [intros v Hv Hg; now apply (domain_scores_missing_column df v)|].
  intros Hall. unfold Calculator.calculate_domain_scores.
  destruct (add_indicators_run df Calculator.indicator_vars (incl_refl _) df)
    as [[v [Hv [A B]]]|[d [E [G [N W]]]]]; try tauto.
  - destruct (Hall v Hv) as [c Hc]. congruence.
  - rewrite E. cbn [bind].
    assert (Hp : forall v, In v Calculator.indicator_vars ->
                           exists c, Frame.getitem d v = Ok c).
    { intros v Hv. destruct (getitem_cases d v) as [K|Hc]; [|exact Hc].
      exfalso.
      pose proof (add_indicator_raises _ v (indicator_names_fresh v Hv) df Hv) as R.
      rewrite <- (G v Hv) in R at 1. rewrite E in R. specialize (R K).
      discriminate. }
    assert (Hi : forall v, In v Calculator.indicator_vars ->
                           In v Calculator.indicator_vars) by auto.
    unfold Calculator.indicator_vars in Hi at 1. cbn [In] in Hi.
    destruct (Hp "n_var1_f"%string) as [c1 ->]; [apply Hi; tauto|].
    destruct (Hp "n_var2_f"%string) as [c2 ->]; [apply Hi; tauto|].
    destruct (Hp "n_var3_f"%string) as [c3 ->]; [apply Hi; tauto|].
    destruct (Hp "n_var4_f"%string) as [c4 ->]; [apply Hi; tauto|].
    destruct (Hp "w_star_var5_f"%string) as [c5 ->]; [apply Hi; tauto|].
    destruct (Hp "w_star_var6_f"%string) as [c6 ->]; [apply Hi; tauto|].
    destruct (Hp "w_star_var7_f"%string) as [c7 ->]; [apply Hi; tauto|].
    destruct (Hp "w_star_var8_f"%string) as [c8 ->]; [apply Hi; tauto|].
    destruct (Hp "n_var9_f"%string) as [c9 ->]; [apply Hi; tauto|].
    destruct (Hp "w_star_var10_f"%string) as [c10 ->]; [apply Hi; tauto|].
    cbn [bind]. cbv zeta.
    do 5 eexists. split; [reflexivity|]. split; [exact N|].
    split; [other_columns; apply getitem_setitem_same|].
    split; [other_columns; apply getitem_setitem_same|].
    split; [other_columns; apply getitem_setitem_same|].
    split; [apply getitem_setitem_same|].
    rewrite !length_map, !length_seq.
    split; [exact N|]. split; [exact N|]. split; [exact N|]. split; [exact N|].
    split.
    + intros v Hv. rewrite <- (G v Hv).
      unfold Calculator.indicator_vars in Hv. cbn [In] in Hv.
      destruct Hv as [<-|[<-|[<-|[<-|[<-|[<-|[<-|[<-|[<-|[<-|[]]]]]]]]]]];
        other_columns; reflexivity.
    + intros Hwf. specialize (W Hwf).
      repeat (apply wf_setitem;
              [|unfold Frame.setitem; cbn [Frame.nrows];
                rewrite !length_map, length_seq; reflexivity]).
      exact W.
Qed.

End FrameProperties.
